(** * Chunked file ingestion core: upload sessions, progress bus,
      processing pipeline and error recovery

    A shallow embedding of

      - [api/server/services/WebSocket/UploadProgress.js]  (class UploadProgressManager)
      - [api/server/services/Files/ChunkedUpload.js]       (class ChunkedUploadManager)
      - [api/server/services/Files/ProcessingPipeline.js]  (class ProcessingPipelineManager)
      - [api/server/services/Files/ErrorRecovery.js]       (class ErrorRecoveryManager)
      - [api/server/middleware/auth.js]                    (authenticateWebSocket)
      - the router of the chunked upload                   (the routes under [/chunked])

    The four managers are module-level singletons that call each other; the
    embedding keeps their mutable registries in one [World] record and writes
    every method as a computation in a state / exception / output monad [M].

    Conventions of the embedding:
      - a JS [Map] is a [gmap], a JS [Set] of numbers a [gset Z], the set of
        sockets of one user an insertion-ordered duplicate-free [list];
      - a property that an object may lack is an [option] field; reading a
        property of [undefined] raises a [TypeError], as V8 does;
      - JS numbers that hold counts, sizes, indices and milliseconds are [Z];
        progress fractions and stage weights are exact rationals [Q]; the
        backoff delay is computed in doubles, every operation rounded to the
        nearest double ([Js.round64]);
      - [Date.now()] reads the [now] field of the world, [Math.random()] is an
        explicit argument, MD5 is a parameter ([Crypto]);
      - [logger] calls and the opaque payloads that are only passed through
        ([details], [context], [result]) are left out;
      - [setTimeout] appends a [SetTimeout] effect; the callback is a method of
        its own that the event loop may run later;
      - an [async] method runs to completion before the next call starts:
        interleavings at [await] are outside the model. *)

From Stdlib Require Import ZArith QArith Qpower Qround Qminmax Qabs String Ascii List Lia Lqa.
From stdpp Require Import gmap strings list pretty.

Open Scope string_scope.
Open Scope list_scope.
Open Scope Z_scope.

(** ** JavaScript helpers *)

Module Js.

(** [Math.ceil(a / b)] for integers [a] and [b > 0]. *)
Definition ceil_div (a b : Z) : Z := - ((- a) / b).

(** A number that may be a fraction: a finite value or one of the
    non-finite results of a division by zero. *)
Inductive num := Fin (q : Q) | NaN | PosInfinity | NegInfinity.

(** [a / b] on numbers holding integers. *)
Definition div (a b : Z) : num :=
  if decide (b = 0) then
    if decide (a = 0) then NaN
    else if decide (0 < a) then PosInfinity else NegInfinity
  else Fin (inject_Z a / inject_Z b)%Q.

(** [Math.min(1, Math.max(0, p))] *)
Definition clamp01 (p : num) : num :=
  match p with
  | Fin q => Fin (Qmin 1 (Qmax 0 q))
  | NaN => NaN
  | PosInfinity => Fin 1
  | NegInfinity => Fin 0
  end.

(** [ASCII] part of [String.prototype.toLowerCase]. *)
Definition lower_ascii (c : ascii) : ascii :=
  let n := nat_of_ascii c in
  if (Nat.leb 65 n && Nat.leb n 90)%bool then ascii_of_nat (n + 32) else c.

Fixpoint toLowerCase (s : string) : string :=
  match s with
  | EmptyString => EmptyString
  | String c s' => String (lower_ascii c) (toLowerCase s')
  end.

(** [hay.startsWith(needle)] *)
Definition startsWith (needle hay : string) : bool := String.prefix needle hay.

(** [hay.includes(needle)] *)
Fixpoint includes (needle hay : string) : bool :=
  (String.prefix needle hay ||
   match hay with
   | EmptyString => false
   | String _ hay' => includes needle hay'
   end)%bool.

(** [xs.join(sep)] on an array of integers. *)
Fixpoint join (sep : string) (xs : list Z) : string :=
  match xs with
  | [] => EmptyString
  | [x] => pretty x
  | x :: xs' => pretty x +:+ sep +:+ join sep xs'
  end.

(** [path.join(dir, name)] for a plain relative [name] and a [dir] that is
    already normal: the two are put together with a separator, and the
    normalisation that [path.join] does besides ([..] and empty segments, a
    trailing separator) is not modelled. *)
Definition path_join (dir name : string) : string := dir +:+ "/" +:+ name.

(** [path.dirname] of a path that does not end in ["/"]: everything before
    the last ["/"]. *)
Fixpoint dirname_aux (s : string) : option string :=
  match s with
  | EmptyString => None
  | String c s' =>
      match dirname_aux s' with
      | Some d => Some (String c d)
      | None => if Ascii.eqb c "/"%char then Some EmptyString else None
      end
  end.

Definition dirname (p : string) : string :=
  match dirname_aux p with
  | Some EmptyString => "/"
  | Some d => d
  | None => "."
  end.

(** ** Doubles

    A finite double is the rational it denotes, and an arithmetic operation
    on doubles is the exact operation followed by [round64], the rounding to
    the nearest double with ties to the even significand.  Overflow to
    [Infinity] has no place here: [round64] is the rounding of IEEE 754 for
    arguments below [2^1024] in magnitude. *)

(** Rounding to the nearest integer, ties to even. *)
Definition round_half_even (q : Q) : Z :=
  let f := Qfloor q in
  match (q - inject_Z f ?= 1 # 2)%Q with
  | Lt => f
  | Gt => f + 1
  | Eq => if Z.even f then f else f + 1
  end.

(** For [q > 0], the exponent [e] with [2^e <= q < 2^(e+1)]. *)
Definition ilog2 (q : Q) : Z :=
  let e := Z.log2 (Qnum q) - Z.log2 (Zpos (Qden q)) in
  if Qle_bool (Qpower 2 e) q then e else e - 1.

(** The nearest double: 53 significant bits, and the fixed spacing
    [2^-1074] of the subnormal numbers below [2^-1022]. *)
Definition round64 (q : Q) : Q :=
  if Qeq_bool q 0 then 0%Q
  else
    let e := Z.max (ilog2 (Qabs q)) (-1022) in
    let ulp := Qpower 2 (e - 52) in
    (inject_Z (round_half_even (q / ulp)) * ulp)%Q.

(** [a * b] and [a + b] on doubles. *)
Definition mul (a b : Q) : Q := round64 (a * b).
Definition add (a b : Q) : Q := round64 (a + b).


End Js.

(** ** Errors *)

(** A thrown JS error: its constructor name and its [message]. *)
Record Error := { name : string; message : string }.

Definition mkError (msg : string) : Error := {| name := "Error"; message := msg |}.
Definition mkTypeError (msg : string) : Error := {| name := "TypeError"; message := msg |}.

(** [undefined.prop] *)
Definition undefined_read (prop : string) : Error :=
  mkTypeError ("Cannot read properties of undefined (reading '" +:+ prop +:+ "')").

(** [path.join(undefined, ...)], [fs.readdir(undefined)] *)
Definition invalid_path_arg : Error :=
  mkTypeError "The 'path' argument must be of type string. Received undefined".

(** ** Data model *)

(** The file metadata object.  [totalChunks] and [chunkSize] are the two
    properties that [initializeChunkedUpload] adds with an object spread
    before it hands the metadata to the progress bus. *)
Module Metadata.
Record t := {
  fileName : string;
  size : Z;
  type : option string;
  toolResource : option string;
  agentId : option string;
  userId : option string;
  totalChunks : option Z;
  chunkSize : option Z
}.

(** [{ ...metadata, totalChunks, chunkSize }] *)
Definition spread_chunks (m : t) (total csize : Z) : t :=
  {| fileName := fileName m; size := size m; type := type m;
     toolResource := toolResource m; agentId := agentId m; userId := userId m;
     totalChunks := Some total; chunkSize := Some csize |}.
End Metadata.

(** The session object kept in [uploadSessions].  The first block of fields
    is the object literal of [startUploadSession]; the second block holds the
    properties that the bus assigns later; the third block holds the
    properties that the chunk manager reads and writes on whatever object
    [getSession] hands to it, and that the literal of [startUploadSession]
    does not have. *)
Module Session.
Record t := {
  userId : string;
  fileId : string;
  startTime : Z;
  status : string;
  progress : Js.num;
  metadata : Metadata.t;
  chunks : gmap Z bool;
  totalChunks : Z;
  completedChunks : Z;

  stage : option string;
  lastUpdate : option Z;
  endTime : option Z;
  error : option string;
  retryable : option bool;

  tempDir : option string;
  receivedChunks : option (gset Z);
  chunkHashes : option (gmap Z string);
  lastActivity : option Z
}.

Definition set_progress (s : t) (p : Js.num) (stg : string) (upd : Z) : t :=
  {| userId := userId s; fileId := fileId s; startTime := startTime s;
     status := status s; progress := p; metadata := metadata s;
     chunks := chunks s; totalChunks := totalChunks s;
     completedChunks := completedChunks s;
     stage := Some stg; lastUpdate := Some upd; endTime := endTime s;
     error := error s; retryable := retryable s;
     tempDir := tempDir s; receivedChunks := receivedChunks s;
     chunkHashes := chunkHashes s; lastActivity := lastActivity s |}.

Definition set_chunk_counters (s : t) (total : Z) (done : Z)
    (cs : gmap Z bool) : t :=
  {| userId := userId s; fileId := fileId s; startTime := startTime s;
     status := status s; progress := progress s; metadata := metadata s;
     chunks := cs; totalChunks := total; completedChunks := done;
     stage := stage s; lastUpdate := lastUpdate s; endTime := endTime s;
     error := error s; retryable := retryable s;
     tempDir := tempDir s; receivedChunks := receivedChunks s;
     chunkHashes := chunkHashes s; lastActivity := lastActivity s |}.

Definition set_completed (s : t) (t_end : Z) : t :=
  {| userId := userId s; fileId := fileId s; startTime := startTime s;
     status := "completed"; progress := Js.Fin 1; metadata := metadata s;
     chunks := chunks s; totalChunks := totalChunks s;
     completedChunks := completedChunks s;
     stage := stage s; lastUpdate := lastUpdate s; endTime := Some t_end;
     error := error s; retryable := retryable s;
     tempDir := tempDir s; receivedChunks := receivedChunks s;
     chunkHashes := chunkHashes s; lastActivity := lastActivity s |}.

Definition set_error (s : t) (msg : string) (r : bool) : t :=
  {| userId := userId s; fileId := fileId s; startTime := startTime s;
     status := "error"; progress := progress s; metadata := metadata s;
     chunks := chunks s; totalChunks := totalChunks s;
     completedChunks := completedChunks s;
     stage := stage s; lastUpdate := lastUpdate s; endTime := endTime s;
     error := Some msg; retryable := Some r;
     tempDir := tempDir s; receivedChunks := receivedChunks s;
     chunkHashes := chunkHashes s; lastActivity := lastActivity s |}.

Definition set_receivedChunks (s : t) (rc : gset Z) : t :=
  {| userId := userId s; fileId := fileId s; startTime := startTime s;
     status := status s; progress := progress s; metadata := metadata s;
     chunks := chunks s; totalChunks := totalChunks s;
     completedChunks := completedChunks s;
     stage := stage s; lastUpdate := lastUpdate s; endTime := endTime s;
     error := error s; retryable := retryable s;
     tempDir := tempDir s; receivedChunks := Some rc;
     chunkHashes := chunkHashes s; lastActivity := lastActivity s |}.

Definition set_chunkHashes (s : t) (h : gmap Z string) : t :=
  {| userId := userId s; fileId := fileId s; startTime := startTime s;
     status := status s; progress := progress s; metadata := metadata s;
     chunks := chunks s; totalChunks := totalChunks s;
     completedChunks := completedChunks s;
     stage := stage s; lastUpdate := lastUpdate s; endTime := endTime s;
     error := error s; retryable := retryable s;
     tempDir := tempDir s; receivedChunks := receivedChunks s;
     chunkHashes := Some h; lastActivity := lastActivity s |}.

Definition set_lastActivity (s : t) (a : Z) : t :=
  {| userId := userId s; fileId := fileId s; startTime := startTime s;
     status := status s; progress := progress s; metadata := metadata s;
     chunks := chunks s; totalChunks := totalChunks s;
     completedChunks := completedChunks s;
     stage := stage s; lastUpdate := lastUpdate s; endTime := endTime s;
     error := error s; retryable := retryable s;
     tempDir := tempDir s; receivedChunks := receivedChunks s;
     chunkHashes := chunkHashes s; lastActivity := Some a |}.
End Session.

(** The object literal that [initializeChunkedUpload] builds and returns. *)
Module UploadSession.
Record t := {
  fileId : string;
  userId : string;
  tempDir : string;
  metadata : Metadata.t;
  totalChunks : Z;
  receivedChunks : gset Z;
  chunkHashes : gmap Z string;
  startTime : Z;
  lastActivity : Z
}.
End UploadSession.

(** One entry of a pipeline's stage list ([buildStageList]). *)
Module Stage.
Record t := {
  name : string;
  weight : Q;
  description : string;
  status : string;
  startTime : option Z;
  endTime : option Z;
  duration : option Z;
  progress : Q;
  error : option string
}.
End Stage.

Module Pipeline.
Record HistoryEntry := {
  h_stage : string; h_startTime : option Z; h_endTime : Z; h_duration : Z }.
Record ErrorEntry := {
  e_stage : string; e_error : string; e_timestamp : Z; e_recoverable : bool }.
Record WarningEntry := {
  w_stage : string; w_warning : string; w_timestamp : Z }.

Record t := {
  fileId : string;
  userId : string;
  metadata : Metadata.t;
  stages : list Stage.t;
  currentStage : string;
  stageProgress : Q;
  overallProgress : Q;
  startTime : Z;
  stageStartTime : Z;
  stageHistory : list HistoryEntry;
  errors : list ErrorEntry;
  warnings : list WarningEntry;
  endTime : option Z;
  totalDuration : option Z
}.
End Pipeline.

(** The value kept per file in [retryAttempts] ([getRetryInfo]). *)
Module RetryInfo.
Record HistoryEntry := { h_error : string; h_type : string; h_timestamp : Z }.

Record t := {
  attempts : Z;
  startTime : Z;
  errorHistory : list HistoryEntry;
  lastError : option string;
  lastErrorTime : option Z
}.
End RetryInfo.

(** The part of the retry [context] that [executeRetry] looks at. *)
Record Context := { chunkedUpload : bool }.

(** ** Sockets, messages and effects *)

Inductive ReadyState := CONNECTING | OPEN | CLOSING | CLOSED.

(** What the environment decides about a socket object: its [readyState]
    and whether [ws.send] throws. *)
Record Socket := { readyState : ReadyState; send_throws : bool }.

(** The JSON messages of the push channel, by their [type] field. *)
Inductive Message :=
| upload_started (fileId : string) (metadata : Metadata.t)
| upload_progress (fileId : string) (progress : Js.num) (stage : string) (timestamp : Z)
| upload_completed (fileId : string) (duration : Z)
| upload_error (fileId : string) (error : string) (retryable : bool) (timestamp : Z)
| pong.

Inductive Callback :=
| DeleteUploadSession (fileId : string)
| DeletePipeline (fileId : string)
| ExecuteRetry (fileId : string) (context : Context).

Inductive Effect :=
| Send (ws : nat) (m : Message)            (* ws.send(JSON.stringify(m)) went through *)
| SetTimeout (cb : Callback) (ms : Z).

(** ** The world: the singletons' registries, the file system, the clock *)

Record World := {
  now : Z;
  sockets : gmap nat Socket;
  clients : gmap string (list nat);
  uploadSessions : gmap string Session.t;
  files : gmap string (list Byte.byte);
  dirs : gset string;
  pipelines : gmap string Pipeline.t;
  retryAttempts : gmap string RetryInfo.t
}.

Definition set_clients (w : World) (c : gmap string (list nat)) : World :=
  {| now := now w; sockets := sockets w; clients := c;
     uploadSessions := uploadSessions w; files := files w; dirs := dirs w;
     pipelines := pipelines w; retryAttempts := retryAttempts w |}.

Definition set_uploadSessions (w : World) (u : gmap string Session.t) : World :=
  {| now := now w; sockets := sockets w; clients := clients w;
     uploadSessions := u; files := files w; dirs := dirs w;
     pipelines := pipelines w; retryAttempts := retryAttempts w |}.

Definition set_files (w : World) (f : gmap string (list Byte.byte)) : World :=
  {| now := now w; sockets := sockets w; clients := clients w;
     uploadSessions := uploadSessions w; files := f; dirs := dirs w;
     pipelines := pipelines w; retryAttempts := retryAttempts w |}.

Definition set_dirs (w : World) (d : gset string) : World :=
  {| now := now w; sockets := sockets w; clients := clients w;
     uploadSessions := uploadSessions w; files := files w; dirs := d;
     pipelines := pipelines w; retryAttempts := retryAttempts w |}.

Definition set_pipelines (w : World) (p : gmap string Pipeline.t) : World :=
  {| now := now w; sockets := sockets w; clients := clients w;
     uploadSessions := uploadSessions w; files := files w; dirs := dirs w;
     pipelines := p; retryAttempts := retryAttempts w |}.

Definition set_retryAttempts (w : World) (r : gmap string RetryInfo.t) : World :=
  {| now := now w; sockets := sockets w; clients := clients w;
     uploadSessions := uploadSessions w; files := files w; dirs := dirs w;
     pipelines := pipelines w; retryAttempts := r |}.

(** The environment's moves: time passes, a socket changes state. *)
Definition set_now (w : World) (t : Z) : World :=
  {| now := t; sockets := sockets w; clients := clients w;
     uploadSessions := uploadSessions w; files := files w; dirs := dirs w;
     pipelines := pipelines w; retryAttempts := retryAttempts w |}.

Definition set_sockets (w : World) (s : gmap nat Socket) : World :=
  {| now := now w; sockets := s; clients := clients w;
     uploadSessions := uploadSessions w; files := files w; dirs := dirs w;
     pipelines := pipelines w; retryAttempts := retryAttempts w |}.

(** The state of a freshly started process. *)
Definition boot (t0 : Z) : World :=
  {| now := t0; sockets := ∅; clients := ∅; uploadSessions := ∅;
     files := ∅; dirs := ∅; pipelines := ∅; retryAttempts := ∅ |}.

(** ** The monad of method bodies

    A method runs from a world and ends either normally with a value or with
    a thrown error; in both cases the mutations and the effects made so far
    stay. *)

Inductive Completion (A : Type) :=
| Normal (a : A)
| Thrown (e : Error).
Arguments Normal {A} a.
Arguments Thrown {A} e.

Definition M (A : Type) : Type := World → Completion A * World * list Effect.

#[global] Instance M_ret : MRet M := λ A a w, (Normal a, w, []).

#[global] Instance M_bind : MBind M := λ A B f m w,
  match m w with
  | (Normal a, w1, es1) =>
      match f a w1 with
      | (r, w2, es2) => (r, w2, es1 ++ es2)
      end
  | (Thrown e, w1, es1) => (Thrown e, w1, es1)
  end.

Definition throw {A} (e : Error) : M A := λ w, (Thrown e, w, []).

(** [try { m } catch (error) { h error }] *)
Definition try_catch {A} (m : M A) (h : Error → M A) : M A := λ w,
  match m w with
  | (Normal a, w1, es1) => (Normal a, w1, es1)
  | (Thrown e, w1, es1) =>
      match h e w1 with
      | (r, w2, es2) => (r, w2, es1 ++ es2)
      end
  end.

Definition get : M World := λ w, (Normal w, w, []).
Definition gets {A} (f : World → A) : M A := λ w, (Normal (f w), w, []).
Definition modify (f : World → World) : M unit := λ w, (Normal tt, f w, []).
Definition tell (es : list Effect) : M unit := λ w, (Normal tt, w, es).

(** [for (const x of xs) { body x }] *)
Fixpoint for_each {A} (xs : list A) (body : A → M unit) : M unit :=
  match xs with
  | [] => mret tt
  | x :: xs' => body x ;; for_each xs' body
  end.

(** Projections of a run. *)
Definition completion {A} (r : Completion A * World * list Effect) : Completion A := r.1.1.
Definition world_of {A} (r : Completion A * World * list Effect) : World := r.1.2.
Definition effects_of {A} (r : Completion A * World * list Effect) : list Effect := r.2.

(** ** UploadProgressManager (the progress bus) *)

Module UploadProgress.

(** [ws.readyState === WebSocket.OPEN] and [ws.send] does not throw.  A
    socket the environment no longer knows counts as closed. *)
Definition send_ok (w : World) (ws : nat) : bool :=
  match sockets w !! ws with
  | Some s =>
      match readyState s with
      | OPEN => negb (send_throws s)
      | _ => false
      end
  | None => false
  end.

(** [handleConnection(ws, req)] with [req.user.id = userId]: the socket is
    added to the user's connection set. *)
Definition handleConnection (ws : nat) (userId : string) : M unit :=
  modify (λ w,
    let userClients := default [] (clients w !! userId) in
    set_clients w
      (<[userId := if decide (ws ∈ userClients) then userClients
                   else userClients ++ [ws]]> (clients w))).

(** The ['close'] handler that [handleConnection] installs on [ws]. *)
Definition on_close (ws : nat) (userId : string) : M unit :=
  modify (λ w,
    match clients w !! userId with
    | Some userClients =>
        let rest := filter (λ x, x ≠ ws) userClients in
        if decide (rest = []) then set_clients w (delete userId (clients w))
        else set_clients w (<[userId := rest]> (clients w))
    | None => w
    end).

(** The ['message'] handler, on a message whose [type] is ['ping']. *)
Definition on_ping (ws : nat) : M unit :=
  w ← get;
  if send_ok w ws then tell [Send ws pong] else mret tt.

Definition broadcastToUser (userId : string) (message : Message) : M unit :=
  w ← get;
  match clients w !! userId with
  | None => mret tt
  | Some userClients =>
      let deadConnections := filter (λ ws, send_ok w ws = false) userClients in
      tell (map (λ ws, Send ws message)
                (filter (λ ws, send_ok w ws = true) userClients)) ;;
      modify (λ w, set_clients w
        (<[userId := list_difference userClients deadConnections]> (clients w)))
  end.

Definition startUploadSession (fileId userId : string) (metadata : Metadata.t)
    : M unit :=
  modify (λ w, set_uploadSessions w
    (<[fileId :=
        {| Session.userId := userId;
           Session.fileId := fileId;
           Session.startTime := now w;
           Session.status := "uploading";
           Session.progress := Js.Fin 0;
           Session.metadata := metadata;
           Session.chunks := ∅;
           Session.totalChunks := 0;
           Session.completedChunks := 0;
           Session.stage := None; Session.lastUpdate := None;
           Session.endTime := None; Session.error := None;
           Session.retryable := None;
           Session.tempDir := None; Session.receivedChunks := None;
           Session.chunkHashes := None; Session.lastActivity := None |}]>
       (uploadSessions w))) ;;
  broadcastToUser userId (upload_started fileId metadata).

Definition updateProgress (fileId : string) (progress : Js.num) (stage : string)
    : M unit :=
  w ← get;
  match uploadSessions w !! fileId with
  | None => mret tt
  | Some session =>
      let p := Js.clamp01 progress in
      modify (λ w, set_uploadSessions w
        (<[fileId := Session.set_progress session p stage (now w)]>
           (uploadSessions w))) ;;
      broadcastToUser (Session.userId session)
        (upload_progress fileId p stage (now w))
  end.

Definition updateChunkProgress (fileId : string) (chunkIndex totalChunks : Z)
    (completed : bool) : M unit :=
  w ← get;
  match uploadSessions w !! fileId with
  | None => mret tt
  | Some session =>
      let session' :=
        if completed then
          Session.set_chunk_counters session totalChunks
            (Session.completedChunks session + 1)
            (<[chunkIndex := true]> (Session.chunks session))
        else
          Session.set_chunk_counters session totalChunks
            (Session.completedChunks session) (Session.chunks session) in
      modify (λ w, set_uploadSessions w (<[fileId := session']> (uploadSessions w))) ;;
      updateProgress fileId
        (Js.div (Session.completedChunks session') totalChunks) "uploading"
  end.

Definition completeUpload (fileId : string) : M unit :=
  w ← get;
  match uploadSessions w !! fileId with
  | None => mret tt
  | Some session =>
      modify (λ w, set_uploadSessions w
        (<[fileId := Session.set_completed session (now w)]> (uploadSessions w))) ;;
      broadcastToUser (Session.userId session)
        (upload_completed fileId (now w - Session.startTime session)) ;;
      tell [SetTimeout (DeleteUploadSession fileId) 30000]
  end.

Definition handleUploadError (fileId : string) (error : Error) (retryable : bool)
    : M unit :=
  w ← get;
  match uploadSessions w !! fileId with
  | None => mret tt
  | Some session =>
      modify (λ w, set_uploadSessions w
        (<[fileId := Session.set_error session (message error) retryable]>
           (uploadSessions w))) ;;
      broadcastToUser (Session.userId session)
        (upload_error fileId (message error) retryable (now w))
  end.

(** [this.uploadSessions.get(fileId) || null] *)
Definition getSessionStatus (fileId : string) : M (option Session.t) :=
  gets (λ w, uploadSessions w !! fileId).

(** The callback of the timer that [completeUpload] sets. *)
Definition deleteUploadSession (fileId : string) : M unit :=
  modify (λ w, set_uploadSessions w (delete fileId (uploadSessions w))).

Definition cleanupOldSessions : M unit :=
  modify (λ w,
    let maxAge := 24 * 60 * 60 * 1000 in
    set_uploadSessions w
      (filter (λ kv, ¬ (now w - Session.startTime kv.2 > maxAge))
              (uploadSessions w))).

End UploadProgress.

(** ** The environment of the process *)

(** What the code takes from outside: the MD5 digest in hexadecimal
    ([crypto.createHash('md5').update(data).digest('hex')]) and the
    [UPLOADS_PATH] variable. *)
Class Env := {
  md5_hex : list Byte.byte → string;
  UPLOADS_PATH : option string
}.

(** ** The file system ([fs.promises])

    Files are kept by path, directories as a set of paths.  [mkdir] records
    the directory itself (its ancestors are not tracked), and [readdir] lists
    the files of a directory (not its sub-directories). *)

Module Fs.

Definition enoent (path : string) : Error :=
  mkError ("ENOENT: no such file or directory '" +:+ path +:+ "'").
Definition enotempty (path : string) : Error :=
  mkError ("ENOTEMPTY: directory not empty '" +:+ path +:+ "'").

(** [fs.mkdir(dir, { recursive: true })] on a host where it succeeds.  Only
    [dir] itself is recorded; the ancestors that are created on the way are
    not, and no method looks for them. *)
Definition mkdir_recursive (dir : string) : M unit :=
  modify (λ w, set_dirs w ({[dir]} ∪ dirs w)).

Definition writeFile (path : string) (data : list Byte.byte) : M unit :=
  w ← get;
  if decide (Js.dirname path ∈ dirs w)
  then modify (λ w, set_files w (<[path := data]> (files w)))
  else throw (enoent path).

Definition readFile (path : string) : M (list Byte.byte) :=
  w ← get;
  match files w !! path with
  | Some data => mret data
  | None => throw (enoent path)
  end.

Definition access (path : string) : M unit :=
  w ← get;
  if decide (is_Some (files w !! path) ∨ path ∈ dirs w) then mret tt
  else throw (enoent path).

(** [(await fs.stat(path)).size] *)
Definition stat_size (path : string) : M Z :=
  w ← get;
  match files w !! path with
  | Some data => mret (Z.of_nat (length data))
  | None => throw (enoent path)
  end.

Fixpoint strip_prefix (p s : string) : option string :=
  match p, s with
  | EmptyString, _ => Some s
  | String a p', String b s' =>
      if Ascii.eqb a b then strip_prefix p' s' else None
  | String _ _, EmptyString => None
  end.

(** The name of [path] inside [dir], when [path] lies directly in it. *)
Definition entry_of (dir path : string) : option string :=
  match strip_prefix (dir +:+ "/") path with
  | Some nm => if Js.includes "/" nm then None else Some nm
  | None => None
  end.

Definition entries (w : World) (dir : string) : list string :=
  omap (λ kv, entry_of dir kv.1) (map_to_list (files w)).

Definition readdir (dir : string) : M (list string) :=
  w ← get;
  if decide (dir ∈ dirs w) then mret (entries w dir) else throw (enoent dir).

Definition unlink (path : string) : M unit :=
  w ← get;
  match files w !! path with
  | Some _ => modify (λ w, set_files w (delete path (files w)))
  | None => throw (enoent path)
  end.

Definition rmdir (dir : string) : M unit :=
  w ← get;
  if decide (dir ∈ dirs w) then
    if decide (entries w dir = []) then modify (λ w, set_dirs w (dirs w ∖ {[dir]}))
    else throw (enotempty dir)
  else throw (enoent dir).

(** [fs.createWriteStream(path)]: the file is created empty. *)
Definition createWriteStream (path : string) : M unit :=
  modify (λ w, set_files w (<[path := []]> (files w))).

(** [writeStream.write(data)]: the bytes are appended. *)
Definition stream_write (path : string) (data : list Byte.byte) : M unit :=
  modify (λ w, set_files w
    (<[path := default [] (files w !! path) ++ data]> (files w))).

End Fs.

(** ** ChunkedUploadManager *)

Module ChunkedUpload.

Definition chunkSize : Z := 1024 * 1024.
Definition maxChunks : Z := 1000.
Definition chunkTimeout : Z := 30 * 60 * 1000.

(** What [uploadChunk] returns: [{ success: true, alreadyReceived: true }]
    or [{ success: true, progress, receivedChunks, totalChunks }]. *)
Inductive ChunkResult :=
| AlreadyReceived
| Stored (progress : Js.num) (receivedChunks : Z) (totalChunks : Z).

(** What [assembleFile] returns: [{ success: true, filePath, size }]. *)
Record AssemblyResult := { filePath : string; size : Z }.

(** What [resumeUpload] returns. *)
Record ResumeInfo := {
  r_fileId : string;
  r_totalChunks : Z;
  r_receivedChunks : list Z;
  r_missingChunks : list Z;
  r_progress : Js.num
}.

Definition session_not_found : Error := mkError "Upload session not found".
Definition invalid_chunk_index : Error := mkError "Invalid chunk index".
Definition hash_mismatch (chunkIndex : Z) : Error :=
  mkError ("Chunk " +:+ pretty chunkIndex +:+ " hash mismatch").
Definition missing_chunks (missingChunks : list Z) : Error :=
  mkError ("Missing chunks: " +:+ Js.join ", " missingChunks).
Definition size_mismatch : Error := mkError "Assembled file size mismatch".
Definition file_too_large : Error :=
  mkError ("File too large. Maximum size: " +:+ pretty maxChunks +:+ "MB").

(** [`chunk_${i}`] *)
Definition chunk_name (i : Z) : string := "chunk_" +:+ pretty i.

(** [path.join(session.tempDir, `chunk_${i}`)] *)
Definition chunk_path (session : Session.t) (i : Z) : M string :=
  match Session.tempDir session with
  | Some dir => mret (Js.path_join dir (chunk_name i))
  | None => throw invalid_path_arg
  end.

(** The mutation of the session object that [getSession] returned: the
    object is the one stored in [uploadSessions]. *)
Definition mutate_session (fileId : string) (f : Session.t → Session.t) : M unit :=
  modify (λ w, set_uploadSessions w (alter f fileId (uploadSessions w))).

(** A truthy [chunkHash] argument. *)
Definition truthy (s : option string) : option string :=
  match s with
  | Some EmptyString => None
  | _ => s
  end.

Section Methods.
Context `{Env}.

Definition getSession (fileId : string) : M (option Session.t) :=
  UploadProgress.getSessionStatus fileId.

Definition initializeChunkedUpload (fileId userId : string) (metadata : Metadata.t)
    : M UploadSession.t :=
  let tempDir :=
    Js.path_join (Js.path_join (Js.path_join
      (default "uploads" (truthy UPLOADS_PATH)) "temp") "chunks") userId in
  Fs.mkdir_recursive tempDir ;;
  w ← get;
  let session :=
    {| UploadSession.fileId := fileId;
       UploadSession.userId := userId;
       UploadSession.tempDir := tempDir;
       UploadSession.metadata := metadata;
       UploadSession.totalChunks := Js.ceil_div (Metadata.size metadata) chunkSize;
       UploadSession.receivedChunks := ∅;
       UploadSession.chunkHashes := ∅;
       UploadSession.startTime := now w;
       UploadSession.lastActivity := now w |} in
  if decide (Metadata.size metadata > chunkSize * maxChunks)
  then throw file_too_large
  else
    UploadProgress.startUploadSession fileId userId
      (Metadata.spread_chunks metadata (UploadSession.totalChunks session) chunkSize) ;;
    mret session.

Definition uploadChunk (fileId : string) (chunkIndex : Z)
    (chunkData : list Byte.byte) (chunkHash : option string) : M ChunkResult :=
  s ← getSession fileId;
  match s with
  | None => throw session_not_found
  | Some session =>
      if decide (chunkIndex >= Session.totalChunks session ∨ chunkIndex < 0)
      then throw invalid_chunk_index
      else
        match Session.receivedChunks session with
        | None => throw (undefined_read "has")
        | Some received =>
            if decide (chunkIndex ∈ received) then mret AlreadyReceived
            else
              let actualHash := md5_hex chunkData in
              match truthy chunkHash with
              | Some expected =>
                  if decide (actualHash ≠ expected)
                  then throw (hash_mismatch chunkIndex) else mret tt
              | None => mret tt
              end ;;
              chunkPath ← chunk_path session chunkIndex;
              Fs.writeFile chunkPath chunkData ;;
              let received' := {[chunkIndex]} ∪ received in
              mutate_session fileId (λ s, Session.set_receivedChunks s received') ;;
              match Session.chunkHashes session with
              | None => throw (undefined_read "set")
              | Some hashes =>
                  mutate_session fileId (λ s,
                    Session.set_chunkHashes s (<[chunkIndex := actualHash]> hashes))
              end ;;
              w ← get;
              mutate_session fileId (λ s, Session.set_lastActivity s (now w)) ;;
              let progress :=
                Js.div (Z.of_nat (base.size received')) (Session.totalChunks session) in
              UploadProgress.updateChunkProgress fileId chunkIndex
                (Session.totalChunks session) true ;;
              mret (Stored progress (Z.of_nat (base.size received'))
                           (Session.totalChunks session))
        end
  end.


Definition cleanupChunks (session : Session.t) : M unit :=
  try_catch
    (match Session.tempDir session with
     | None => throw invalid_path_arg
     | Some dir =>
         names ← Fs.readdir dir;
         for_each names (λ file,
           if Js.startsWith "chunk_" file
           then Fs.unlink (Js.path_join dir file) else mret tt) ;;
         Fs.rmdir dir
     end)
    (λ _, mret tt).

(** The [catch] block of [assembleFile] destroys the stream and throws the
    error again, so the body is written without it. *)
Definition assembleFile (fileId finalPath : string) : M AssemblyResult :=
  s ← getSession fileId;
  match s with
  | None => throw session_not_found
  | Some session =>
      match Session.receivedChunks session with
      | None => throw (undefined_read "size")
      | Some received =>
          let total := Session.totalChunks session in
          if decide (Z.of_nat (base.size received) ≠ total)
          then throw (missing_chunks (filter (λ i, i ∉ received) (seqZ 0 total)))
          else
            Fs.mkdir_recursive (Js.dirname finalPath) ;;
            Fs.createWriteStream finalPath ;;
            for_each (seqZ 0 total) (λ i,
              chunkPath ← chunk_path session i;
              chunkData ← Fs.readFile chunkPath;
              Fs.stream_write finalPath chunkData ;;
              UploadProgress.updateProgress fileId (Js.div (i + 1) total)
                "assembling") ;;
            stats_size ← Fs.stat_size finalPath;
            (if decide (stats_size ≠ Metadata.size (Session.metadata session))
             then throw size_mismatch else mret tt) ;;
            cleanupChunks session ;;
            UploadProgress.completeUpload fileId ;;
            mret {| filePath := finalPath; size := stats_size |}
      end
  end.

(** One round of the loop of [resumeUpload]; [existingChunks] is the array
    built so far. *)
Definition resume_step (fileId : string) (session : Session.t)
    (existingChunks : list Z) (i : Z) : M (list Z) :=
  chunkPath ← chunk_path session i;
  found ← try_catch (Fs.access chunkPath ;; mret true) (λ _, mret false);
  if found : bool then
    try_catch
      (match Session.receivedChunks session with
       | None => throw (undefined_read "add")
       | Some _ =>
           mutate_session fileId (λ s,
             match Session.receivedChunks s with
             | Some received => Session.set_receivedChunks s ({[i]} ∪ received)
             | None => s
             end)
       end)
      (λ _, mret tt) ;;
    mret (existingChunks ++ [i])
  else mret existingChunks.

Fixpoint resume_loop (fileId : string) (session : Session.t)
    (indices : list Z) (existingChunks : list Z) : M (list Z) :=
  match indices with
  | [] => mret existingChunks
  | i :: rest =>
      existingChunks' ← resume_step fileId session existingChunks i;
      resume_loop fileId session rest existingChunks'
  end.

Definition resumeUpload (fileId : string) : M ResumeInfo :=
  s ← getSession fileId;
  match s with
  | None => throw session_not_found
  | Some session =>
      let total := Session.totalChunks session in
      existingChunks ← resume_loop fileId session (seqZ 0 total) [];
      mret {| r_fileId := fileId;
              r_totalChunks := total;
              r_receivedChunks := existingChunks;
              r_missingChunks := filter (λ i, i ∉ existingChunks) (seqZ 0 total);
              r_progress := Js.div (Z.of_nat (length existingChunks)) total |}
  end.

Definition cancelUpload (fileId : string) : M unit :=
  s ← getSession fileId;
  match s with
  | Some session =>
      cleanupChunks session ;;
      UploadProgress.handleUploadError fileId (mkError "Upload cancelled") false
  | None => mret tt
  end.

Fixpoint validate_loop (session : Session.t) (indices : list Z) : M bool :=
  match indices with
  | [] => mret true
  | i :: rest =>
      match Session.receivedChunks session with
      | None => throw (undefined_read "has")
      | Some received =>
          if decide (i ∉ received) then validate_loop session rest
          else
            chunkPath ← chunk_path session i;
            chunkData ← Fs.readFile chunkPath;
            let actualHash := md5_hex chunkData in
            match Session.chunkHashes session with
            | None => throw (undefined_read "get")
            | Some hashes =>
                match truthy (hashes !! i) with
                | Some expectedHash =>
                    if decide (actualHash ≠ expectedHash) then mret false
                    else validate_loop session rest
                | None => validate_loop session rest
                end
            end
      end
  end.

Definition validateChunks (fileId : string) : M bool :=
  s ← getSession fileId;
  match s with
  | None => mret false
  | Some session =>
      try_catch
        (validate_loop session (seqZ 0 (Session.totalChunks session)))
        (λ _, mret false)
  end.

End Methods.
End ChunkedUpload.

(** ** ProcessingPipelineManager *)

Module ProcessingPipeline.

(** [this.stages]: stage name to weight and description. *)
Definition stages_table (stageName : string) : option (Q * string) :=
  if decide (stageName = "upload") then Some (1 # 10, "File upload")%Q
  else if decide (stageName = "validation") then Some (5 # 100, "File validation")%Q
  else if decide (stageName = "processing") then Some (3 # 10, "File processing")%Q
  else if decide (stageName = "ocr") then Some (2 # 10, "OCR processing")%Q
  else if decide (stageName = "stt") then Some (15 # 100, "Speech-to-text")%Q
  else if decide (stageName = "embedding") then Some (1 # 10, "Vector embedding")%Q
  else if decide (stageName = "storage") then Some (5 # 100, "Storage save")%Q
  else if decide (stageName = "cleanup") then Some (5 # 100, "Cleanup")%Q
  else None.

Definition new_stage (stageName : string) : Stage.t :=
  {| Stage.name := stageName;
     Stage.weight := default (1 # 10)%Q (fst <$> stages_table stageName);
     Stage.description := default stageName (snd <$> stages_table stageName);
     Stage.status := "pending";
     Stage.startTime := None; Stage.endTime := None; Stage.duration := None;
     Stage.progress := 0%Q; Stage.error := None |}.

Definition buildStageList (requiredStages : list string) : list Stage.t :=
  let baseStages := ["upload"; "validation"; "processing"] in
  let allStages := baseStages ++ requiredStages ++ ["storage"; "cleanup"] in
  map new_stage allStages.

(** [pipeline.stages.find(s => s.name === stageName)] *)
Fixpoint find_stage (stageName : string) (stages : list Stage.t) : option Stage.t :=
  match stages with
  | [] => None
  | s :: rest =>
      if decide (Stage.name s = stageName) then Some s else find_stage stageName rest
  end.

(** Assignments to the properties of the stage object that [find] returned:
    the first stage of that name changes, in place. *)
Fixpoint update_stage (stageName : string) (f : Stage.t → Stage.t)
    (stages : list Stage.t) : list Stage.t :=
  match stages with
  | [] => []
  | s :: rest =>
      if decide (Stage.name s = stageName) then f s :: rest
      else s :: update_stage stageName f rest
  end.

Definition stage_running (now : Z) (s : Stage.t) : Stage.t :=
  {| Stage.name := Stage.name s; Stage.weight := Stage.weight s;
     Stage.description := Stage.description s;
     Stage.status := "running"; Stage.startTime := Some now;
     Stage.endTime := Stage.endTime s; Stage.duration := Stage.duration s;
     Stage.progress := 0%Q; Stage.error := Stage.error s |}.

Definition stage_progress (p : Q) (s : Stage.t) : Stage.t :=
  {| Stage.name := Stage.name s; Stage.weight := Stage.weight s;
     Stage.description := Stage.description s;
     Stage.status := Stage.status s; Stage.startTime := Stage.startTime s;
     Stage.endTime := Stage.endTime s; Stage.duration := Stage.duration s;
     Stage.progress := p; Stage.error := Stage.error s |}.

(** [endTime - startTime], where a [null] start time counts as [0]. *)
Definition elapsed (now : Z) (s : Stage.t) : Z := now - default 0 (Stage.startTime s).

Definition stage_completed (now : Z) (s : Stage.t) : Stage.t :=
  {| Stage.name := Stage.name s; Stage.weight := Stage.weight s;
     Stage.description := Stage.description s;
     Stage.status := "completed"; Stage.startTime := Stage.startTime s;
     Stage.endTime := Some now; Stage.duration := Some (elapsed now s);
     Stage.progress := 1%Q; Stage.error := Stage.error s |}.

Definition stage_error (now : Z) (msg : string) (s : Stage.t) : Stage.t :=
  {| Stage.name := Stage.name s; Stage.weight := Stage.weight s;
     Stage.description := Stage.description s;
     Stage.status := "error"; Stage.startTime := Stage.startTime s;
     Stage.endTime := Some now; Stage.duration := Some (elapsed now s);
     Stage.progress := Stage.progress s; Stage.error := Some msg |}.

(** The assignments to a pipeline object, one setter per group of
    properties that a method writes. *)
Definition with_stages (p : Pipeline.t) (stages : list Stage.t) : Pipeline.t :=
  {| Pipeline.fileId := Pipeline.fileId p; Pipeline.userId := Pipeline.userId p;
     Pipeline.metadata := Pipeline.metadata p; Pipeline.stages := stages;
     Pipeline.currentStage := Pipeline.currentStage p;
     Pipeline.stageProgress := Pipeline.stageProgress p;
     Pipeline.overallProgress := Pipeline.overallProgress p;
     Pipeline.startTime := Pipeline.startTime p;
     Pipeline.stageStartTime := Pipeline.stageStartTime p;
     Pipeline.stageHistory := Pipeline.stageHistory p;
     Pipeline.errors := Pipeline.errors p; Pipeline.warnings := Pipeline.warnings p;
     Pipeline.endTime := Pipeline.endTime p;
     Pipeline.totalDuration := Pipeline.totalDuration p |}.

Definition with_current (p : Pipeline.t) (stageName : string) (now : Z) : Pipeline.t :=
  {| Pipeline.fileId := Pipeline.fileId p; Pipeline.userId := Pipeline.userId p;
     Pipeline.metadata := Pipeline.metadata p; Pipeline.stages := Pipeline.stages p;
     Pipeline.currentStage := stageName;
     Pipeline.stageProgress := 0%Q;
     Pipeline.overallProgress := Pipeline.overallProgress p;
     Pipeline.startTime := Pipeline.startTime p;
     Pipeline.stageStartTime := now;
     Pipeline.stageHistory := Pipeline.stageHistory p;
     Pipeline.errors := Pipeline.errors p; Pipeline.warnings := Pipeline.warnings p;
     Pipeline.endTime := Pipeline.endTime p;
     Pipeline.totalDuration := Pipeline.totalDuration p |}.

Definition with_stageProgress (p : Pipeline.t) (q : Q) : Pipeline.t :=
  {| Pipeline.fileId := Pipeline.fileId p; Pipeline.userId := Pipeline.userId p;
     Pipeline.metadata := Pipeline.metadata p; Pipeline.stages := Pipeline.stages p;
     Pipeline.currentStage := Pipeline.currentStage p;
     Pipeline.stageProgress := q;
     Pipeline.overallProgress := Pipeline.overallProgress p;
     Pipeline.startTime := Pipeline.startTime p;
     Pipeline.stageStartTime := Pipeline.stageStartTime p;
     Pipeline.stageHistory := Pipeline.stageHistory p;
     Pipeline.errors := Pipeline.errors p; Pipeline.warnings := Pipeline.warnings p;
     Pipeline.endTime := Pipeline.endTime p;
     Pipeline.totalDuration := Pipeline.totalDuration p |}.

Definition with_overallProgress (p : Pipeline.t) (q : Q) : Pipeline.t :=
  {| Pipeline.fileId := Pipeline.fileId p; Pipeline.userId := Pipeline.userId p;
     Pipeline.metadata := Pipeline.metadata p; Pipeline.stages := Pipeline.stages p;
     Pipeline.currentStage := Pipeline.currentStage p;
     Pipeline.stageProgress := Pipeline.stageProgress p;
     Pipeline.overallProgress := q;
     Pipeline.startTime := Pipeline.startTime p;
     Pipeline.stageStartTime := Pipeline.stageStartTime p;
     Pipeline.stageHistory := Pipeline.stageHistory p;
     Pipeline.errors := Pipeline.errors p; Pipeline.warnings := Pipeline.warnings p;
     Pipeline.endTime := Pipeline.endTime p;
     Pipeline.totalDuration := Pipeline.totalDuration p |}.

Definition with_logs (p : Pipeline.t) (history : list Pipeline.HistoryEntry)
    (errors : list Pipeline.ErrorEntry) (warnings : list Pipeline.WarningEntry)
    : Pipeline.t :=
  {| Pipeline.fileId := Pipeline.fileId p; Pipeline.userId := Pipeline.userId p;
     Pipeline.metadata := Pipeline.metadata p; Pipeline.stages := Pipeline.stages p;
     Pipeline.currentStage := Pipeline.currentStage p;
     Pipeline.stageProgress := Pipeline.stageProgress p;
     Pipeline.overallProgress := Pipeline.overallProgress p;
     Pipeline.startTime := Pipeline.startTime p;
     Pipeline.stageStartTime := Pipeline.stageStartTime p;
     Pipeline.stageHistory := history;
     Pipeline.errors := errors; Pipeline.warnings := warnings;
     Pipeline.endTime := Pipeline.endTime p;
     Pipeline.totalDuration := Pipeline.totalDuration p |}.

Definition with_end (p : Pipeline.t) (now : Z) : Pipeline.t :=
  {| Pipeline.fileId := Pipeline.fileId p; Pipeline.userId := Pipeline.userId p;
     Pipeline.metadata := Pipeline.metadata p; Pipeline.stages := Pipeline.stages p;
     Pipeline.currentStage := Pipeline.currentStage p;
     Pipeline.stageProgress := Pipeline.stageProgress p;
     Pipeline.overallProgress := 1%Q;
     Pipeline.startTime := Pipeline.startTime p;
     Pipeline.stageStartTime := Pipeline.stageStartTime p;
     Pipeline.stageHistory := Pipeline.stageHistory p;
     Pipeline.errors := Pipeline.errors p; Pipeline.warnings := Pipeline.warnings p;
     Pipeline.endTime := Some now;
     Pipeline.totalDuration := Some (now - Pipeline.startTime p) |}.

(** The two accumulators of the loop of [updateOverallProgress]. *)
Fixpoint totalWeight (stages : list Stage.t) : Q :=
  match stages with
  | [] => 0
  | s :: rest => Stage.weight s + totalWeight rest
  end%Q.

Definition contribution (s : Stage.t) : Q :=
  if decide (Stage.status s = "completed") then Stage.weight s
  else if decide (Stage.status s = "running") then (Stage.weight s * Stage.progress s)%Q
  else 0%Q.

Fixpoint completedWeight (stages : list Stage.t) : Q :=
  match stages with
  | [] => 0
  | s :: rest => contribution s + completedWeight rest
  end%Q.

(** The value that [updateOverallProgress] assigns. *)
Definition aggregate (stages : list Stage.t) : Q :=
  if Qlt_le_dec 0 (totalWeight stages)
  then (completedWeight stages / totalWeight stages)%Q else 0%Q.

Definition updateOverallProgress (p : Pipeline.t) : Pipeline.t :=
  with_overallProgress p (aggregate (Pipeline.stages p)).

Definition put_pipeline (fileId : string) (p : Pipeline.t) : M unit :=
  modify (λ w, set_pipelines w (<[fileId := p]> (pipelines w))).

Definition initializePipeline (fileId userId : string) (metadata : Metadata.t)
    (requiredStages : list string) : M unit :=
  w ← get;
  put_pipeline fileId
    {| Pipeline.fileId := fileId; Pipeline.userId := userId;
       Pipeline.metadata := metadata;
       Pipeline.stages := buildStageList requiredStages;
       Pipeline.currentStage := "upload";
       Pipeline.stageProgress := 0%Q; Pipeline.overallProgress := 0%Q;
       Pipeline.startTime := now w; Pipeline.stageStartTime := now w;
       Pipeline.stageHistory := []; Pipeline.errors := []; Pipeline.warnings := [];
       Pipeline.endTime := None; Pipeline.totalDuration := None |} ;;
  UploadProgress.updateProgress fileId (Js.Fin 0) "pipeline_started".

Definition startStage (fileId stageName : string) : M unit :=
  w ← get;
  match pipelines w !! fileId with
  | None => mret tt
  | Some pipeline =>
      match find_stage stageName (Pipeline.stages pipeline) with
      | None => mret tt
      | Some stage =>
          let pipeline1 :=
            with_stages pipeline
              (update_stage stageName (stage_running (now w))
                 (Pipeline.stages pipeline)) in
          let pipeline2 := with_current pipeline1 stageName (now w) in
          let pipeline3 := updateOverallProgress pipeline2 in
          put_pipeline fileId pipeline3 ;;
          UploadProgress.updateProgress fileId
            (Js.Fin (Pipeline.overallProgress pipeline3)) stageName
      end
  end.

(** [progress] is a finite number here.  A caller that passes [NaN] gets it
    through [Math.min(1, Math.max(0, progress))] and into the three progress
    properties; the pipelines of this file do not hold that case. *)
Definition updateStageProgress (fileId stageName : string) (progress : Q) : M unit :=
  w ← get;
  match pipelines w !! fileId with
  | None => mret tt
  | Some pipeline =>
      match find_stage stageName (Pipeline.stages pipeline) with
      | None => mret tt
      | Some stage =>
          if decide (Stage.status stage ≠ "running") then mret tt
          else
            let p := Qmin 1 (Qmax 0 progress) in
            let pipeline1 :=
              with_stages pipeline
                (update_stage stageName (stage_progress p)
                   (Pipeline.stages pipeline)) in
            let pipeline2 := with_stageProgress pipeline1 p in
            let pipeline3 := updateOverallProgress pipeline2 in
            put_pipeline fileId pipeline3 ;;
            UploadProgress.updateProgress fileId
              (Js.Fin (Pipeline.overallProgress pipeline3)) stageName
      end
  end.

Definition completeStage (fileId stageName : string) : M unit :=
  w ← get;
  match pipelines w !! fileId with
  | None => mret tt
  | Some pipeline =>
      match find_stage stageName (Pipeline.stages pipeline) with
      | None => mret tt
      | Some stage =>
          let pipeline1 :=
            with_stages pipeline
              (update_stage stageName (stage_completed (now w))
                 (Pipeline.stages pipeline)) in
          let pipeline2 :=
            with_logs pipeline1
              (Pipeline.stageHistory pipeline1 ++
                 [{| Pipeline.h_stage := stageName;
                     Pipeline.h_startTime := Stage.startTime stage;
                     Pipeline.h_endTime := now w;
                     Pipeline.h_duration := elapsed (now w) stage |}])
              (Pipeline.errors pipeline1) (Pipeline.warnings pipeline1) in
          let pipeline3 := updateOverallProgress pipeline2 in
          put_pipeline fileId pipeline3 ;;
          UploadProgress.updateProgress fileId
            (Js.Fin (Pipeline.overallProgress pipeline3)) stageName
      end
  end.

Definition handleStageError (fileId stageName : string) (error : Error)
    (recoverable : bool) : M unit :=
  w ← get;
  match pipelines w !! fileId with
  | None => mret tt
  | Some pipeline =>
      match find_stage stageName (Pipeline.stages pipeline) with
      | None => mret tt
      | Some stage =>
          let pipeline1 :=
            with_stages pipeline
              (update_stage stageName (stage_error (now w) (message error))
                 (Pipeline.stages pipeline)) in
          let pipeline2 :=
            with_logs pipeline1 (Pipeline.stageHistory pipeline1)
              (Pipeline.errors pipeline1 ++
                 [{| Pipeline.e_stage := stageName;
                     Pipeline.e_error := message error;
                     Pipeline.e_timestamp := now w;
                     Pipeline.e_recoverable := recoverable |}])
              (Pipeline.warnings pipeline1) in
          put_pipeline fileId pipeline2 ;;
          UploadProgress.updateProgress fileId
            (Js.Fin (Pipeline.overallProgress pipeline2)) stageName
      end
  end.

Definition addWarning (fileId stageName warning : string) : M unit :=
  w ← get;
  match pipelines w !! fileId with
  | None => mret tt
  | Some pipeline =>
      put_pipeline fileId
        (with_logs pipeline (Pipeline.stageHistory pipeline) (Pipeline.errors pipeline)
           (Pipeline.warnings pipeline ++
              [{| Pipeline.w_stage := stageName; Pipeline.w_warning := warning;
                  Pipeline.w_timestamp := now w |}]))
  end.

Definition completePipeline (fileId : string) : M unit :=
  w ← get;
  match pipelines w !! fileId with
  | None => mret tt
  | Some pipeline =>
      put_pipeline fileId (with_end pipeline (now w)) ;;
      UploadProgress.completeUpload fileId ;;
      tell [SetTimeout (DeletePipeline fileId) 60000]
  end.

Definition getPipelineStatus (fileId : string) : M (option Pipeline.t) :=
  gets (λ w, pipelines w !! fileId).

(** The callback of the timer that [completePipeline] sets. *)
Definition deletePipeline (fileId : string) : M unit :=
  modify (λ w, set_pipelines w (delete fileId (pipelines w))).

Definition cleanupOldPipelines : M unit :=
  modify (λ w,
    let maxAge := 24 * 60 * 60 * 1000 in
    set_pipelines w
      (filter (λ kv, ¬ (now w - Pipeline.startTime kv.2 > maxAge)) (pipelines w))).

End ProcessingPipeline.

(** ** ErrorRecoveryManager *)

Module ErrorRecovery.

Definition maxRetries : Z := 3.
Definition baseDelay : Z := 1000.
Definition maxDelay : Z := 30000.
(** [0.1]: the double nearest to one tenth. *)
Definition jitter : Q := Js.round64 (1 # 10).

(** What [handleError] returns: the retry action or the failure action. *)
Inductive Action :=
| Retry (delay attempt maxAttempts : Z) (errorType : string)
| Failure (attempts : Z) (error : string)
          (errorHistory : list RetryInfo.HistoryEntry).

Definition is_retry (a : Action) : bool :=
  match a with Retry _ _ _ _ => true | Failure _ _ _ => false end.

Definition categorizeError (error : Error) : string :=
  let message := Js.toLowerCase (message error) in
  if (Js.includes "network" message || Js.includes "timeout" message)%bool
  then "network"
  else if (Js.includes "size" message || Js.includes "limit" message)%bool
  then "size"
  else if (Js.includes "format" message || Js.includes "type" message)%bool
  then "format"
  else if (Js.includes "permission" message || Js.includes "access" message)%bool
  then "permission"
  else if (Js.includes "storage" message || Js.includes "disk" message)%bool
  then "storage"
  else if (Js.includes "authentication" message || Js.includes "auth" message)%bool
  then "auth"
  else "unknown".

Definition isRetryableError (error : Error) (errorType : string) : bool :=
  let nonRetryableTypes := ["format"; "permission"; "auth"] in
  let nonRetryableMessages :=
    ["unsupported file type"; "file too large"; "invalid file format";
     "permission denied"; "authentication failed"] in
  if bool_decide (errorType ∈ nonRetryableTypes) then false
  else
    let message := Js.toLowerCase (message error) in
    negb (existsb (λ nonRetryable, Js.includes nonRetryable message)
                  nonRetryableMessages).

(** [Math.min(this.baseDelay * Math.pow(2, attempt - 1), this.maxDelay)].
    The power of two and its product with [1000] are exact in doubles until
    the product overflows to [Infinity], where the minimum is [maxDelay] as
    it is here. *)
Definition cappedDelay (attempt : Z) : Q :=
  Qmin (inject_Z baseDelay * Qpower 2 (attempt - 1)) (inject_Z maxDelay).

(** [random] is the value that [Math.random()] returns, in [[0, 1)].  The
    two products and the sum are operations on doubles, taken from left to
    right. *)
Definition calculateBackoffDelay (attempt : Z) (random : Q) : Z :=
  let delay := cappedDelay attempt in
  let jitterAmount := Js.mul (Js.mul delay jitter) random in
  Qfloor (Js.add delay jitterAmount).

Definition getRetryInfo (fileId : string) : M RetryInfo.t :=
  w ← get;
  match retryAttempts w !! fileId with
  | Some info => mret info
  | None =>
      let info :=
        {| RetryInfo.attempts := 0; RetryInfo.startTime := now w;
           RetryInfo.errorHistory := []; RetryInfo.lastError := None;
           RetryInfo.lastErrorTime := None |} in
      modify (λ w, set_retryAttempts w (<[fileId := info]> (retryAttempts w))) ;;
      mret info
  end.

Definition cleanup (fileId : string) : M unit :=
  modify (λ w, set_retryAttempts w (delete fileId (retryAttempts w))).

Definition handleFinalFailure (fileId : string) (error : Error)
    (retryInfo : RetryInfo.t) : M Action :=
  cleanup fileId ;;
  UploadProgress.handleUploadError fileId error false ;;
  mret (Failure (RetryInfo.attempts retryInfo) (message error)
                (RetryInfo.errorHistory retryInfo)).

(** [random] is the draw of [Math.random()] that [calculateBackoffDelay]
    makes when the retry branch is taken. *)
Definition handleError (fileId : string) (error : Error) (context : Context)
    (random : Q) : M Action :=
  retryInfo0 ← getRetryInfo fileId;
  let errorType := categorizeError error in
  w ← get;
  let retryInfo :=
    {| RetryInfo.attempts := RetryInfo.attempts retryInfo0 + 1;
       RetryInfo.startTime := RetryInfo.startTime retryInfo0;
       RetryInfo.errorHistory :=
         RetryInfo.errorHistory retryInfo0 ++
           [{| RetryInfo.h_error := message error; RetryInfo.h_type := errorType;
               RetryInfo.h_timestamp := now w |}];
       RetryInfo.lastError := Some (message error);
       RetryInfo.lastErrorTime := Some (now w) |} in
  modify (λ w, set_retryAttempts w (<[fileId := retryInfo]> (retryAttempts w))) ;;
  let retryable := isRetryableError error errorType in
  if (negb retryable || bool_decide (RetryInfo.attempts retryInfo >= maxRetries))%bool
  then handleFinalFailure fileId error retryInfo
  else
    let delay := calculateBackoffDelay (RetryInfo.attempts retryInfo) random in
    UploadProgress.handleUploadError fileId error retryable ;;
    tell [SetTimeout (ExecuteRetry fileId context) delay] ;;
    mret (Retry delay (RetryInfo.attempts retryInfo) maxRetries errorType).

Section Retry.
Context `{Env}.

Definition retryChunkedUpload (fileId : string) : M unit :=
  resumeInfo ← ChunkedUpload.resumeUpload fileId;
  if decide (ChunkedUpload.r_missingChunks resumeInfo ≠ [])
  then UploadProgress.updateProgress fileId
         (ChunkedUpload.r_progress resumeInfo) "resuming"
  else mret tt.

Definition retryRegularUpload (fileId : string) : M unit :=
  UploadProgress.updateProgress fileId (Js.Fin 0) "retrying".

(** The callback of the timer that [handleError] sets; [random] is for the
    [handleError] call of its [catch] block. *)
Definition executeRetry (fileId : string) (context : Context) (random : Q)
    : M unit :=
  try_catch
    (_ ← getRetryInfo fileId;
     UploadProgress.updateProgress fileId (Js.Fin 0) "retrying" ;;
     if chunkedUpload context then retryChunkedUpload fileId
     else retryRegularUpload fileId)
    (λ error, _ ← handleError fileId error context random; mret tt).

End Retry.
End ErrorRecovery.

(** ** The process as a transition system

    A [Call] is one entry into the code: a method that a route handler or
    another service calls, a socket event, a timer callback, or a move of the
    environment.  Methods run to completion one after the other; what a
    method returns or throws goes to its caller and is dropped here. *)

Inductive Call :=
(* ChunkedUploadManager *)
| InitializeChunkedUpload (fileId userId : string) (metadata : Metadata.t)
| UploadChunk (fileId : string) (chunkIndex : Z) (chunkData : list Byte.byte)
              (chunkHash : option string)
| AssembleFile (fileId finalPath : string)
| ResumeUpload (fileId : string)
| CancelUpload (fileId : string)
| ValidateChunks (fileId : string)
(* ProcessingPipelineManager *)
| InitializePipeline (fileId userId : string) (metadata : Metadata.t)
                     (requiredStages : list string)
| StartStage (fileId stageName : string)
| UpdateStageProgress (fileId stageName : string) (progress : Q)
| CompleteStage (fileId stageName : string)
| HandleStageError (fileId stageName : string) (error : Error) (recoverable : bool)
| AddWarning (fileId stageName warning : string)
| CompletePipeline (fileId : string)
| CleanupOldPipelines
(* ErrorRecoveryManager *)
| HandleError (fileId : string) (error : Error) (context : Context) (random : Q)
(* UploadProgressManager *)
| StartUploadSession (fileId userId : string) (metadata : Metadata.t)
| UpdateProgress (fileId : string) (progress : Js.num) (stage : string)
| CompleteUpload (fileId : string)
| HandleUploadError (fileId : string) (error : Error) (retryable : bool)
| CleanupOldSessions
(* socket events *)
| Connection (ws : nat) (userId : string)
| Close (ws : nat) (userId : string)
| Ping (ws : nat)
(* timer callbacks *)
| TimerDeleteUploadSession (fileId : string)
| TimerDeletePipeline (fileId : string)
| TimerExecuteRetry (fileId : string) (context : Context) (random : Q)
(* environment *)
| ClockAdvance (t : Z)
| SocketChange (ws : nat) (s : Socket).

Definition ignore {A} (m : M A) : M unit := _ ← m; mret tt.

Section Process.
Context `{Env}.

Definition exec (c : Call) : M unit :=
match c with
| InitializeChunkedUpload f u md => ignore (ChunkedUpload.initializeChunkedUpload f u md)
| UploadChunk f i data h => ignore (ChunkedUpload.uploadChunk f i data h)
| AssembleFile f out => ignore (ChunkedUpload.assembleFile f out)
| ResumeUpload f => ignore (ChunkedUpload.resumeUpload f)
| CancelUpload f => ChunkedUpload.cancelUpload f
| ValidateChunks f => ignore (ChunkedUpload.validateChunks f)
| InitializePipeline f u md req => ProcessingPipeline.initializePipeline f u md req
| StartStage f s => ProcessingPipeline.startStage f s
| UpdateStageProgress f s p => ProcessingPipeline.updateStageProgress f s p
| CompleteStage f s => ProcessingPipeline.completeStage f s
| HandleStageError f s e r => ProcessingPipeline.handleStageError f s e r
| AddWarning f s msg => ProcessingPipeline.addWarning f s msg
| CompletePipeline f => ProcessingPipeline.completePipeline f
| CleanupOldPipelines => ProcessingPipeline.cleanupOldPipelines
| HandleError f e ctx rnd => ignore (ErrorRecovery.handleError f e ctx rnd)
| StartUploadSession f u md => UploadProgress.startUploadSession f u md
| UpdateProgress f p s => UploadProgress.updateProgress f p s
| CompleteUpload f => UploadProgress.completeUpload f
| HandleUploadError f e r => UploadProgress.handleUploadError f e r
| CleanupOldSessions => UploadProgress.cleanupOldSessions
| Connection ws u => UploadProgress.handleConnection ws u
| Close ws u => UploadProgress.on_close ws u
| Ping ws => UploadProgress.on_ping ws
| TimerDeleteUploadSession f => UploadProgress.deleteUploadSession f
| TimerDeletePipeline f => ProcessingPipeline.deletePipeline f
| TimerExecuteRetry f ctx rnd => ErrorRecovery.executeRetry f ctx rnd
| ClockAdvance t => modify (λ w, set_now w t)
| SocketChange ws s => modify (λ w, set_sockets w (<[ws := s]> (sockets w)))
end.

(** The world after a call, and after a sequence of calls. *)
Definition after (c : Call) (w : World) : World := world_of (exec c w).

Definition run (cs : list Call) (w : World) : World := foldl (λ w c, after c w) w cs.

(** The effects of a sequence of calls, in order. *)
Fixpoint trace (cs : list Call) (w : World) : list Effect :=
match cs with
| [] => []
| c :: cs' => effects_of (exec c w) ++ trace cs' (after c w)
end.

End Process.

(** * Around the four managers *)

(** ** ErrorRecoveryManager.getStats *)

Module RecoveryStats.

Record Stats := {
  activeRetries : Z;
  totalAttempts : Z;
  successfulRetries : Z;
  failedRetries : Z
}.

(** One round of the loop of [getStats] over [retryAttempts.entries()]. *)
Definition count (now : Z) (stats : Stats) (retryInfo : RetryInfo.t) : Stats :=
  let total := totalAttempts stats + RetryInfo.attempts retryInfo in
  if decide (RetryInfo.attempts retryInfo > 0) then
    let timeSinceLastError := now - default 0 (RetryInfo.lastErrorTime retryInfo) in
    if decide (timeSinceLastError > 60000) then
      {| activeRetries := activeRetries stats; totalAttempts := total;
         successfulRetries := successfulRetries stats + 1;
         failedRetries := failedRetries stats |}
    else
      {| activeRetries := activeRetries stats; totalAttempts := total;
         successfulRetries := successfulRetries stats;
         failedRetries := failedRetries stats + 1 |}
  else
    {| activeRetries := activeRetries stats; totalAttempts := total;
       successfulRetries := successfulRetries stats;
       failedRetries := failedRetries stats |}.

(** The sums do not depend on the order in which the entries are visited;
    the entries are taken in the order of [map_to_list]. *)
Definition getStats : M Stats :=
  gets (λ w,
    foldl (λ stats entry, count (now w) stats entry.2)
      {| activeRetries := Z.of_nat (size (retryAttempts w)); totalAttempts := 0;
         successfulRetries := 0; failedRetries := 0 |}
      (map_to_list (retryAttempts w))).

End RecoveryStats.

(** ** More of JavaScript's strings

    Strings hold ASCII characters here, as everywhere in this file. *)

Module JsString.

(** [s.split(sep)] for a non-empty separator: [cur] is the piece being
    read, [skip] counts the characters of a separator just found that are
    still to be passed over. *)
Fixpoint split_go (sep s cur : string) (skip : nat) : list string :=
  match s with
  | EmptyString => [cur]
  | String c s' =>
      match skip with
      | S k => split_go sep s' cur k
      | O =>
          if String.prefix sep s
          then cur :: split_go sep s' EmptyString (String.length sep - 1)
          else split_go sep s' (cur +:+ String c EmptyString) 0
      end
  end.

Definition split (sep s : string) : list string := split_go sep s EmptyString 0.

(** The white space and line terminators that [parseInt] skips. *)
Definition is_space (c : ascii) : bool :=
  let n := nat_of_ascii c in
  ((Nat.leb 9 n && Nat.leb n 13) || Nat.eqb n 32)%bool.

Fixpoint trimStart (s : string) : string :=
  match s with
  | EmptyString => EmptyString
  | String c s' => if is_space c then trimStart s' else s
  end.

(** The value of a digit: [0-9], [a-z], [A-Z]. *)
Definition digit_value (c : ascii) : option Z :=
  let n := nat_of_ascii c in
  if (Nat.leb 48 n && Nat.leb n 57)%bool then Some (Z.of_nat n - 48)
  else if (Nat.leb 97 n && Nat.leb n 122)%bool then Some (Z.of_nat n - 87)
  else if (Nat.leb 65 n && Nat.leb n 90)%bool then Some (Z.of_nat n - 55)
  else None.

(** The value of the longest prefix of [s] made of digits of the radix;
    [acc] is the value read so far, [None] before the first digit. *)
Fixpoint digits (radix : Z) (s : string) (acc : option Z) : option Z :=
  match s with
  | EmptyString => acc
  | String c s' =>
      match digit_value c with
      | Some d =>
          if decide (d < radix) then digits radix s' (Some (default 0 acc * radix + d))
          else acc
      | None => acc
      end
  end.

(** [parseInt(s)] without a radix; [None] is [NaN].  The value is kept
    exact: it is the value of the built-in for numerals below [2^53], above
    which a double rounds.  Of the white space that the built-in skips, only
    the ASCII characters occur in the strings of this file. *)
Definition parseInt (s : string) : option Z :=
  let s := trimStart s in
  let '(sign, s) :=
    match s with
    | String "-" s' => (-1, s')
    | String "+" s' => (1, s')
    | _ => (1, s)
    end in
  let '(radix, s) :=
    match s with
    | String "0" (String "x" s') => (16, s')
    | String "0" (String "X" s') => (16, s')
    | _ => (10, s)
    end in
  (λ v, sign * v) <$> digits radix s None.

End JsString.

(** ** The authentication of a socket ([middleware/auth.js]) *)

Module Auth.

(** The decoded payload of a token, as far as the code reads it. *)
Record Payload := {
  id : option string;
  username : option string;
  email : option string;
  role : option string
}.

(** The user object that [authenticateWebSocket] returns. *)
Record User := {
  user_id : string;
  user_username : option string;
  user_email : option string;
  user_role : option string
}.

(** [jwt.verify(token, process.env.JWT_SECRET)]: the decoded payload, or
    the error that the library throws. *)
Class Jwt := { jwt_verify : string → Completion Payload }.

Definition no_token : Error := mkError "No token provided".
Definition invalid_payload : Error := mkError "Invalid token payload".
Definition authentication_failed : Error := mkError "Authentication failed".

Section Methods.
Context `{Jwt}.

Definition authenticateWebSocket (token : option string) : M User :=
  try_catch
    (match ChunkedUpload.truthy token with
     | None => throw no_token
     | Some token =>
         match jwt_verify token with
         | Thrown error => throw error
         | Normal decoded =>
             match ChunkedUpload.truthy (id decoded) with
             | None => throw invalid_payload
             | Some decoded_id =>
                 mret {| user_id := decoded_id;
                         user_username := username decoded;
                         user_email := email decoded;
                         user_role := role decoded |}
             end
         end
     end)
    (λ _, throw authentication_failed).

(** [verifyClient(info)] of the progress bus, on [info.req.url].  The
    method is [async]: what it returns is a promise, and this is the value
    that the promise resolves to, with [info.req.user] as it is by then.  A
    caller that does not await the promise sees neither. *)
Definition verifyClient (url : string) : M (bool * option User) :=
  try_catch
    (match ChunkedUpload.truthy (JsString.split "token=" url !! 1%nat) with
     | None => mret (false, None)
     | Some token =>
         user ← authenticateWebSocket (Some token);
         mret (true, Some user)
     end)
    (λ _, mret (false, None)).

End Methods.
End Auth.

(** ** The routes of the chunked upload ([/chunked/...])

    A handler is written on the parts of the request that it reads; what it
    passes to [res.status(...).json(...)] is its result.  The middlewares
    before it ([requireJwtAuth], [configMiddleware], [multer]) have let the
    request through, and [req.body] is an object.  The [/init] route is not
    here: it takes [parseInt(fileSize)], which may be [NaN], as the size of
    the metadata, and the metadata of this file hold an integer. *)

Module Routes.

Inductive Body :=
| error_body (error : string) (message : option string)
             (recovery : option ErrorRecovery.Action)
| chunk_body (result : ChunkedUpload.ChunkResult)
| resume_body (resumeInfo : ChunkedUpload.ResumeInfo)
| assembled_body (result : ChunkedUpload.AssemblyResult)
| cancelled_body
| status_body (session : option Session.t) (pipeline : option Pipeline.t)
| valid_body (valid : bool).

Record Response := { status : Z; body : Body }.

(** [res.json(body)] and [res.status(status).json(body)] *)
Definition json (b : Body) : Response := {| status := 200; body := b |}.
Definition status_json (st : Z) (b : Body) : Response := {| status := st; body := b |}.

(** The error of a name that is not in scope. *)
Definition reference_error (name : string) : Error :=
  {| name := "ReferenceError"; message := name +:+ " is not defined" |}.

Section Handlers.
Context `{Env}.

(** [POST /upload/:fileId/:chunkIndex]; [chunk] is [req.file?.buffer]. *)
Definition post_upload (fileId chunkIndex : string) (chunkHash : option string)
    (chunk : option (list Byte.byte)) (random : Q) : M Response :=
  try_catch
    (match chunk with
     | None => mret (status_json 400 (error_body "No chunk data provided" None None))
     | Some chunkData =>
         match JsString.parseInt chunkIndex with
         | None => mret (status_json 400 (error_body "Invalid chunk index" None None))
         | Some chunkIndexNum =>
             if decide (chunkIndexNum < 0)
             then mret (status_json 400 (error_body "Invalid chunk index" None None))
             else
               result ← ChunkedUpload.uploadChunk fileId chunkIndexNum chunkData
                          chunkHash;
               mret (json (chunk_body result))
         end
     end)
    (λ error,
       recoveryAction ← ErrorRecovery.handleError fileId error
                          {| chunkedUpload := true |} random;
       mret (status_json 500
               (error_body "Chunk upload failed" (Some (message error))
                  (Some recoveryAction)))).

(** [GET /resume/:fileId] *)
Definition get_resume (fileId : string) : M Response :=
  try_catch
    (resumeInfo ← ChunkedUpload.resumeUpload fileId;
     mret (json (resume_body resumeInfo)))
    (λ error,
       mret (status_json 500
               (error_body "Failed to resume upload" (Some (message error)) None))).

(** [POST /complete/:fileId].  In its [catch] block the handler passes
    [fileId] to [handleError]; the name is declared with [const] inside the
    [try] block and is not in scope there, so evaluating the argument
    throws a [ReferenceError] and [handleError] is not called. *)
Definition post_complete (fileId : string) (finalPath toolResource : option string)
    : M Response :=
  try_catch
    (match ChunkedUpload.truthy finalPath with
     | None => mret (status_json 400 (error_body "Final path required" None None))
     | Some finalPath =>
         ProcessingPipeline.startStage fileId "processing" ;;
         result ← ChunkedUpload.assembleFile fileId finalPath;
         ProcessingPipeline.completeStage fileId "processing" ;;
         (if decide (toolResource = Some "ocr")
          then ProcessingPipeline.startStage fileId "ocr"
          else if decide (toolResource = Some "file_search")
               then ProcessingPipeline.startStage fileId "embedding"
               else mret tt) ;;
         mret (json (assembled_body result))
     end)
    (λ error, throw (reference_error "fileId")).

(** [DELETE /:fileId] *)
Definition delete_upload (fileId : string) : M Response :=
  try_catch
    (ChunkedUpload.cancelUpload fileId ;; mret (json cancelled_body))
    (λ error,
       mret (status_json 500
               (error_body "Failed to cancel upload" (Some (message error)) None))).

(** [GET /status/:fileId] *)
Definition get_status (fileId : string) : M Response :=
  try_catch
    (session ← ChunkedUpload.getSession fileId;
     pipelineStatus ← ProcessingPipeline.getPipelineStatus fileId;
     match session, pipelineStatus with
     | None, None =>
         mret (status_json 404 (error_body "Upload session not found" None None))
     | _, _ => mret (json (status_body session pipelineStatus))
     end)
    (λ error,
       mret (status_json 500
               (error_body "Failed to get upload status" (Some (message error)) None))).

(** [POST /validate/:fileId] *)
Definition post_validate (fileId : string) : M Response :=
  try_catch
    (isValid ← ChunkedUpload.validateChunks fileId;
     mret (json (valid_body isValid)))
    (λ error,
       mret (status_json 500
               (error_body "Failed to validate chunks" (Some (message error)) None))).

End Handlers.
End Routes.

(** * Vocabulary of the statements

    The predicates, measures and sample inputs that the theorems below are
    stated with. *)

(** ** Runs of a method body *)

(** [wp m w Q] says that the run of [m] from [w] ends in a completion, a
    world and a list of effects that satisfy [Q]. *)
Definition wp {A} (m : M A) (w : World)
    (Q : Completion A → World → list Effect → Prop) : Prop :=
  Q (completion (m w)) (world_of (m w)) (effects_of (m w)).

(** [I] is an invariant of worlds, [R] relates the world before a step to
    the world after it, and [E w e] says that the effect [e] is in order as
    seen from the world [w].  A body is [ok] from [w] when it keeps [I],
    moves along [R] and only makes effects that are in order in the world it
    leaves. *)
Definition ok_at {A} (I : World → Prop) (R : World → World → Prop)
    (E : World → Effect → Prop) (m : M A) (w : World) : Prop :=
  I w →
  I (world_of (m w)) ∧ R w (world_of (m w)) ∧
  Forall (E (world_of (m w))) (effects_of (m w)).

Definition ok {A} (I : World → Prop) (R : World → World → Prop)
    (E : World → Effect → Prop) (m : M A) : Prop :=
  ∀ w, ok_at I R E m w.

(** The same, for a body whose steps need not be related by [R]. *)
Definition keeps {A} (I : World → Prop) (E : World → Effect → Prop) (m : M A) : Prop :=
  ∀ w, I w →
    I (world_of (m w)) ∧ Forall (E (world_of (m w))) (effects_of (m w)).

Definition any_step : World → World → Prop := λ _ _, True.
Definition any_effect : World → Effect → Prop := λ _ _, True.

(** An assignment to a session object that leaves its [userId] alone. *)
Definition keeps_owner (g : Session.t → Session.t) : Prop :=
  ∀ s, Session.userId (g s) = Session.userId s.

(** A ['connection'] event is admissible when the socket may be registered
    for the user; every other call is. *)
Definition admissible (may_connect : nat → string → Prop) (c : Call) : Prop :=
  match c with
  | Connection ws u => may_connect ws u
  | _ => True
  end.

(** ** Session objects *)

(** The properties of the object literal of [startUploadSession] that the
    chunk manager runs into: [totalChunks] is [0], and there is no
    [receivedChunks], no [chunkHashes], no [tempDir]. *)
Definition bus_record (s : Session.t) : Prop :=
  Session.totalChunks s = 0 ∧ Session.receivedChunks s = None ∧
  Session.chunkHashes s = None ∧ Session.tempDir s = None.

Definition bus_records (w : World) : Prop :=
  ∀ f s, uploadSessions w !! f = Some s → bus_record s.

Section Literal.
Context `{Env}.

(** [path.join(process.env.UPLOADS_PATH || 'uploads', 'temp', 'chunks', userId)] *)
Definition tempDir_of (userId : string) : string :=
  Js.path_join (Js.path_join (Js.path_join
    (default "uploads" (ChunkedUpload.truthy UPLOADS_PATH)) "temp") "chunks") userId.

(** The session object literal of [initializeChunkedUpload]. *)
Definition session_literal (fileId userId : string) (metadata : Metadata.t) (t : Z)
    : UploadSession.t :=
  {| UploadSession.fileId := fileId;
     UploadSession.userId := userId;
     UploadSession.tempDir := tempDir_of userId;
     UploadSession.metadata := metadata;
     UploadSession.totalChunks :=
       Js.ceil_div (Metadata.size metadata) ChunkedUpload.chunkSize;
     UploadSession.receivedChunks := ∅;
     UploadSession.chunkHashes := ∅;
     UploadSession.startTime := t;
     UploadSession.lastActivity := t |}.

End Literal.

(** The session object after the three assignments and the progress update
    of an [uploadChunk] call that stored its chunk. *)
Definition stored_session (s : Session.t) (i : Z) (digest : string) (t : Z)
    (received : gset Z) (hashes : gmap Z string) : Session.t :=
  let s1 := Session.set_lastActivity
              (Session.set_chunkHashes
                 (Session.set_receivedChunks s ({[i]} ∪ received))
                 (<[i := digest]> hashes)) t in
  let s2 := Session.set_chunk_counters s1 (Session.totalChunks s)
              (Session.completedChunks s + 1) (<[i := true]> (Session.chunks s)) in
  Session.set_progress s2
    (Js.clamp01 (Js.div (Session.completedChunks s + 1) (Session.totalChunks s)))
    "uploading" t.

(** A session object with the properties of both literals: the record of
    [startUploadSession] extended with the fields of the object that
    [initializeChunkedUpload] returns. *)
Definition merged_session (s : Session.t) (u : UploadSession.t) : Session.t :=
  Session.set_lastActivity
    (Session.set_chunkHashes
       (Session.set_receivedChunks
          {| Session.userId := Session.userId s; Session.fileId := Session.fileId s;
             Session.startTime := Session.startTime s;
             Session.status := Session.status s; Session.progress := Session.progress s;
             Session.metadata := Session.metadata s; Session.chunks := Session.chunks s;
             Session.totalChunks := UploadSession.totalChunks u;
             Session.completedChunks := Session.completedChunks s;
             Session.stage := Session.stage s; Session.lastUpdate := Session.lastUpdate s;
             Session.endTime := Session.endTime s; Session.error := Session.error s;
             Session.retryable := Session.retryable s;
             Session.tempDir := Some (UploadSession.tempDir u);
             Session.receivedChunks := None; Session.chunkHashes := None;
             Session.lastActivity := None |}
          (UploadSession.receivedChunks u))
       (UploadSession.chunkHashes u))
    (UploadSession.lastActivity u).

(** ** Recovery *)

(** The capped delay as an integer, for attempts from [1] on. *)
Definition capped (n : Z) : Z :=
  Z.min (ErrorRecovery.baseDelay * 2 ^ (n - 1)) ErrorRecovery.maxDelay.

(** [retryInfo.attempts] of a file, [0] when it has no record. *)
Definition attempts_of (w : World) (f : string) : Z :=
  match retryAttempts w !! f with
  | Some info => RetryInfo.attempts info
  | None => 0
  end.

(** The record of a file as [handleError] leaves it on the retry branch. *)
Definition bumped (w : World) (f : string) (e : Error) : RetryInfo.t :=
  let info0 :=
    default {| RetryInfo.attempts := 0; RetryInfo.startTime := now w;
               RetryInfo.errorHistory := []; RetryInfo.lastError := None;
               RetryInfo.lastErrorTime := None |} (retryAttempts w !! f) in
  {| RetryInfo.attempts := RetryInfo.attempts info0 + 1;
     RetryInfo.startTime := RetryInfo.startTime info0;
     RetryInfo.errorHistory :=
       RetryInfo.errorHistory info0 ++
         [{| RetryInfo.h_error := message e;
             RetryInfo.h_type := ErrorRecovery.categorizeError e;
             RetryInfo.h_timestamp := now w |}];
     RetryInfo.lastError := Some (message e);
     RetryInfo.lastErrorTime := Some (now w) |}.

(** Stored counters stay below [maxRetries]. *)
Definition retry_bound (w : World) : Prop :=
  ∀ f info, retryAttempts w !! f = Some info →
    0 ≤ RetryInfo.attempts info < ErrorRecovery.maxRetries.

(** [handleError] called for the same file and error once per draw of
    [Math.random()], each call starting from the world the previous one
    left; the actions returned, in order, and the final world. *)
Fixpoint handle_repeatedly (f : string) (e : Error) (c : Context)
    (randoms : list Q) (w : World) : list ErrorRecovery.Action * World :=
  match randoms with
  | [] => ([], w)
  | random :: rest =>
      let r := ErrorRecovery.handleError f e c random w in
      let next := handle_repeatedly f e c rest (world_of r) in
      match completion r with
      | Normal action => (action :: next.1, next.2)
      | Thrown _ => next
      end
  end.

(** The number of retry actions before the first failure action. *)
Fixpoint leading_retries (actions : list ErrorRecovery.Action) : nat :=
  match actions with
  | ErrorRecovery.Retry _ _ _ _ :: rest => S (leading_retries rest)
  | _ => 0
  end.

(** What a recovery action reports about the attempt counter. *)
Definition reported_attempts (a : ErrorRecovery.Action) : Z :=
  match a with
  | ErrorRecovery.Retry _ attempt _ _ => attempt
  | ErrorRecovery.Failure attempts _ _ => attempts
  end.

(** ** Messages *)

(** The file that a message of the push channel is about. *)
Definition file_of (m : Message) : option string :=
  match m with
  | upload_started f _ => Some f
  | upload_progress f _ _ _ => Some f
  | upload_completed f _ => Some f
  | upload_error f _ _ _ => Some f
  | pong => None
  end.


(** The messages that a socket received. *)
Definition received_by (ws : nat) (es : list Effect) : list Message :=
  omap (λ e, match e with
             | Send ws' m => if decide (ws' = ws) then Some m else None
             | SetTimeout _ _ => None
             end) es.


(** ** Principals *)

(** A ['connection'] event hands [handleConnection] the socket together with
    the request that opened it; [principal ws] is the user of that request
    ([req.user.id]). *)
Definition attributed (principal : nat → string) (c : Call) : Prop :=
  match c with
  | Connection ws u => u = principal ws
  | _ => True
  end.

(** Every socket sits in the connection set of its own principal. *)
Definition registered_by_principal (principal : nat → string) (w : World) : Prop :=
  ∀ u l ws, clients w !! u = Some l → ws ∈ l → principal ws = u.

(** Sessions stay, and stay with their owner. *)
Definition owners_kept (w w' : World) : Prop :=
  ∀ f s, uploadSessions w !! f = Some s →
    ∃ s', uploadSessions w' !! f = Some s' ∧ Session.userId s' = Session.userId s.

(** A message about a file went to a socket of the owner of its session. *)
Definition to_owner (principal : nat → string) (w : World) (e : Effect) : Prop :=
  match e with
  | Send ws m =>
      ∀ f, file_of m = Some f →
        ∃ s, uploadSessions w !! f = Some s ∧ Session.userId s = principal ws
  | SetTimeout _ _ => True
  end.

(** ** Sample inputs *)

(** An environment for the examples.  The code only compares digests for
    equality, so the examples do not depend on the digest function; the one
    here maps a chunk to its length in decimal. *)
Definition sample_env : Env :=
  {| md5_hex := λ data, pretty (Z.of_nat (length data)); UPLOADS_PATH := None |}.

Definition MiB : Z := 1024 * 1024.

(** The metadata that the [/init] route builds for a file of [n] bytes. *)
Definition sample_metadata (n : Z) : Metadata.t :=
  {| Metadata.fileName := "report.pdf"; Metadata.size := n;
     Metadata.type := Some "application/pdf"; Metadata.toolResource := None;
     Metadata.agentId := None; Metadata.userId := Some "u1";
     Metadata.totalChunks := None; Metadata.chunkSize := None |}.

(** A world in which [getSession "f1"] finds a merged session object, for a
    file of [n] bytes. *)
Definition merged_world (n : Z) : World :=
  let r := ChunkedUpload.initializeChunkedUpload (H := sample_env) "f1" "u1"
             (sample_metadata n) (boot 0) in
  match completion r, uploadSessions (world_of r) !! "f1" with
  | Normal u, Some s =>
      set_uploadSessions (world_of r)
        (<["f1" := merged_session s u]> (uploadSessions (world_of r)))
  | _, _ => world_of r
  end.

(** A socket of user ["u1"] is connected, the file ["f1"] is registered, its
    pipeline is set up and the stage ['upload'] is started. *)
Definition pipeline_started : list Call :=
  [SocketChange 1 {| readyState := OPEN; send_throws := false |};
   Connection 1 "u1";
   InitializeChunkedUpload "f1" "u1" (sample_metadata (3 * MiB));
   InitializePipeline "f1" "u1" (sample_metadata (3 * MiB)) [];
   StartStage "f1" "upload"].

(** Two subscribers, one per user; the file ["f3"] belongs to ["u1"]. *)
Definition two_subscribers : list Call :=
  [SocketChange 1 {| readyState := OPEN; send_throws := false |};
   SocketChange 2 {| readyState := OPEN; send_throws := false |};
   Connection 1 "u1";
   Connection 2 "u2";
   InitializeChunkedUpload "f3" "u1" (sample_metadata (3 * MiB))].

Definition sample_principal (ws : nat) : string :=
  if decide (ws = 1%nat) then "u1" else "u2".

(** ** What a call may write *)

(** [stable I m]: the body [m] keeps [I], whether it returns or throws. *)
Definition stable {A} (I : World → Prop) (m : M A) : Prop :=
  ∀ w, I w → I (world_of (m w)).

(** The calls that assign to the pipeline table, to the retry table and to
    the file system, as the bodies of the methods show. *)
Definition writes_pipelines (c : Call) : bool :=
  match c with
  | InitializePipeline _ _ _ _ | StartStage _ _ | UpdateStageProgress _ _ _
  | CompleteStage _ _ | HandleStageError _ _ _ _ | AddWarning _ _ _
  | CompletePipeline _ | CleanupOldPipelines | TimerDeletePipeline _ => true
  | _ => false
  end.

Definition writes_retryAttempts (c : Call) : bool :=
  match c with
  | HandleError _ _ _ _ | TimerExecuteRetry _ _ _ => true
  | _ => false
  end.

Definition writes_files (c : Call) : bool :=
  match c with
  | UploadChunk _ _ _ _ | AssembleFile _ _ | CancelUpload _ => true
  | _ => false
  end.

Definition writes_dirs (c : Call) : bool :=
  match c with
  | InitializeChunkedUpload _ _ _ | AssembleFile _ _ | CancelUpload _ => true
  | _ => false
  end.

Definition writes_uploadSessions (c : Call) : bool :=
  match c with
  | ValidateChunks _ | AddWarning _ _ _ | CleanupOldPipelines | TimerDeletePipeline _
  | Connection _ _ | Close _ _ | Ping _ | ClockAdvance _ | SocketChange _ _ => false
  | _ => true
  end.

Definition writes_clients (c : Call) : bool :=
  match c with
  | ResumeUpload _ | ValidateChunks _ | AddWarning _ _ _ | CleanupOldPipelines
  | TimerDeletePipeline _ | CleanupOldSessions | TimerDeleteUploadSession _
  | Ping _ | ClockAdvance _ | SocketChange _ _ => false
  | _ => true
  end.

Definition is_ClockAdvance (c : Call) : bool :=
  match c with ClockAdvance _ => true | _ => false end.

Definition is_SocketChange (c : Call) : bool :=
  match c with SocketChange _ _ => true | _ => false end.

(** ** The progress bus *)

(** The sockets of a list to which a message sent now gets through. *)
Definition live (w : World) (l : list nat) : list nat :=
  filter (λ ws, UploadProgress.send_ok w ws = true) l.

(** The connection set of a user; empty when the user has none. *)
Definition connections (w : World) (u : string) : list nat :=
  default [] (clients w !! u).

(** A progress value that is a number lies in [[0, 1]]. *)
Definition in_unit (p : Js.num) : Prop :=
  match p with
  | Js.Fin q => (0 <= q <= 1)%Q
  | Js.NaN => True
  | Js.PosInfinity | Js.NegInfinity => False
  end.

Definition progress_bounded (w : World) : Prop :=
  ∀ f s, uploadSessions w !! f = Some s → in_unit (Session.progress s).

Definition bounded_records (w : World) : Prop := bus_records w ∧ progress_bounded w.

Definition bounded_message (e : Effect) : Prop :=
  match e with
  | Send _ (upload_progress _ p _ _) => in_unit p
  | _ => True
  end.

(** The calls that take a session out of [uploadSessions]. *)
Definition unregisters (c : Call) : bool :=
  match c with
  | TimerDeleteUploadSession _ | CleanupOldSessions => true
  | _ => false
  end.

(** Every session of [w] is still registered in [w']. *)
Definition sessions_stay (w w' : World) : Prop :=
  ∀ f, is_Some (uploadSessions w !! f) → is_Some (uploadSessions w' !! f).

Definition is_timer (e : Effect) : bool :=
  match e with SetTimeout _ _ => true | Send _ _ => false end.

(** ** Pipelines *)

(** The names of the stage list that [buildStageList] makes. *)
Definition stage_names (requiredStages : list string) : list string :=
  ["upload"; "validation"; "processing"] ++ requiredStages ++ ["storage"; "cleanup"].

Definition stage_wf (s : Stage.t) : Prop :=
  (0 < Stage.weight s)%Q ∧ (0 <= Stage.progress s <= 1)%Q.

(** A pipeline as the methods keep it: registered under its own [fileId],
    with the stage names it was built with, positive weights, and every
    progress value in [[0, 1]]. *)
Definition pipeline_wf (f : string) (p : Pipeline.t) : Prop :=
  Pipeline.fileId p = f
  ∧ (∃ requiredStages, map Stage.name (Pipeline.stages p) = stage_names requiredStages)
  ∧ Forall stage_wf (Pipeline.stages p)
  ∧ (0 <= Pipeline.stageProgress p <= 1)%Q
  ∧ (0 <= Pipeline.overallProgress p <= 1)%Q.

Definition pipelines_wf (w : World) : Prop :=
  ∀ f p, pipelines w !! f = Some p → pipeline_wf f p.

(** The pipeline that each method of the pipeline manager stores. *)
Definition started (p : Pipeline.t) (stageName : string) (t : Z) : Pipeline.t :=
  ProcessingPipeline.updateOverallProgress
    (ProcessingPipeline.with_current
       (ProcessingPipeline.with_stages p
          (ProcessingPipeline.update_stage stageName (ProcessingPipeline.stage_running t)
             (Pipeline.stages p)))
       stageName t).

Definition progressed (p : Pipeline.t) (stageName : string) (q : Q) : Pipeline.t :=
  ProcessingPipeline.updateOverallProgress
    (ProcessingPipeline.with_stageProgress
       (ProcessingPipeline.with_stages p
          (ProcessingPipeline.update_stage stageName
             (ProcessingPipeline.stage_progress (Qmin 1 (Qmax 0 q))) (Pipeline.stages p)))
       (Qmin 1 (Qmax 0 q))).

Definition stage_done (p : Pipeline.t) (stageName : string) (st : Stage.t) (t : Z)
    : Pipeline.t :=
  ProcessingPipeline.updateOverallProgress
    (ProcessingPipeline.with_logs
       (ProcessingPipeline.with_stages p
          (ProcessingPipeline.update_stage stageName (ProcessingPipeline.stage_completed t)
             (Pipeline.stages p)))
       (Pipeline.stageHistory p ++
          [{| Pipeline.h_stage := stageName;
              Pipeline.h_startTime := Stage.startTime st;
              Pipeline.h_endTime := t;
              Pipeline.h_duration := ProcessingPipeline.elapsed t st |}])
       (Pipeline.errors p) (Pipeline.warnings p)).

Definition stage_failed (p : Pipeline.t) (stageName : string) (msg : string)
    (recoverable : bool) (t : Z) : Pipeline.t :=
  ProcessingPipeline.with_logs
    (ProcessingPipeline.with_stages p
       (ProcessingPipeline.update_stage stageName (ProcessingPipeline.stage_error t msg)
          (Pipeline.stages p)))
    (Pipeline.stageHistory p)
    (Pipeline.errors p ++
       [{| Pipeline.e_stage := stageName; Pipeline.e_error := msg;
           Pipeline.e_timestamp := t; Pipeline.e_recoverable := recoverable |}])
    (Pipeline.warnings p).

Definition fresh_pipeline (f u : string) (md : Metadata.t) (requiredStages : list string)
    (t : Z) : Pipeline.t :=
  {| Pipeline.fileId := f; Pipeline.userId := u; Pipeline.metadata := md;
     Pipeline.stages := ProcessingPipeline.buildStageList requiredStages;
     Pipeline.currentStage := "upload";
     Pipeline.stageProgress := 0%Q; Pipeline.overallProgress := 0%Q;
     Pipeline.startTime := t; Pipeline.stageStartTime := t;
     Pipeline.stageHistory := []; Pipeline.errors := []; Pipeline.warnings := [];
     Pipeline.endTime := None; Pipeline.totalDuration := None |}.

(** All stages of a list are ['completed']. *)
Definition all_completed (stages : list Stage.t) : Prop :=
  Forall (λ s, Stage.status s = "completed") stages.

(** ** Recovery *)

(** [message.includes(word)] on the lower-cased message of an error. *)
Definition mentions (e : Error) (word : string) : bool :=
  Js.includes word (Js.toLowerCase (message e)).

(** The timers among the effects of a call. *)
Definition timers (es : list Effect) : list Effect :=
  filter (λ e, is_timer e = true) es.

(** The retry record that [getRetryInfo] makes for a file without one. *)
Definition zero_record (t : Z) : RetryInfo.t :=
  {| RetryInfo.attempts := 0; RetryInfo.startTime := t;
     RetryInfo.errorHistory := []; RetryInfo.lastError := None;
     RetryInfo.lastErrorTime := None |}.

(** The world after [getRetryInfo]: the file has a retry record. *)
Definition with_record (f : string) (w : World) : World :=
  match retryAttempts w !! f with
  | Some _ => w
  | None => set_retryAttempts w (<[f := zero_record (now w)]> (retryAttempts w))
  end.

(** ** Calls about a file *)

(** The file that a call is about is in neither table that the call looks
    it up in: the pipeline table for the methods of the pipeline manager,
    the session table for the methods of the bus and of the chunk manager. *)
Definition file_unknown (w : World) (c : Call) : Prop :=
  match c with
  | StartStage f _ | UpdateStageProgress f _ _ | CompleteStage f _
  | HandleStageError f _ _ _ | AddWarning f _ _ | CompletePipeline f
  | TimerDeletePipeline f => pipelines w !! f = None
  | UploadChunk f _ _ _ | AssembleFile f _ | ResumeUpload f | CancelUpload f
  | ValidateChunks f | UpdateProgress f _ _ | CompleteUpload f
  | HandleUploadError f _ _ | TimerDeleteUploadSession f => uploadSessions w !! f = None
  | _ => False
  end.

(** The calls that put a new pipeline object in the table or take one out. *)
Definition replaces_pipeline (c : Call) : bool :=
  match c with
  | InitializePipeline _ _ _ _ | TimerDeletePipeline _ | CleanupOldPipelines => true
  | _ => false
  end.

(** [p'] is a later state of the pipeline object [p]. *)
Definition continues (p p' : Pipeline.t) : Prop :=
  Pipeline.userId p' = Pipeline.userId p
  ∧ Pipeline.metadata p' = Pipeline.metadata p
  ∧ Pipeline.startTime p' = Pipeline.startTime p
  ∧ map Stage.name (Pipeline.stages p') = map Stage.name (Pipeline.stages p)
  ∧ map Stage.weight (Pipeline.stages p') = map Stage.weight (Pipeline.stages p)
  ∧ Pipeline.stageHistory p `prefix_of` Pipeline.stageHistory p'
  ∧ Pipeline.errors p `prefix_of` Pipeline.errors p'
  ∧ Pipeline.warnings p `prefix_of` Pipeline.warnings p'.

(** * Reasoning about method bodies *)

(** ** Equations of the monad *)

Lemma run_bind {A B} (m : M A) (f : A → M B) (w : World) :
  (m ≫= f) w =
  match m w with
  | (Normal a, w1, es1) => let r := f a w1 in (r.1.1, r.1.2, es1 ++ r.2)
  | (Thrown e, w1, es1) => (Thrown e, w1, es1)
  end.
Proof.
  unfold mbind, M_bind. destruct (m w) as [[[a|e] w1] es1]; [|done].
  by destruct (f a w1) as [[r w2] es2].
Qed.

Lemma run_get_bind {B} (f : World → M B) (w : World) : (get ≫= f) w = f w w.
Proof. rewrite run_bind. simpl. by destruct (f w w) as [[r w2] es2]. Qed.

Lemma run_modify_bind {B} (g : World → World) (f : unit → M B) (w : World) :
  (modify g ≫= f) w = f tt (g w).
Proof. rewrite run_bind. simpl. by destruct (f tt (g w)) as [[r w2] es2]. Qed.

Lemma run_try_catch {A} (m : M A) (h : Error → M A) (w : World) :
  try_catch m h w =
  match m w with
  | (Normal a, w1, es1) => (Normal a, w1, es1)
  | (Thrown e, w1, es1) => let r := h e w1 in (r.1.1, r.1.2, es1 ++ r.2)
  end.
Proof.
  unfold try_catch. destruct (m w) as [[[a|e] w1] es1]; [done|].
  by destruct (h e w1) as [[r w2] es2].
Qed.

(** ** Equations of the bus *)

Lemma run_broadcastToUser (u : string) (m : Message) (w : World) :
  UploadProgress.broadcastToUser u m w =
  match clients w !! u with
  | None => (Normal tt, w, [])
  | Some l =>
      (Normal tt,
       set_clients w
         (<[u := list_difference l (filter (λ ws, UploadProgress.send_ok w ws = false) l)]>
            (clients w)),
       map (λ ws, Send ws m) (filter (λ ws, UploadProgress.send_ok w ws = true) l))
  end.
Proof.
  unfold UploadProgress.broadcastToUser. rewrite run_get_bind.
  destruct (clients w !! u) as [l|]; [|done].
  rewrite run_bind. simpl. by rewrite app_nil_r.
Qed.

Lemma broadcastToUser_sessions (u : string) (m : Message) (w : World) :
  uploadSessions (world_of (UploadProgress.broadcastToUser u m w)) = uploadSessions w.
Proof. rewrite run_broadcastToUser. by destruct (clients w !! u). Qed.

Lemma broadcastToUser_normal (u : string) (m : Message) (w : World) :
  completion (UploadProgress.broadcastToUser u m w) = Normal tt.
Proof. rewrite run_broadcastToUser. by destruct (clients w !! u). Qed.

Lemma run_then_broadcast {B} (u : string) (m : Message) (k : unit → M B) (w : World) :
  (UploadProgress.broadcastToUser u m ≫= k) w =
  let r := UploadProgress.broadcastToUser u m w in
  let r' := k tt r.1.2 in (r'.1.1, r'.1.2, r.2 ++ r'.2).
Proof.
  rewrite run_bind. pose proof (broadcastToUser_normal u m w) as Hn.
  unfold completion in Hn.
  destruct (UploadProgress.broadcastToUser u m w) as [[[[]|e] w1] es1]; simpl in *; done.
Qed.

Lemma run_startUploadSession (f u : string) (md : Metadata.t) (w : World) :
  UploadProgress.startUploadSession f u md w =
  UploadProgress.broadcastToUser u (upload_started f md)
    (set_uploadSessions w
       (<[f := {| Session.userId := u; Session.fileId := f;
                  Session.startTime := now w; Session.status := "uploading";
                  Session.progress := Js.Fin 0; Session.metadata := md;
                  Session.chunks := ∅; Session.totalChunks := 0;
                  Session.completedChunks := 0;
                  Session.stage := None; Session.lastUpdate := None;
                  Session.endTime := None; Session.error := None;
                  Session.retryable := None;
                  Session.tempDir := None; Session.receivedChunks := None;
                  Session.chunkHashes := None; Session.lastActivity := None |}]>
          (uploadSessions w))).
Proof. unfold UploadProgress.startUploadSession. by rewrite run_modify_bind. Qed.

Lemma run_updateProgress (f : string) (p : Js.num) (stg : string) (w : World) :
  UploadProgress.updateProgress f p stg w =
  match uploadSessions w !! f with
  | None => (Normal tt, w, [])
  | Some s =>
      UploadProgress.broadcastToUser (Session.userId s)
        (upload_progress f (Js.clamp01 p) stg (now w))
        (set_uploadSessions w
           (<[f := Session.set_progress s (Js.clamp01 p) stg (now w)]> (uploadSessions w)))
  end.
Proof.
  unfold UploadProgress.updateProgress. rewrite run_get_bind.
  destruct (uploadSessions w !! f); [|done]. by rewrite run_modify_bind.
Qed.

Lemma run_handleUploadError (f : string) (e : Error) (r : bool) (w : World) :
  UploadProgress.handleUploadError f e r w =
  match uploadSessions w !! f with
  | None => (Normal tt, w, [])
  | Some s =>
      UploadProgress.broadcastToUser (Session.userId s)
        (upload_error f (message e) r (now w))
        (set_uploadSessions w
           (<[f := Session.set_error s (message e) r]> (uploadSessions w)))
  end.
Proof.
  unfold UploadProgress.handleUploadError. rewrite run_get_bind.
  destruct (uploadSessions w !! f); [|done]. by rewrite run_modify_bind.
Qed.

Lemma run_completeUpload (f : string) (w : World) :
  UploadProgress.completeUpload f w =
  match uploadSessions w !! f with
  | None => (Normal tt, w, [])
  | Some s =>
      let r := UploadProgress.broadcastToUser (Session.userId s)
                 (upload_completed f (now w - Session.startTime s))
                 (set_uploadSessions w
                    (<[f := Session.set_completed s (now w)]> (uploadSessions w))) in
      (Normal tt, r.1.2, r.2 ++ [SetTimeout (DeleteUploadSession f) 30000])
  end.
Proof.
  unfold UploadProgress.completeUpload. rewrite run_get_bind.
  destruct (uploadSessions w !! f); [|done].
  rewrite run_modify_bind, run_then_broadcast. done.
Qed.

Lemma run_updateChunkProgress (f : string) (i total : Z) (completed : bool) (w : World) :
  UploadProgress.updateChunkProgress f i total completed w =
  match uploadSessions w !! f with
  | None => (Normal tt, w, [])
  | Some s =>
      let s' :=
        if completed then
          Session.set_chunk_counters s total (Session.completedChunks s + 1)
            (<[i := true]> (Session.chunks s))
        else Session.set_chunk_counters s total (Session.completedChunks s)
               (Session.chunks s) in
      UploadProgress.updateProgress f (Js.div (Session.completedChunks s') total)
        "uploading" (set_uploadSessions w (<[f := s']> (uploadSessions w)))
  end.
Proof.
  unfold UploadProgress.updateChunkProgress. rewrite run_get_bind.
  destruct (uploadSessions w !! f); [|done]. by rewrite run_modify_bind.
Qed.

(** ** Invariants of worlds, relations between worlds, properties of effects

    [I] is an invariant of worlds, [R] relates the world before a step to
    the world after it, and [E w e] says that the effect [e] is in order as
    seen from the world [w]; effects that were in order stay so along [R]. *)

Section Logic.
Variable I : World → Prop.
Variable R : World → World → Prop.
Variable E : World → Effect → Prop.
Hypothesis R_refl : ∀ w, R w w.
Hypothesis R_trans : ∀ a b c, R a b → R b c → R a c.
Hypothesis E_mono : ∀ w w' e, R w w' → E w e → E w' e.

Lemma ok_ret {A} (a : A) : ok I R E (mret a).
Proof. intros w Hw. repeat split; auto; constructor. Qed.

Lemma ok_throw {A} (e : Error) : ok I R E (@throw A e).
Proof. intros w Hw. repeat split; auto; constructor. Qed.

Lemma ok_gets {A} (f : World → A) : ok I R E (gets f).
Proof. intros w Hw. repeat split; auto; constructor. Qed.

Lemma ok_at_bind {A B} (m : M A) (f : A → M B) (w : World) :
  ok_at I R E m w → (∀ a, ok I R E (f a)) → ok_at I R E (m ≫= f) w.
Proof.
  intros Hm Hf Hw. destruct (Hm Hw) as (HI & HR & HE).
  unfold world_of, effects_of in *. rewrite run_bind.
  destruct (m w) as [[[a|e] w1] es1]; simpl in *; [|done].
  destruct (Hf a w1 HI) as (HI2 & HR2 & HE2).
  unfold world_of, effects_of in *.
  split; [done|]. split; [by eapply R_trans|].
  apply Forall_app. split; [|done].
  eapply Forall_impl; [exact HE|]. intros e. by apply E_mono.
Qed.

Lemma ok_bind {A B} (m : M A) (f : A → M B) :
  ok I R E m → (∀ a, ok I R E (f a)) → ok I R E (m ≫= f).
Proof. intros Hm Hf w. apply ok_at_bind; auto. Qed.

Lemma ok_at_get_bind {B} (f : World → M B) (w : World) :
  ok_at I R E (f w) w → ok_at I R E (get ≫= f) w.
Proof. unfold ok_at. by rewrite run_get_bind. Qed.

Lemma ok_get_bind {B} (f : World → M B) : (∀ w0, ok I R E (f w0)) → ok I R E (get ≫= f).
Proof. intros Hf w. apply ok_at_get_bind, Hf. Qed.

Lemma ok_try_catch {A} (m : M A) (h : Error → M A) :
  ok I R E m → (∀ e, ok I R E (h e)) → ok I R E (try_catch m h).
Proof.
  intros Hm Hh w Hw. destruct (Hm w Hw) as (HI & HR & HE).
  unfold world_of, effects_of in *. rewrite run_try_catch.
  destruct (m w) as [[[a|e] w1] es1]; simpl in *; [done|].
  destruct (Hh e w1 HI) as (HI2 & HR2 & HE2).
  unfold world_of, effects_of in *.
  split; [done|]. split; [by eapply R_trans|].
  apply Forall_app. split; [|done].
  eapply Forall_impl; [exact HE|]. intros x. by apply E_mono.
Qed.

Lemma ok_modify (g : World → World) :
  (∀ w, I w → I (g w) ∧ R w (g w)) → ok I R E (modify g).
Proof. intros Hg w Hw. destruct (Hg w Hw). repeat split; auto; constructor. Qed.

Lemma ok_tell (es : list Effect) : (∀ w, I w → Forall (E w) es) → ok I R E (tell es).
Proof. intros He w Hw. repeat split; auto. Qed.

Lemma ok_for_each {A} (xs : list A) (body : A → M unit) :
  (∀ x, ok I R E (body x)) → ok I R E (for_each xs body).
Proof.
  intros Hb. induction xs as [|x xs IH]; simpl.
  - apply ok_ret.
  - apply ok_bind; [apply Hb | intros _; apply IH].
Qed.

Lemma ok_ignore {A} (m : M A) : ok I R E m → ok I R E (ignore m).
Proof. intros Hm. apply ok_bind; [done | intros; apply ok_ret]. Qed.

Lemma ok_keeps {A} (m : M A) : ok I R E m → keeps I E m.
Proof. intros Hm w Hw. destruct (Hm w Hw) as (? & ? & ?). done. Qed.

Ltac ok_step :=
  lazymatch goal with
  | |- ok I R E (mret _) => apply ok_ret
  | |- ok I R E (throw _) => apply ok_throw
  | |- ok I R E (gets _) => apply ok_gets
  | |- ok I R E (get ≫= _) => apply ok_get_bind; intros ?
  | |- ok I R E (_ ≫= _) => apply ok_bind; [ | intros ? ]
  | |- ok I R E (try_catch _ _) => apply ok_try_catch; [ | intros ? ]
  | |- ok I R E (for_each _ _) => apply ok_for_each; intros ?
  | |- ok I R E (ignore _) => apply ok_ignore
  | |- ok I R E (match ?x with _ => _ end) => destruct x
  end.

(** *** Steps that leave [I], [R] and [E] alone

    The invariants below speak of the registries of the bus or of the
    retry table; the file system and the pipeline table are outside
    them. *)
Hypothesis frame_files : ∀ w x, I w → I (set_files w x) ∧ R w (set_files w x).
Hypothesis frame_dirs : ∀ w x, I w → I (set_dirs w x) ∧ R w (set_dirs w x).
Hypothesis frame_pipelines :
  ∀ w x, I w → I (set_pipelines w x) ∧ R w (set_pipelines w x).
Hypothesis frame_now : ∀ w x, I w → I (set_now w x) ∧ R w (set_now w x).
Hypothesis frame_sockets : ∀ w x, I w → I (set_sockets w x) ∧ R w (set_sockets w x).
Hypothesis timers_fine : ∀ w cb ms, E w (SetTimeout cb ms).
Hypothesis pong_fine : ∀ w ws, E w (Send ws pong).

Lemma ok_mkdir_recursive dir : ok I R E (Fs.mkdir_recursive dir).
Proof. apply ok_modify. intros; apply frame_dirs; done. Qed.

Lemma ok_writeFile path data : ok I R E (Fs.writeFile path data).
Proof.
  unfold Fs.writeFile. repeat ok_step.
  apply ok_modify. intros; apply frame_files; done.
Qed.

Lemma ok_readFile path : ok I R E (Fs.readFile path).
Proof. unfold Fs.readFile. repeat ok_step. Qed.

Lemma ok_access path : ok I R E (Fs.access path).
Proof. unfold Fs.access. repeat ok_step. Qed.

Lemma ok_stat_size path : ok I R E (Fs.stat_size path).
Proof. unfold Fs.stat_size. repeat ok_step. Qed.

Lemma ok_readdir dir : ok I R E (Fs.readdir dir).
Proof. unfold Fs.readdir. repeat ok_step. Qed.

Lemma ok_unlink path : ok I R E (Fs.unlink path).
Proof.
  unfold Fs.unlink. repeat ok_step.
  apply ok_modify. intros; apply frame_files; done.
Qed.

Lemma ok_rmdir dir : ok I R E (Fs.rmdir dir).
Proof.
  unfold Fs.rmdir. repeat ok_step.
  apply ok_modify. intros; apply frame_dirs; done.
Qed.

Lemma ok_createWriteStream path : ok I R E (Fs.createWriteStream path).
Proof. apply ok_modify. intros; apply frame_files; done. Qed.

Lemma ok_stream_write path data : ok I R E (Fs.stream_write path data).
Proof. apply ok_modify. intros; apply frame_files; done. Qed.

Lemma ok_put_pipeline f p : ok I R E (ProcessingPipeline.put_pipeline f p).
Proof. apply ok_modify. intros; apply frame_pipelines; done. Qed.

Lemma ok_timer cb ms : ok I R E (tell [SetTimeout cb ms]).
Proof. apply ok_tell. intros. repeat constructor. apply timers_fine. Qed.

Context `{Env}.

(** *** Methods that write the retry table or a session object

    When the invariant does not speak of the retry table, [handleError]
    and [getRetryInfo] are in order as soon as [handleUploadError] is; when
    it allows the assignments that [uploadChunk] and [resumeUpload] make
    to a session object, these two are in order as well. *)
Lemma ok_getRetryInfo_frame :
  (∀ w x, I w → I (set_retryAttempts w x) ∧ R w (set_retryAttempts w x)) →
  ∀ f, ok I R E (ErrorRecovery.getRetryInfo f).
Proof.
  intros Hfr f. unfold ErrorRecovery.getRetryInfo.
  repeat first [ apply ok_modify; intros; apply Hfr; done | ok_step ].
Qed.

Lemma ok_handleError_frame :
  (∀ w x, I w → I (set_retryAttempts w x) ∧ R w (set_retryAttempts w x)) →
  (∀ f e r, ok I R E (UploadProgress.handleUploadError f e r)) →
  ∀ f e c r, ok I R E (ErrorRecovery.handleError f e c r).
Proof.
  intros Hfr Hue f e c r.
  unfold ErrorRecovery.handleError, ErrorRecovery.handleFinalFailure,
    ErrorRecovery.cleanup.
  repeat first
    [ apply ok_getRetryInfo_frame; done | apply ok_modify; intros; apply Hfr; done
    | apply Hue | apply ok_timer | ok_step ].
Qed.

Lemma ok_uploadChunk_frame :
  (∀ f g, keeps_owner g → ok I R E (ChunkedUpload.mutate_session f g)) →
  (∀ f i t c, ok I R E (UploadProgress.updateChunkProgress f i t c)) →
  ∀ f i d h, ok I R E (ChunkedUpload.uploadChunk f i d h).
Proof.
  intros Hmut Hcp f i d h. unfold ChunkedUpload.uploadChunk.
  repeat first
    [ apply ok_gets | apply ok_writeFile | apply Hcp
    | apply Hmut; intros ?; done
    | ok_step ].
  unfold ChunkedUpload.chunk_path. repeat ok_step.
Qed.

Lemma ok_resumeUpload_frame :
  (∀ f g, keeps_owner g → ok I R E (ChunkedUpload.mutate_session f g)) →
  ∀ f, ok I R E (ChunkedUpload.resumeUpload f).
Proof.
  intros Hmut f. unfold ChunkedUpload.resumeUpload.
  ok_step; [apply ok_gets|]. ok_step; [|apply ok_throw].
  ok_step; [|apply ok_ret].
  match goal with |- context [seqZ 0 ?n] => generalize (seqZ 0 n) (@nil Z) end.
  intros idx. induction idx as [|i idx IH]; intros acc; simpl.
  - apply ok_ret.
  - ok_step; [|apply IH].
    unfold ChunkedUpload.resume_step, ChunkedUpload.chunk_path.
    repeat first
      [ apply ok_access | apply Hmut; intros s; by destruct (Session.receivedChunks s)
      | ok_step ].
Qed.

(** *** The methods of the bus, the chunk store and the retry table

    What each of these does to [I], [R] and [E] depends on the invariant at
    hand; the bodies built from them follow below. *)

Hypothesis ok_updateProgress : ∀ f p s, ok I R E (UploadProgress.updateProgress f p s).
Hypothesis ok_completeUpload : ∀ f, ok I R E (UploadProgress.completeUpload f).
Hypothesis ok_handleUploadError :
  ∀ f e r, ok I R E (UploadProgress.handleUploadError f e r).
Hypothesis ok_uploadChunk : ∀ f i d h, ok I R E (ChunkedUpload.uploadChunk f i d h).
Hypothesis ok_resumeUpload : ∀ f, ok I R E (ChunkedUpload.resumeUpload f).
Hypothesis ok_getRetryInfo : ∀ f, ok I R E (ErrorRecovery.getRetryInfo f).
Hypothesis ok_handleError : ∀ f e c r, ok I R E (ErrorRecovery.handleError f e c r).

Lemma ok_getSession f : ok I R E (ChunkedUpload.getSession f).
Proof. apply ok_gets. Qed.

Lemma ok_chunk_path s i : ok I R E (ChunkedUpload.chunk_path s i).
Proof. unfold ChunkedUpload.chunk_path. repeat ok_step. Qed.

Lemma ok_cleanupChunks s : ok I R E (ChunkedUpload.cleanupChunks s).
Proof.
  unfold ChunkedUpload.cleanupChunks.
  repeat first [ apply ok_readdir | apply ok_unlink | apply ok_rmdir | ok_step ].
Qed.

Lemma ok_assembleFile f out : ok I R E (ChunkedUpload.assembleFile f out).
Proof.
  unfold ChunkedUpload.assembleFile.
  repeat first
    [ apply ok_getSession | apply ok_mkdir_recursive | apply ok_createWriteStream
    | apply ok_chunk_path | apply ok_readFile | apply ok_stream_write
    | apply ok_updateProgress | apply ok_stat_size | apply ok_cleanupChunks
    | apply ok_completeUpload | ok_step ].
Qed.

Lemma ok_cancelUpload f : ok I R E (ChunkedUpload.cancelUpload f).
Proof.
  unfold ChunkedUpload.cancelUpload.
  repeat first
    [ apply ok_getSession | apply ok_cleanupChunks | apply ok_handleUploadError
    | ok_step ].
Qed.

Lemma ok_validate_loop s idx : ok I R E (ChunkedUpload.validate_loop s idx).
Proof.
  induction idx as [|i idx IH]; simpl.
  - apply ok_ret.
  - repeat first [ apply IH | apply ok_chunk_path | apply ok_readFile | ok_step ].
Qed.

Lemma ok_validateChunks f : ok I R E (ChunkedUpload.validateChunks f).
Proof.
  unfold ChunkedUpload.validateChunks.
  repeat first [ apply ok_getSession | apply ok_validate_loop | ok_step ].
Qed.

Lemma ok_initializePipeline f u md req :
  ok I R E (ProcessingPipeline.initializePipeline f u md req).
Proof.
  unfold ProcessingPipeline.initializePipeline.
  repeat first [ apply ok_put_pipeline | apply ok_updateProgress | ok_step ].
Qed.

Lemma ok_startStage f s : ok I R E (ProcessingPipeline.startStage f s).
Proof.
  unfold ProcessingPipeline.startStage.
  repeat first [ apply ok_put_pipeline | apply ok_updateProgress | ok_step ].
Qed.

Lemma ok_updateStageProgress f s p : ok I R E (ProcessingPipeline.updateStageProgress f s p).
Proof.
  unfold ProcessingPipeline.updateStageProgress.
  repeat first [ apply ok_put_pipeline | apply ok_updateProgress | ok_step ].
Qed.

Lemma ok_completeStage f s : ok I R E (ProcessingPipeline.completeStage f s).
Proof.
  unfold ProcessingPipeline.completeStage.
  repeat first [ apply ok_put_pipeline | apply ok_updateProgress | ok_step ].
Qed.

Lemma ok_handleStageError f s e r : ok I R E (ProcessingPipeline.handleStageError f s e r).
Proof.
  unfold ProcessingPipeline.handleStageError.
  repeat first [ apply ok_put_pipeline | apply ok_updateProgress | ok_step ].
Qed.

Lemma ok_addWarning f s msg : ok I R E (ProcessingPipeline.addWarning f s msg).
Proof.
  unfold ProcessingPipeline.addWarning.
  repeat first [ apply ok_put_pipeline | ok_step ].
Qed.

Lemma ok_completePipeline f : ok I R E (ProcessingPipeline.completePipeline f).
Proof.
  unfold ProcessingPipeline.completePipeline.
  repeat first
    [ apply ok_put_pipeline | apply ok_completeUpload | apply ok_timer | ok_step ].
Qed.

Lemma ok_cleanupOldPipelines : ok I R E ProcessingPipeline.cleanupOldPipelines.
Proof. apply ok_modify. intros; apply frame_pipelines; done. Qed.

Lemma ok_deletePipeline f : ok I R E (ProcessingPipeline.deletePipeline f).
Proof. apply ok_modify. intros; apply frame_pipelines; done. Qed.

Lemma ok_retryChunkedUpload f : ok I R E (ErrorRecovery.retryChunkedUpload f).
Proof.
  unfold ErrorRecovery.retryChunkedUpload.
  repeat first [ apply ok_resumeUpload | apply ok_updateProgress | ok_step ].
Qed.

Lemma ok_executeRetry f c r : ok I R E (ErrorRecovery.executeRetry f c r).
Proof.
  unfold ErrorRecovery.executeRetry, ErrorRecovery.retryRegularUpload.
  repeat first
    [ apply ok_getRetryInfo | apply ok_updateProgress | apply ok_retryChunkedUpload
    | apply ok_handleError | ok_step ].
Qed.

Lemma ok_on_ping ws : ok I R E (UploadProgress.on_ping ws).
Proof.
  unfold UploadProgress.on_ping. repeat ok_step.
  apply ok_tell. intros. repeat constructor. apply pong_fine.
Qed.

(** *** Calls

    The remaining calls are single steps of the bus; they may replace or
    drop a session, so only [keeps] is asked of them. *)
Hypothesis keeps_startUploadSession :
  ∀ f u md, keeps I E (UploadProgress.startUploadSession f u md).
Hypothesis keeps_deleteUploadSession : ∀ f, keeps I E (UploadProgress.deleteUploadSession f).
Hypothesis keeps_cleanupOldSessions : keeps I E UploadProgress.cleanupOldSessions.
Variable may_connect : nat → string → Prop.
Hypothesis keeps_handleConnection :
  ∀ ws u, may_connect ws u → keeps I E (UploadProgress.handleConnection ws u).

Hypothesis keeps_on_close : ∀ ws u, keeps I E (UploadProgress.on_close ws u).

Lemma keeps_initializeChunkedUpload f u md :
  keeps I E (ignore (ChunkedUpload.initializeChunkedUpload f u md)).
Proof.
  intros w Hw. unfold ignore, ChunkedUpload.initializeChunkedUpload.
  unfold world_of, effects_of, Fs.mkdir_recursive.
  rewrite run_bind, run_modify_bind, run_get_bind.
  destruct (frame_dirs w ({[ Js.path_join (Js.path_join (Js.path_join
    (default "uploads" (ChunkedUpload.truthy UPLOADS_PATH)) "temp") "chunks") u ]}
    ∪ dirs w) Hw) as [Hw1 _].
  case_decide as Hsize.
  - simpl. split; [done | constructor].
  - rewrite run_bind.
    destruct (keeps_startUploadSession f u
      (Metadata.spread_chunks md
         (Js.ceil_div (Metadata.size md) ChunkedUpload.chunkSize)
         ChunkedUpload.chunkSize) _ Hw1) as [HI HE].
    unfold world_of, effects_of in *.
    simpl in *.
    destruct (UploadProgress.startUploadSession _ _ _ _) as [[[[]|e] w2] es2];
      simpl in *; rewrite ?app_nil_r; done.
Qed.

Theorem keeps_exec (c : Call) : admissible may_connect c → keeps I E (exec c).
Proof.
  intros Hadm. destruct c; simpl;
    try (apply ok_keeps;
         first [ apply ok_ignore | idtac ];
         first
           [ apply ok_uploadChunk | apply ok_assembleFile | apply ok_resumeUpload
           | apply ok_cancelUpload | apply ok_validateChunks
           | apply ok_initializePipeline | apply ok_startStage
           | apply ok_updateStageProgress | apply ok_completeStage
           | apply ok_handleStageError | apply ok_addWarning
           | apply ok_completePipeline | apply ok_cleanupOldPipelines
           | apply ok_handleError | apply ok_updateProgress
           | apply ok_completeUpload | apply ok_handleUploadError
           | apply ok_on_ping | apply ok_deletePipeline | apply ok_executeRetry
           | apply ok_modify; intros; first [ apply frame_now | apply frame_sockets ];
             done ]; fail).
  - apply keeps_initializeChunkedUpload.
  - apply keeps_startUploadSession.
  - apply keeps_cleanupOldSessions.
  - by apply keeps_handleConnection.
  - apply keeps_on_close.
  - apply keeps_deleteUploadSession.
Qed.

(** An invariant that holds at boot holds after every sequence of calls,
    and every effect on the way is in order in the world its call left. *)
Lemma run_snoc cs c w : run (cs ++ [c]) w = after c (run cs w).
Proof. unfold run. by rewrite foldl_app. Qed.

Theorem invariant_run (cs : list Call) (w : World) :
  Forall (admissible may_connect) cs → I w → I (run cs w).
Proof.
  intros Hadm Hw. induction cs as [|c cs IH] using rev_ind; [done|].
  apply Forall_app in Hadm as [Hcs Hc]. apply Forall_inv in Hc.
  rewrite run_snoc. apply keeps_exec; auto.
Qed.

Theorem effects_run (cs : list Call) (c : Call) (w : World) :
  Forall (admissible may_connect) (cs ++ [c]) → I w →
  Forall (E (after c (run cs w))) (effects_of (exec c (run cs w))).
Proof.
  intros Hadm Hw. apply Forall_app in Hadm as [Hcs Hc]. apply Forall_inv in Hc.
  apply keeps_exec; [done|]. by apply invariant_run.
Qed.

End Logic.

(** * The session object that [getSession] returns *)

Lemma ok_any_step {A} (I : World → Prop) (m : M A) :
  (∀ w, I w → I (world_of (m w))) → ok I any_step any_effect m.
Proof.
  intros Hm w Hw. split; [by apply Hm|]. split; [done|].
  apply Forall_forall. done.
Qed.

Lemma keeps_any_effect {A} (I : World → Prop) (m : M A) :
  (∀ w, I w → I (world_of (m w))) → keeps I any_effect m.
Proof. intros Hm w Hw. split; [by apply Hm|]. apply Forall_forall. done. Qed.

Lemma bus_records_ext (w w' : World) :
  uploadSessions w' = uploadSessions w → bus_records w → bus_records w'.
Proof. intros Heq Hw f s. rewrite Heq. apply Hw. Qed.

Lemma bus_records_insert (w : World) (f : string) (s : Session.t) :
  bus_records w → bus_record s →
  bus_records (set_uploadSessions w (<[f := s]> (uploadSessions w))).
Proof.
  intros Hw Hs f' s'. simpl. rewrite lookup_insert.
  case_decide; [naive_solver | apply Hw].
Qed.

Section Bus_records.
Context `{Env}.

(** With [totalChunks = 0] every index fails the check of [uploadChunk]. *)
Lemma uploadChunk_zero_total w f i d h s :
  uploadSessions w !! f = Some s → Session.totalChunks s = 0 →
  ChunkedUpload.uploadChunk f i d h w = (Thrown ChunkedUpload.invalid_chunk_index, w, []).
Proof.
  intros Hs Ht. unfold ChunkedUpload.uploadChunk, ChunkedUpload.getSession,
    UploadProgress.getSessionStatus.
  rewrite run_bind. simpl. rewrite Hs. simpl.
  case_decide as Hi; [done | lia].
Qed.

Lemma uploadChunk_no_session w f i d h :
  uploadSessions w !! f = None →
  ChunkedUpload.uploadChunk f i d h w = (Thrown ChunkedUpload.session_not_found, w, []).
Proof.
  intros Hs. unfold ChunkedUpload.uploadChunk, ChunkedUpload.getSession,
    UploadProgress.getSessionStatus.
  rewrite run_bind. simpl. by rewrite Hs.
Qed.

(** Without [receivedChunks], [assembleFile] stops at [receivedChunks.size]. *)
Lemma assembleFile_no_receivedChunks w f out s :
  uploadSessions w !! f = Some s → Session.receivedChunks s = None →
  ChunkedUpload.assembleFile f out w = (Thrown (undefined_read "size"), w, []).
Proof.
  intros Hs Hr. unfold ChunkedUpload.assembleFile, ChunkedUpload.getSession,
    UploadProgress.getSessionStatus.
  rewrite run_bind. simpl. rewrite Hs. simpl. by rewrite Hr.
Qed.

(** With [totalChunks = 0] the loop of [resumeUpload] does not run. *)
Lemma resumeUpload_zero_total w f s :
  uploadSessions w !! f = Some s → Session.totalChunks s = 0 →
  ChunkedUpload.resumeUpload f w =
  (Normal {| ChunkedUpload.r_fileId := f; ChunkedUpload.r_totalChunks := 0;
             ChunkedUpload.r_receivedChunks := [];
             ChunkedUpload.r_missingChunks := [];
             ChunkedUpload.r_progress := Js.NaN |}, w, []).
Proof.
  intros Hs Ht. unfold ChunkedUpload.resumeUpload, ChunkedUpload.getSession,
    UploadProgress.getSessionStatus.
  rewrite run_bind. simpl. rewrite Hs, Ht. done.
Qed.

(** With [totalChunks = 0] the loop of [validateChunks] does not run. *)
Lemma validateChunks_zero_total w f s :
  uploadSessions w !! f = Some s → Session.totalChunks s = 0 →
  ChunkedUpload.validateChunks f w = (Normal true, w, []).
Proof.
  intros Hs Ht. unfold ChunkedUpload.validateChunks, ChunkedUpload.getSession,
    UploadProgress.getSessionStatus.
  rewrite run_bind. simpl. rewrite Hs, Ht. done.
Qed.

Lemma resumeUpload_no_session w f :
  uploadSessions w !! f = None →
  ChunkedUpload.resumeUpload f w = (Thrown ChunkedUpload.session_not_found, w, []).
Proof.
  intros Hs. unfold ChunkedUpload.resumeUpload, ChunkedUpload.getSession,
    UploadProgress.getSessionStatus.
  rewrite run_bind. simpl. by rewrite Hs.
Qed.

Lemma bus_records_updateProgress f p stg w :
  bus_records w → bus_records (world_of (UploadProgress.updateProgress f p stg w)).
Proof.
  intros Hw. rewrite run_updateProgress.
  destruct (uploadSessions w !! f) as [s|] eqn:Hs; [|done].
  eapply bus_records_ext; [apply broadcastToUser_sessions|].
  apply bus_records_insert; [done|]. apply (Hw f s Hs).
Qed.

Lemma bus_records_handleUploadError f e r w :
  bus_records w → bus_records (world_of (UploadProgress.handleUploadError f e r w)).
Proof.
  intros Hw. rewrite run_handleUploadError.
  destruct (uploadSessions w !! f) as [s|] eqn:Hs; [|done].
  eapply bus_records_ext; [apply broadcastToUser_sessions|].
  apply bus_records_insert; [done|]. apply (Hw f s Hs).
Qed.

Lemma bus_records_completeUpload f w :
  bus_records w → bus_records (world_of (UploadProgress.completeUpload f w)).
Proof.
  intros Hw. rewrite run_completeUpload.
  destruct (uploadSessions w !! f) as [s|] eqn:Hs; [|done].
  eapply bus_records_ext; [apply broadcastToUser_sessions|].
  apply bus_records_insert; [done|]. apply (Hw f s Hs).
Qed.

Lemma bus_records_startUploadSession f u md w :
  bus_records w → bus_records (world_of (UploadProgress.startUploadSession f u md w)).
Proof.
  intros Hw. rewrite run_startUploadSession.
  eapply bus_records_ext; [apply broadcastToUser_sessions|].
  apply bus_records_insert; [done|]. by repeat split.
Qed.

Lemma bus_records_uploadChunk f i d h w :
  bus_records w → bus_records (world_of (ChunkedUpload.uploadChunk f i d h w)).
Proof.
  intros Hw. destruct (uploadSessions w !! f) as [s|] eqn:Hs.
  - destruct (Hw f s Hs) as (Ht & _). by rewrite (uploadChunk_zero_total w f i d h s).
  - by rewrite uploadChunk_no_session.
Qed.

Lemma bus_records_resumeUpload f w :
  bus_records w → bus_records (world_of (ChunkedUpload.resumeUpload f w)).
Proof.
  intros Hw. destruct (uploadSessions w !! f) as [s|] eqn:Hs.
  - destruct (Hw f s Hs) as (Ht & _). by rewrite (resumeUpload_zero_total w f s).
  - by rewrite resumeUpload_no_session.
Qed.

(** Every session object in [uploadSessions] is a bus record, whatever
    the calls made since the process started. *)
Lemma bus_records_run (cs : list Call) (t0 : Z) : bus_records (run cs (boot t0)).
Proof.
  apply (invariant_run bus_records any_step any_effect)
    with (may_connect := λ _ _, True);
    try done; try (apply Forall_forall; intros c _; by destruct c).
  - intros. apply ok_any_step. intros. by apply bus_records_updateProgress.
  - intros. apply ok_any_step. intros. by apply bus_records_completeUpload.
  - intros. apply ok_any_step. intros. by apply bus_records_handleUploadError.
  - intros. apply ok_any_step. intros. by apply bus_records_uploadChunk.
  - intros. apply ok_any_step. intros. by apply bus_records_resumeUpload.
  - by apply ok_getRetryInfo_frame.
  - apply ok_handleError_frame; try done.
    intros. apply ok_any_step. intros. by apply bus_records_handleUploadError.
  - intros. apply keeps_any_effect. intros. by apply bus_records_startUploadSession.
  - intros. apply keeps_any_effect. intros w Hw f' s. simpl.
    rewrite lookup_delete. case_decide; [done | apply Hw].
  - apply keeps_any_effect. intros w Hw f' s. simpl.
    rewrite map_lookup_filter_Some. intros [Hs _]. by apply (Hw f' s).
  - intros ws u. apply keeps_any_effect. intros w Hw.
    unfold UploadProgress.on_close, world_of, modify. simpl.
    destruct (clients w !! u); [|done]. by case_decide.
Qed.

End Bus_records.

(** ** [initializeChunkedUpload] *)

Section Initialize.
Context `{Env}.

Lemma startUploadSession_normal f u md w :
  completion (UploadProgress.startUploadSession f u md w) = Normal tt.
Proof. rewrite run_startUploadSession. apply broadcastToUser_normal. Qed.

Lemma run_initializeChunkedUpload f u md w :
  ChunkedUpload.initializeChunkedUpload f u md w =
  let w1 := set_dirs w ({[tempDir_of u]} ∪ dirs w) in
  if decide (Metadata.size md > ChunkedUpload.chunkSize * ChunkedUpload.maxChunks)
  then (Thrown ChunkedUpload.file_too_large, w1, [])
  else
    let r := UploadProgress.startUploadSession f u
               (Metadata.spread_chunks md
                  (Js.ceil_div (Metadata.size md) ChunkedUpload.chunkSize)
                  ChunkedUpload.chunkSize) w1 in
    (Normal (session_literal f u md (now w)), r.1.2, r.2).
Proof.
  unfold ChunkedUpload.initializeChunkedUpload, Fs.mkdir_recursive.
  rewrite run_modify_bind, run_get_bind. fold (tempDir_of u).
  case_decide; [done|]. rewrite run_bind.
  pose proof (startUploadSession_normal f u
    (Metadata.spread_chunks md
       (Js.ceil_div (Metadata.size md) ChunkedUpload.chunkSize)
       ChunkedUpload.chunkSize)
    (set_dirs w ({[tempDir_of u]} ∪ dirs w))) as Hn.
  unfold completion in Hn. simpl in *.
  destruct (UploadProgress.startUploadSession _ _ _ _) as [[[[]|e] w2] es2];
    simpl in *; [|done].
  by rewrite app_nil_r.
Qed.

Lemma startUploadSession_registers f u md w :
  ∃ s, uploadSessions (world_of (UploadProgress.startUploadSession f u md w)) !! f = Some s
       ∧ bus_record s ∧ Session.userId s = u ∧ Session.metadata s = md.
Proof.
  rewrite run_startUploadSession, broadcastToUser_sessions. simpl.
  rewrite lookup_insert_eq. eexists. split; [done|]. by repeat split.
Qed.

Lemma world_of_ignore {A} (m : M A) (w : World) : world_of (ignore m w) = world_of (m w).
Proof.
  unfold ignore, world_of. rewrite run_bind.
  by destruct (m w) as [[[a|e] w1] es1].
Qed.

End Initialize.

(** * Claims about the chunk manager *)

(** C2.  [initializeChunkedUpload] builds a session object with
    [totalChunks = ceil(size / chunkSize)], an empty [receivedChunks] set and
    an empty [chunkHashes] map, and returns it; what it registers is the
    record of [startUploadSession], whose top-level [totalChunks] is [0],
    which has no [receivedChunks], [chunkHashes] or [tempDir], and which
    carries the real chunk count only inside its [metadata].  Whatever calls
    follow, a session that [getSession] returns is such a record, and the
    index check of [uploadChunk] runs against its [totalChunks] of [0]: every
    index is refused as invalid.  On the same record [assembleFile] stops at
    the missing [receivedChunks], and the loops of [resumeUpload] and
    [validateChunks] run zero times. *)
Theorem getSession_returns_bus_record `{Env}
    (cs1 cs2 : list Call) (t0 : Z) (f u : string) (md : Metadata.t)
    (session : UploadSession.t) :
  completion (ChunkedUpload.initializeChunkedUpload f u md (run cs1 (boot t0)))
    = Normal session →
  (UploadSession.totalChunks session
     = Js.ceil_div (Metadata.size md) ChunkedUpload.chunkSize
   ∧ UploadSession.receivedChunks session = ∅
   ∧ UploadSession.chunkHashes session = ∅
   ∧ UploadSession.tempDir session = tempDir_of u)
  ∧ (∃ s, completion (ChunkedUpload.getSession f
            (run (cs1 ++ [InitializeChunkedUpload f u md]) (boot t0)))
          = Normal (Some s)
        ∧ Session.totalChunks s = 0
        ∧ Session.receivedChunks s = None
        ∧ Session.chunkHashes s = None
        ∧ Session.tempDir s = None
        ∧ Metadata.totalChunks (Session.metadata s)
          = Some (UploadSession.totalChunks session))
  ∧ (∀ s, completion (ChunkedUpload.getSession f
            (run (cs1 ++ [InitializeChunkedUpload f u md] ++ cs2) (boot t0)))
          = Normal (Some s) →
        Session.totalChunks s = 0
        ∧ Session.receivedChunks s = None
        ∧ Session.chunkHashes s = None
        ∧ Session.tempDir s = None
        ∧ (∀ i d h,
             completion (ChunkedUpload.uploadChunk f i d h
               (run (cs1 ++ [InitializeChunkedUpload f u md] ++ cs2) (boot t0)))
             = Thrown ChunkedUpload.invalid_chunk_index)
        ∧ (∀ out,
             completion (ChunkedUpload.assembleFile f out
               (run (cs1 ++ [InitializeChunkedUpload f u md] ++ cs2) (boot t0)))
             = Thrown (undefined_read "size"))
        ∧ (∃ info,
             completion (ChunkedUpload.resumeUpload f
               (run (cs1 ++ [InitializeChunkedUpload f u md] ++ cs2) (boot t0)))
             = Normal info
             ∧ ChunkedUpload.r_totalChunks info = 0
             ∧ ChunkedUpload.r_missingChunks info = [])
        ∧ completion (ChunkedUpload.validateChunks f
            (run (cs1 ++ [InitializeChunkedUpload f u md] ++ cs2) (boot t0)))
          = Normal true).
Proof.
  intros Hinit. rewrite run_initializeChunkedUpload in Hinit.
  unfold completion in Hinit. simpl in Hinit.
  case_decide as Hsize; simpl in Hinit; [done|]. injection Hinit as <-.
  split; [done|]. split.
  - rewrite run_snoc. unfold after. simpl exec. rewrite world_of_ignore.
    rewrite run_initializeChunkedUpload. simpl.
    case_decide; [done|]. simpl.
    destruct (startUploadSession_registers f u
      (Metadata.spread_chunks md
         (Js.ceil_div (Metadata.size md) ChunkedUpload.chunkSize)
         ChunkedUpload.chunkSize)
      (set_dirs (run cs1 (boot t0)) ({[tempDir_of u]} ∪ dirs (run cs1 (boot t0)))))
      as (s & Hs & (Ht & Hr & Hh & Hd) & _ & Hmd).
    exists s. unfold completion, ChunkedUpload.getSession,
      UploadProgress.getSessionStatus, gets. simpl.
    unfold world_of in *. simpl. rewrite Hs. repeat split; try done.
    by rewrite Hmd.
  - intros s Hs. unfold completion, ChunkedUpload.getSession,
      UploadProgress.getSessionStatus, gets in Hs. simpl in Hs.
    injection Hs as Hs.
    destruct (bus_records_run (cs1 ++ [InitializeChunkedUpload f u md] ++ cs2) t0 f s Hs)
      as (Ht & Hr & Hh & Hd).
    split; [done|]. split; [done|]. split; [done|]. split; [done|].
    split; [|split; [|split]].
    + intros i d h. by rewrite (uploadChunk_zero_total _ f i d h s).
    + intros out. by rewrite (assembleFile_no_receivedChunks _ f out s).
    + rewrite (resumeUpload_zero_total _ f s) by done. by eexists.
    + by rewrite (validateChunks_zero_total _ f s).
Qed.

Lemma getSession_returns_bus_record_witness :
  let w := run (H := sample_env)
             ([InitializeChunkedUpload "f1" "u1" (sample_metadata (3 * MiB))] ++
              [UploadChunk "f1" 0 [] None; ResumeUpload "f1"]) (boot 0) in
  ∃ s, uploadSessions w !! "f1" = Some s
       ∧ Session.totalChunks s = 0
       ∧ Metadata.totalChunks (Session.metadata s) = Some 3
       ∧ completion (ChunkedUpload.uploadChunk (H := sample_env) "f1" 2 [] None w)
         = Thrown ChunkedUpload.invalid_chunk_index.
Proof.
  pose proof (getSession_returns_bus_record (H := sample_env) []
    [UploadChunk "f1" 0 [] None; ResumeUpload "f1"] 0 "f1" "u1"
    (sample_metadata (3 * MiB))
    (session_literal (H := sample_env) "f1" "u1" (sample_metadata (3 * MiB)) 0)
    eq_refl) as (_ & _ & Hlater).
  simpl app in Hlater.
  eexists. split; [vm_compute; reflexivity|].
  split; [reflexivity|]. split; [reflexivity|].
  refine (proj1 (proj2 (proj2 (proj2 (proj2 (Hlater _ _))))) 2 [] None).
  vm_compute. reflexivity.
Defined.

(** C9.  [initializeChunkedUpload] throws the file-too-large error exactly
    when [metadata.size > chunkSize * maxChunks], that is above
    [1048576 * 1000] bytes, and it does so before [startUploadSession] runs:
    no session is registered and nothing is sent.  Otherwise it returns its
    session object and the file is registered with the bus. *)
Theorem initializeChunkedUpload_size_limit `{Env}
    (f u : string) (md : Metadata.t) (w : World) :
  ChunkedUpload.chunkSize * ChunkedUpload.maxChunks = 1048576 * 1000
  ∧ ((∃ e, completion (ChunkedUpload.initializeChunkedUpload f u md w) = Thrown e)
     ↔ Metadata.size md > ChunkedUpload.chunkSize * ChunkedUpload.maxChunks)
  ∧ (if decide (Metadata.size md > ChunkedUpload.chunkSize * ChunkedUpload.maxChunks)
     then
       completion (ChunkedUpload.initializeChunkedUpload f u md w)
         = Thrown ChunkedUpload.file_too_large
       ∧ uploadSessions (world_of (ChunkedUpload.initializeChunkedUpload f u md w))
         = uploadSessions w
       ∧ effects_of (ChunkedUpload.initializeChunkedUpload f u md w) = []
     else
       completion (ChunkedUpload.initializeChunkedUpload f u md w)
         = Normal (session_literal f u md (now w))
       ∧ is_Some (uploadSessions
                    (world_of (ChunkedUpload.initializeChunkedUpload f u md w)) !! f)).
Proof.
  split; [reflexivity|].
  rewrite run_initializeChunkedUpload. simpl.
  case_decide as Hsize; simpl.
  - split; [|done]. split; [done | by eexists].
  - split.
    + split; [intros [e He]; done | done].
    + split; [done|].
      destruct (startUploadSession_registers f u
        (Metadata.spread_chunks md
           (Js.ceil_div (Metadata.size md) ChunkedUpload.chunkSize)
           ChunkedUpload.chunkSize)
        (set_dirs w ({[tempDir_of u]} ∪ dirs w))) as (s & Hs & _).
      unfold world_of in *. simpl. by rewrite Hs.
Qed.

(** The two boundary sizes of C9. *)
Example initializeChunkedUpload_at_limit :
  completion (ChunkedUpload.initializeChunkedUpload (H := sample_env) "f1" "u1"
                (sample_metadata (1048576 * 1000)) (boot 0))
  = Normal (session_literal (H := sample_env) "f1" "u1"
              (sample_metadata (1048576 * 1000)) 0).
Proof. vm_compute. reflexivity. Qed.

Example initializeChunkedUpload_above_limit :
  completion (ChunkedUpload.initializeChunkedUpload (H := sample_env) "f1" "u1"
                (sample_metadata (1048576 * 1000 + 1)) (boot 0))
  = Thrown ChunkedUpload.file_too_large.
Proof. vm_compute. reflexivity. Qed.

(** C1 (the code departs from it).  Once a file is registered, [assembleFile]
    neither assembles nor reports missing chunks: the object it gets from
    [getSession] has no [receivedChunks], so the read of
    [session.receivedChunks.size] throws a [TypeError], whatever was uploaded
    before, and no file is written. *)
Theorem assembleFile_throws_TypeError `{Env}
    (cs : list Call) (t0 : Z) (f out : string) (s : Session.t) :
  uploadSessions (run cs (boot t0)) !! f = Some s →
  ChunkedUpload.assembleFile f out (run cs (boot t0))
  = (Thrown (undefined_read "size"), run cs (boot t0), []).
Proof.
  intros Hs. destruct (bus_records_run cs t0 f s Hs) as (_ & Hr & _).
  by apply (assembleFile_no_receivedChunks _ f out s).
Qed.

(** The zero-byte file: [totalChunks] is [0], every index in [[0, 0)] has been
    accepted, and [assembleFile] throws instead of writing the empty file. *)
Lemma assembleFile_throws_TypeError_witness :
  let w := run (H := sample_env)
             [InitializeChunkedUpload "f0" "u1" (sample_metadata 0)] (boot 0) in
  completion (ChunkedUpload.assembleFile "f0" "out/f0" w)
    = Thrown (undefined_read "size")
  ∧ files (world_of (ChunkedUpload.assembleFile "f0" "out/f0" w)) !! "out/f0" = None.
Proof.
  cbv zeta.
  assert (∃ s, uploadSessions
                 (run (H := sample_env)
                    [InitializeChunkedUpload "f0" "u1" (sample_metadata 0)] (boot 0))
               !! "f0" = Some s) as [s Hs]
    by (eexists; vm_compute; reflexivity).
  rewrite (assembleFile_throws_TypeError (H := sample_env) _ 0 "f0" "out/f0" s Hs).
  split; reflexivity.
Defined.

(** A file of three chunks: no chunk is accepted, and [assembleFile] does not
    report the missing chunks either. *)
Example assembleFile_three_chunks :
  let w := run (H := sample_env)
             [InitializeChunkedUpload "f1" "u1" (sample_metadata (3 * MiB));
              UploadChunk "f1" 0 [] None; UploadChunk "f1" 1 [] None;
              UploadChunk "f1" 2 [] None] (boot 0) in
  completion (ChunkedUpload.assembleFile "f1" "out/f1" w)
    = Thrown (undefined_read "size")
  ∧ undefined_read "size" ≠ ChunkedUpload.missing_chunks [0; 1; 2].
Proof. split; [vm_compute; reflexivity | discriminate]. Qed.

(** C3 (the code departs from it).  For a registered file the digest
    comparison of [uploadChunk] is never reached: the call throws
    ['Invalid chunk index'] at the index check, with a matching digest as
    with a mismatching one, and leaves the world as it was. *)
Theorem uploadChunk_never_reaches_digest_check `{Env}
    (cs : list Call) (t0 : Z) (f : string) (s : Session.t)
    (i : Z) (d : list Byte.byte) (h : option string) :
  uploadSessions (run cs (boot t0)) !! f = Some s →
  ChunkedUpload.uploadChunk f i d h (run cs (boot t0))
  = (Thrown ChunkedUpload.invalid_chunk_index, run cs (boot t0), [])
  ∧ ChunkedUpload.invalid_chunk_index ≠ ChunkedUpload.hash_mismatch i.
Proof.
  intros Hs. destruct (bus_records_run cs t0 f s Hs) as (Ht & _).
  split; [by apply (uploadChunk_zero_total _ f i d h s)|].
  unfold ChunkedUpload.invalid_chunk_index, ChunkedUpload.hash_mismatch, mkError.
  intros Heq. injection Heq as Heq. discriminate Heq.
Qed.

(** Chunk [0] of a one-chunk file, first with the digest ["deadbeef"], then
    with the digest of the bytes. *)
Lemma uploadChunk_never_reaches_digest_check_witness :
  let w := run (H := sample_env)
             [InitializeChunkedUpload "f1" "u1" (sample_metadata 4)] (boot 0) in
  let bytes := [Byte.x01; Byte.x02; Byte.x03; Byte.x04] in
  completion (ChunkedUpload.uploadChunk (H := sample_env) "f1" 0 bytes (Some "deadbeef") w)
    = Thrown ChunkedUpload.invalid_chunk_index
  ∧ completion (ChunkedUpload.uploadChunk (H := sample_env) "f1" 0 bytes
                  (Some (md5_hex (Env := sample_env) bytes)) w)
    = Thrown ChunkedUpload.invalid_chunk_index.
Proof.
  cbv zeta.
  assert (∃ s, uploadSessions
                 (run (H := sample_env)
                    [InitializeChunkedUpload "f1" "u1" (sample_metadata 4)] (boot 0))
               !! "f1" = Some s) as [s Hs]
    by (eexists; vm_compute; reflexivity).
  split.
  - exact (f_equal completion
      (proj1 (uploadChunk_never_reaches_digest_check (H := sample_env)
                _ 0 "f1" s 0 _ (Some "deadbeef") Hs))).
  - exact (f_equal completion
      (proj1 (uploadChunk_never_reaches_digest_check (H := sample_env)
                _ 0 "f1" s 0 _ (Some "4") Hs))).
Defined.

(** C10 as stated fails: after [cancelUpload] the session is still
    registered, and [uploadChunk] does not throw ['Upload session not found']. *)
Lemma cancelUpload_keeps_session :
  let w := run (H := sample_env)
             [InitializeChunkedUpload "f1" "u1" (sample_metadata (3 * MiB));
              CancelUpload "f1"] (boot 0) in
  is_Some (uploadSessions w !! "f1")
  ∧ completion (ChunkedUpload.uploadChunk (H := sample_env) "f1" 0 [] None w)
    ≠ Thrown ChunkedUpload.session_not_found.
Proof. split; [by eexists | vm_compute; discriminate]. Qed.

Section Cancel.
Context `{Env}.

Lemma cleanupChunks_sessions (s : Session.t) (w : World) :
  uploadSessions (world_of (ChunkedUpload.cleanupChunks s w)) = uploadSessions w
  ∧ now (world_of (ChunkedUpload.cleanupChunks s w)) = now w.
Proof.
  apply (ok_cleanupChunks
    (λ w', uploadSessions w' = uploadSessions w ∧ now w' = now w) any_step any_effect);
    try done.
Qed.

Lemma cleanupChunks_normal (s : Session.t) (w : World) :
  completion (ChunkedUpload.cleanupChunks s w) = Normal tt.
Proof.
  unfold ChunkedUpload.cleanupChunks, completion. rewrite run_try_catch.
  by destruct (match Session.tempDir s with _ => _ end w) as [[[[]|e] w1] es1].
Qed.

Lemma cancelUpload_sessions (f : string) (s : Session.t) (w : World) :
  uploadSessions w !! f = Some s →
  uploadSessions (world_of (ChunkedUpload.cancelUpload f w))
  = <[f := Session.set_error s "Upload cancelled" false]> (uploadSessions w).
Proof.
  intros Hs. unfold ChunkedUpload.cancelUpload, ChunkedUpload.getSession,
    UploadProgress.getSessionStatus, world_of.
  rewrite run_bind. simpl. rewrite Hs. simpl. rewrite run_bind.
  pose proof (cleanupChunks_normal s w) as Hn.
  destruct (cleanupChunks_sessions s w) as [Hu _].
  unfold completion, world_of in *.
  destruct (ChunkedUpload.cleanupChunks s w) as [[[[]|e] w1] es1]; simpl in *; [|done].
  rewrite run_handleUploadError, Hu, Hs.
  pose proof (broadcastToUser_sessions (Session.userId s)
    (upload_error f "Upload cancelled" false (now w1))
    (set_uploadSessions w1
       (<[f := Session.set_error s "Upload cancelled" false]> (uploadSessions w1)))) as Hb.
  unfold world_of in Hb. simpl in *. by rewrite Hu in Hb.
Qed.

End Cancel.

(** C10, amended.  [cancelUpload] on a registered file keeps the session
    object in [uploadSessions]: it marks it with [status = 'error'],
    [error = 'Upload cancelled'] and [retryable = false], and a later
    [uploadChunk] for the file does not throw ['Upload session not found']. *)
Theorem cancelUpload_marks_session `{Env}
    (cs : list Call) (t0 : Z) (f : string) (s : Session.t) :
  uploadSessions (run cs (boot t0)) !! f = Some s →
  ∃ s', uploadSessions (run (cs ++ [CancelUpload f]) (boot t0)) !! f = Some s'
        ∧ Session.status s' = "error"
        ∧ Session.error s' = Some "Upload cancelled"
        ∧ Session.retryable s' = Some false
        ∧ Session.userId s' = Session.userId s
        ∧ ∀ i d h,
            completion (ChunkedUpload.uploadChunk f i d h
                          (run (cs ++ [CancelUpload f]) (boot t0)))
            ≠ Thrown ChunkedUpload.session_not_found.
Proof.
  intros Hs. exists (Session.set_error s "Upload cancelled" false).
  assert (uploadSessions (run (cs ++ [CancelUpload f]) (boot t0)) !! f
          = Some (Session.set_error s "Upload cancelled" false)) as Hs'.
  { rewrite run_snoc. unfold after. simpl exec.
    rewrite (cancelUpload_sessions f s _ Hs). by rewrite lookup_insert_eq. }
  repeat split; try done.
  intros i d h.
  destruct (bus_records_run (cs ++ [CancelUpload f]) t0 f _ Hs') as (Ht & _).
  rewrite (uploadChunk_zero_total _ f i d h _ Hs' Ht). simpl. discriminate.
Qed.

Lemma cancelUpload_marks_session_witness :
  ∃ s', uploadSessions
          (run (H := sample_env)
             ([InitializeChunkedUpload "f1" "u1" (sample_metadata (3 * MiB))] ++
              [CancelUpload "f1"]) (boot 0)) !! "f1" = Some s'
        ∧ Session.status s' = "error"
        ∧ Session.retryable s' = Some false.
Proof.
  destruct (cancelUpload_marks_session (H := sample_env)
    [InitializeChunkedUpload "f1" "u1" (sample_metadata (3 * MiB))] 0 "f1" _ eq_refl)
    as (s' & Hs' & Hst & _ & Hre & _).
  exists s'. repeat split; assumption.
Defined.

(** * Stepping through a method body

    The rules of [wp], one per construct of the monad. *)

Lemma wp_ret {A} (a : A) w Q : Q (Normal a) w [] → wp (mret a) w Q.
Proof. done. Qed.

Lemma wp_throw {A} (e : Error) w Q : Q (Thrown e) w [] → wp (@throw A e) w Q.
Proof. done. Qed.

Lemma wp_gets {A} (g : World → A) w Q : Q (Normal (g w)) w [] → wp (gets g) w Q.
Proof. done. Qed.

Lemma wp_modify (g : World → World) w Q : Q (Normal tt) (g w) [] → wp (modify g) w Q.
Proof. done. Qed.

Lemma wp_tell (es : list Effect) w Q : Q (Normal tt) w es → wp (tell es) w Q.
Proof. done. Qed.

Lemma wp_bind {A B} (m : M A) (f : A → M B) w Q :
  wp m w (λ c w1 es1,
    match c with
    | Normal a => wp (f a) w1 (λ c' w2 es2, Q c' w2 (es1 ++ es2))
    | Thrown e => Q (Thrown e) w1 es1
    end) →
  wp (m ≫= f) w Q.
Proof.
  unfold wp, completion, world_of, effects_of. rewrite run_bind.
  by destruct (m w) as [[[a|e] w1] es1].
Qed.

Lemma wp_get_bind {B} (f : World → M B) w Q : wp (f w) w Q → wp (get ≫= f) w Q.
Proof. unfold wp. by rewrite run_get_bind. Qed.

Lemma wp_modify_bind {B} (g : World → World) (f : unit → M B) w Q :
  wp (f tt) (g w) Q → wp (modify g ≫= f) w Q.
Proof. unfold wp. by rewrite run_modify_bind. Qed.

Lemma wp_try_catch {A} (m : M A) (h : Error → M A) w Q :
  wp m w (λ c w1 es1,
    match c with
    | Normal a => Q (Normal a) w1 es1
    | Thrown e => wp (h e) w1 (λ c' w2 es2, Q c' w2 (es1 ++ es2))
    end) →
  wp (try_catch m h) w Q.
Proof.
  unfold wp, completion, world_of, effects_of. rewrite run_try_catch.
  by destruct (m w) as [[[a|e] w1] es1].
Qed.

(** * Idempotence of [uploadChunk] *)

Section Idempotence.
Context `{Env}.

(** [uploadChunk] on a chunk that was already received. *)
Lemma run_uploadChunk_received f i d h w s received :
  uploadSessions w !! f = Some s →
  ¬ (i >= Session.totalChunks s ∨ i < 0) →
  Session.receivedChunks s = Some received →
  i ∈ received →
  ChunkedUpload.uploadChunk f i d h w = (Normal ChunkedUpload.AlreadyReceived, w, []).
Proof.
  intros Hs Hi Hr Hin. unfold ChunkedUpload.uploadChunk, ChunkedUpload.getSession,
    UploadProgress.getSessionStatus.
  rewrite run_bind. simpl. rewrite Hs. simpl.
  case_decide; [done|]. rewrite Hr. by case_decide.
Qed.

Lemma updateChunkProgress_sessions f i total w s :
  uploadSessions w !! f = Some s →
  completion (UploadProgress.updateChunkProgress f i total true w) = Normal tt
  ∧ uploadSessions (world_of (UploadProgress.updateChunkProgress f i total true w))
    = <[f := Session.set_progress
               (Session.set_chunk_counters s total (Session.completedChunks s + 1)
                  (<[i := true]> (Session.chunks s)))
               (Js.clamp01 (Js.div (Session.completedChunks s + 1) total))
               "uploading" (now w)]> (uploadSessions w).
Proof.
  intros Hs. rewrite run_updateChunkProgress, Hs. cbv zeta.
  rewrite run_updateProgress. simpl uploadSessions. rewrite lookup_insert_eq.
  split; [apply broadcastToUser_normal|].
  rewrite broadcastToUser_sessions. simpl. by rewrite insert_insert_eq.
Qed.

Lemma uploadChunk_stores f i d h w s received :
  uploadSessions w !! f = Some s →
  Session.receivedChunks s = Some received →
  i ∉ received →
  wp (ChunkedUpload.uploadChunk f i d h) w (λ c w' _,
    ∀ r, c = Normal r →
      ¬ (i >= Session.totalChunks s ∨ i < 0)
      ∧ ∃ hashes,
          uploadSessions w' !! f
          = Some (stored_session s i (md5_hex d) (now w) received hashes)).
Proof.
  intros Hs Hr Hin. unfold ChunkedUpload.uploadChunk.
  apply wp_bind, wp_gets. rewrite Hs.
  case_decide as Hi; [by apply wp_throw|]. rewrite Hr.
  case_decide; [done|].
  apply wp_bind.
  assert (∀ Q : Completion () → World → list Effect → Prop,
            Q (Normal tt) w [] → (∀ e, Q (Thrown e) w []) →
            wp (match ChunkedUpload.truthy h with
                | Some expected =>
                    if decide (md5_hex d ≠ expected)
                    then throw (ChunkedUpload.hash_mismatch i) else mret tt
                | None => mret tt
                end) w Q) as Hcheck.
  { intros Q Hn Ht. destruct (ChunkedUpload.truthy h); [case_decide|];
      first [by apply wp_throw | by apply wp_ret]. }
  apply Hcheck; [|done]. clear Hcheck.
  apply wp_bind. unfold ChunkedUpload.chunk_path.
  destruct (Session.tempDir s) as [dir|]; [apply wp_ret | by apply wp_throw].
  apply wp_bind. unfold Fs.writeFile. apply wp_get_bind.
  case_decide; [apply wp_modify | by apply wp_throw].
  unfold ChunkedUpload.mutate_session. apply wp_modify_bind. apply wp_bind.
  destruct (Session.chunkHashes s) as [hashes|]; [apply wp_modify | by apply wp_throw].
  apply wp_get_bind. apply wp_modify_bind. apply wp_bind.
  match goal with |- wp _ ?w3 _ => set (w' := w3) end.
  assert (uploadSessions w' !! f
          = Some (Session.set_lastActivity
                    (Session.set_chunkHashes
                       (Session.set_receivedChunks s ({[i]} ∪ received))
                       (<[i := md5_hex d]> hashes)) (now w))) as Hs'.
  { subst w'. simpl. rewrite !lookup_alter_eq. simpl. by rewrite Hs. }
  assert (now w' = now w) as Hnow by done.
  clearbody w'.
  unfold wp at 1.
  destruct (updateChunkProgress_sessions f i (Session.totalChunks s) w' _ Hs')
    as [Hc Hu].
  rewrite Hc. apply wp_ret. intros r _. split; [done|]. exists hashes.
  rewrite Hu, lookup_insert_eq, Hnow. done.
Qed.

(** C4.  When [uploadChunk(fileId, i, bytes)] has returned successfully, a
    second call with the same index and bytes returns
    [{ success: true, alreadyReceived: true }], sends nothing and leaves the
    world exactly as the first call left it (the second call does not even
    touch [lastActivity]).  The statement is about the method on every world
    in which its first call succeeds, that is on session objects that carry
    [receivedChunks], [chunkHashes] and [tempDir]. *)
Theorem uploadChunk_idempotent (f : string) (i : Z) (d : list Byte.byte)
    (h : option string) (w : World) (r : ChunkedUpload.ChunkResult) :
  completion (ChunkedUpload.uploadChunk f i d h w) = Normal r →
  ChunkedUpload.uploadChunk f i d h (world_of (ChunkedUpload.uploadChunk f i d h w))
  = (Normal ChunkedUpload.AlreadyReceived,
     world_of (ChunkedUpload.uploadChunk f i d h w), []).
Proof.
  intros Hr.
  destruct (uploadSessions w !! f) as [s|] eqn:Hs;
    [|by rewrite uploadChunk_no_session in Hr].
  destruct (decide (i >= Session.totalChunks s ∨ i < 0)) as [Hi|Hi].
  { revert Hr. unfold ChunkedUpload.uploadChunk, ChunkedUpload.getSession,
      UploadProgress.getSessionStatus, completion.
    rewrite run_bind. simpl. rewrite Hs. simpl. by case_decide. }
  destruct (Session.receivedChunks s) as [received|] eqn:Hrc.
  2: { revert Hr. unfold ChunkedUpload.uploadChunk, ChunkedUpload.getSession,
         UploadProgress.getSessionStatus, completion.
       rewrite run_bind. simpl. rewrite Hs. simpl.
       case_decide; [done|]. by rewrite Hrc. }
  destruct (decide (i ∈ received)) as [Hin|Hin].
  - rewrite (run_uploadChunk_received f i d h w s received) by done.
    by apply (run_uploadChunk_received f i d h w s received).
  - destruct (uploadChunk_stores f i d h w s received Hs Hrc Hin r Hr)
      as (_ & hashes & Hs').
    apply (run_uploadChunk_received f i d h _ _ ({[i]} ∪ received) Hs'); try done.
    set_solver.
Qed.

End Idempotence.

Lemma uploadChunk_idempotent_witness :
  let bytes := [Byte.x01; Byte.x02; Byte.x03] in
  let first := ChunkedUpload.uploadChunk (H := sample_env) "f1" 1 bytes None
                 (merged_world (3 * MiB)) in
  completion first = Normal (ChunkedUpload.Stored (Js.Fin (1 # 3)) 1 3)
  ∧ ChunkedUpload.uploadChunk (H := sample_env) "f1" 1 bytes None (world_of first)
    = (Normal ChunkedUpload.AlreadyReceived, world_of first, []).
Proof.
  cbv zeta. split; [vm_compute; reflexivity|].
  apply (uploadChunk_idempotent (H := sample_env) "f1" 1 _ None
           (merged_world (3 * MiB)) (ChunkedUpload.Stored (Js.Fin (1 # 3)) 1 3)).
  vm_compute. reflexivity.
Defined.

(** ** The method bodies on a merged session object

    On a session object that has the fields of the literal of
    [initializeChunkedUpload], the bodies of [uploadChunk] and
    [assembleFile] do what C3 and C1 describe. *)

Example uploadChunk_digest_check_on_merged_session :
  let bytes := [Byte.x01; Byte.x02; Byte.x03] in
  let w := merged_world 3 in
  ChunkedUpload.uploadChunk (H := sample_env) "f1" 0 bytes (Some "deadbeef") w
  = (Thrown (ChunkedUpload.hash_mismatch 0), w, [])
  ∧ completion (ChunkedUpload.uploadChunk (H := sample_env) "f1" 0 bytes
                  (Some (md5_hex (Env := sample_env) bytes)) w)
    = Normal (ChunkedUpload.Stored (Js.Fin 1) 1 1).
Proof. vm_compute. split; reflexivity. Qed.

Example assembleFile_on_merged_session :
  let bytes := [Byte.x01; Byte.x02; Byte.x03] in
  let w := world_of (ChunkedUpload.uploadChunk (H := sample_env) "f1" 0 bytes None
                       (merged_world 3)) in
  completion (ChunkedUpload.assembleFile "f1" "out/f1" w)
  = Normal {| ChunkedUpload.filePath := "out/f1"; ChunkedUpload.size := 3 |}
  ∧ files (world_of (ChunkedUpload.assembleFile "f1" "out/f1" w)) !! "out/f1"
    = Some bytes
  ∧ completion (ChunkedUpload.assembleFile "f1" "out/f1" (merged_world (3 * MiB)))
    = Thrown (ChunkedUpload.missing_chunks [0; 1; 2]).
Proof. vm_compute. repeat split; reflexivity. Qed.

(** * Backoff *)

(** ** Rounding to a double *)

Lemma round_half_even_le (q : Q) (z : Z) :
  (q <= inject_Z z)%Q → Js.round_half_even q ≤ z.
Proof.
  intros Hq. unfold Js.round_half_even.
  pose proof (Qfloor_le q) as Hf.
  assert (Qfloor q ≤ z) as Hfz.
  { rewrite <- (Qfloor_Z z). by apply Qfloor_resp_le. }
  destruct (Qcompare_spec (q - inject_Z (Qfloor q)) (1 # 2)) as [He|Hl|Hg]; [|done|].
  - destruct (Z.even (Qfloor q)); [done|].
    assert (inject_Z (Qfloor q) < inject_Z z)%Q as Hlt by lra.
    rewrite <- Zlt_Qlt in Hlt. lia.
  - assert (inject_Z (Qfloor q) < inject_Z z)%Q as Hlt by lra.
    rewrite <- Zlt_Qlt in Hlt. lia.
Qed.

Lemma round_half_even_ge (q : Q) (z : Z) :
  (inject_Z z <= q)%Q → z ≤ Js.round_half_even q.
Proof.
  intros Hq. unfold Js.round_half_even.
  assert (z ≤ Qfloor q) as Hfz.
  { rewrite <- (Qfloor_Z z). by apply Qfloor_resp_le. }
  destruct (Qcompare _ _); [destruct (Z.even _)| |]; lia.
Qed.

Lemma ilog2_le (q : Q) : (0 < q)%Q → (Qpower 2 (Js.ilog2 q) <= q)%Q.
Proof.
  intros Hq. unfold Js.ilog2.
  destruct (Qle_bool _ q) eqn:Hb; [by apply Qle_bool_iff|].
  destruct q as [n d]. simpl Qnum. simpl Qden.
  assert (0 < n) as Hn by (unfold Qlt in Hq; simpl in Hq; lia).
  pose proof (Z.log2_spec n Hn) as [Ha _].
  pose proof (Z.log2_spec (Z.pos d) eq_refl) as [_ Hb'].
  pose proof (Z.log2_nonneg n) as Ha0. pose proof (Z.log2_nonneg (Z.pos d)) as Hb0.
  replace (Z.log2 n - Z.log2 (Z.pos d) - 1) with (Z.log2 n - Z.succ (Z.log2 (Z.pos d)))
    by lia.
  rewrite Qpower_minus by done.
  rewrite <- !(Zpower_Qpower 2) by lia.
  set (A := 2 ^ Z.log2 n) in *. set (B := 2 ^ Z.succ (Z.log2 (Z.pos d))) in *.
  assert (0 < A) by (apply Z.pow_pos_nonneg; lia).
  rewrite (Qmake_Qdiv n d).
  apply Qle_shift_div_l; [replace 0%Q with (inject_Z 0) by done; rewrite <- Zlt_Qlt; lia|].
  unfold Qdiv. rewrite <- Qmult_assoc, (Qmult_comm (/ _)), Qmult_assoc.
  apply Qle_shift_div_r; [replace 0%Q with (inject_Z 0) by done; rewrite <- Zlt_Qlt; lia|].
  rewrite <- !inject_Z_mult, <- Zle_Qle. nia.
Qed.

(** Below [2^53] the doubles include the integers, and rounding does not
    cross an integer. *)
Lemma round64_int_bounds (x : Q) (z : Z) :
  (Qabs x < inject_Z (2 ^ 53))%Q →
  ((x <= inject_Z z)%Q → (Js.round64 x <= inject_Z z)%Q)
  ∧ ((inject_Z z <= x)%Q → (inject_Z z <= Js.round64 x)%Q).
Proof.
  intros Hx. unfold Js.round64.
  destruct (Qeq_bool x 0) eqn:H0.
  { apply Qeq_bool_iff in H0. split; intros; lra. }
  apply Qeq_bool_neq in H0.
  assert (0 < Qabs x)%Q as Hpos.
  { apply Qabs_case; intros Hs; destruct (Qeq_dec x 0) as [He|He]; try done; lra. }
  set (e := Z.max (Js.ilog2 (Qabs x)) (-1022)).
  assert (e ≤ 52) as He.
  { pose proof (ilog2_le (Qabs x) Hpos) as Hl.
    assert (Qpower 2 (Js.ilog2 (Qabs x)) < Qpower 2 53)%Q as Hlt.
    { rewrite <- (Zpower_Qpower 2 53) by lia. lra. }
    apply Qpower_lt_compat_l_inv in Hlt; [|lra]. unfold e. lia. }
  set (K := 2 ^ (52 - e)).
  assert (0 < K) as HK by (apply Z.pow_pos_nonneg; lia).
  assert (Qpower 2 (e - 52) * inject_Z K == 1)%Q as Hu.
  { unfold K. rewrite (Zpower_Qpower 2) by lia. rewrite <- Qpower_plus by done.
    replace (e - 52 + (52 - e)) with 0 by lia. reflexivity. }
  assert (0 < Qpower 2 (e - 52))%Q as Hupos by (apply Qpower_0_lt; lra).
  set (u := Qpower 2 (e - 52)) in *.
  assert (0 < inject_Z K)%Q as HKpos.
  { replace 0%Q with (inject_Z 0) by done. by rewrite <- Zlt_Qlt. }
  assert (x / u == x * inject_Z K)%Q as Hdiv.
  { apply (Qmult_inj_r _ _ u); [lra|]. unfold Qdiv.
    rewrite <- !Qmult_assoc, (Qmult_comm (/ u)), Qmult_inv_r by lra.
    rewrite (Qmult_comm (inject_Z K)), Hu. reflexivity. }
  split; intros Hz.
  - assert (Js.round_half_even (x / u) ≤ z * K) as Hr.
    { apply round_half_even_le. rewrite Hdiv, inject_Z_mult. nra. }
    rewrite Zle_Qle, inject_Z_mult in Hr. nra.
  - assert (z * K ≤ Js.round_half_even (x / u)) as Hr.
    { apply round_half_even_ge. rewrite Hdiv, inject_Z_mult. nra. }
    rewrite Zle_Qle, inject_Z_mult in Hr. nra.
Qed.

(** The doubles nearest to [0.1] and [0.3], and two ties above [2^53]. *)
Example round64_known_values :
  Qred (Js.round64 (1 # 10)) = (3602879701896397 # 36028797018963968)%Q
  ∧ Qred (Js.round64 (3 # 10)) = (5404319552844595 # 18014398509481984)%Q
  ∧ Qred (Js.round64 (inject_Z (2 ^ 53 + 1))) = inject_Z (2 ^ 53)
  ∧ Qred (Js.round64 (inject_Z (2 ^ 53 + 3))) = inject_Z (2 ^ 53 + 4).
Proof. vm_compute. repeat split; reflexivity. Qed.

(** ** The delay *)

Section Backoff.
Import ErrorRecovery.

Lemma cappedDelay_capped (n : Z) : 1 ≤ n → (cappedDelay n == inject_Z (capped n))%Q.
Proof.
  intros Hn. unfold cappedDelay, capped.
  assert (Qpower 2 (n - 1) == inject_Z (2 ^ (n - 1)))%Q as ->.
  { rewrite Zpower_Qpower by lia. reflexivity. }
  rewrite <- inject_Z_mult.
  destruct (Z.le_ge_cases (baseDelay * 2 ^ (n - 1)) maxDelay) as [Hle|Hle].
  - rewrite Z.min_l by done. apply Q.min_l. by rewrite <- Zle_Qle.
  - rewrite Z.min_r by done. apply Q.min_r. by rewrite <- Zle_Qle.
Qed.

Lemma capped_pos (n : Z) : 1 ≤ n → 0 < capped n.
Proof.
  intros Hn. unfold capped, baseDelay, maxDelay.
  assert (0 < 2 ^ (n - 1)) by (apply Z.pow_pos_nonneg; lia). lia.
Qed.

Lemma capped_succ (n : Z) : 1 ≤ n → capped (n + 1) = Z.min (2 * capped n) maxDelay.
Proof.
  intros Hn. unfold capped. replace (n + 1 - 1) with (Z.succ (n - 1)) by lia.
  rewrite Z.pow_succ_r by lia. unfold baseDelay, maxDelay. lia.
Qed.

(** The six values of the capped delay, as the very number that
    [calculateBackoffDelay] goes on with. *)
Lemma cappedDelay_cases (n : Z) :
  1 ≤ n →
  ∃ c, c ∈ [1000; 2000; 4000; 8000; 16000; 30000]
       ∧ capped n = c ∧ cappedDelay n = inject_Z c.
Proof.
  intros Hn. destruct (decide (n ≤ 5)) as [Hle|Hgt].
  - assert (n = 1 ∨ n = 2 ∨ n = 3 ∨ n = 4 ∨ n = 5) as Hc by lia.
    destruct Hc as [->|[->|[->|[->| ->]]]]; eexists;
      (split; [|split; [reflexivity | reflexivity]]); set_solver.
  - exists 30000.
    assert (2 ^ 5 ≤ 2 ^ (n - 1)) as Hpow by (apply Z.pow_le_mono_r; lia).
    split; [set_solver|]. split.
    + unfold capped, baseDelay, maxDelay. lia.
    + unfold cappedDelay, Qmin, GenericMinMax.gmin.
      assert (inject_Z maxDelay < inject_Z baseDelay * Qpower 2 (n - 1))%Q as Hlt.
      { rewrite <- (Zpower_Qpower 2) by lia. rewrite <- inject_Z_mult, <- Zlt_Qlt.
        unfold baseDelay, maxDelay. lia. }
      apply Qgt_alt in Hlt. by rewrite Hlt.
Qed.

(** The sum of a delay [c] and its jitter, when a tenth of [c] in doubles is
    the integer [t]. *)
Lemma jittered_bounds (c t : Z) (random : Q) :
  0 ≤ c → 0 ≤ t → c + t < 2 ^ 53 →
  (Js.mul (inject_Z c) jitter == inject_Z t)%Q →
  (0 <= random)%Q → (random < 1)%Q →
  c ≤ Qfloor (Js.add (inject_Z c) (Js.mul (Js.mul (inject_Z c) jitter) random)) ≤ c + t.
Proof.
  intros Hc Ht Hsmall Htenth Hr0 Hr1.
  set (x := Js.mul (inject_Z c) jitter) in *.
  assert (0 <= inject_Z c)%Q as Hc' by (replace 0%Q with (inject_Z 0) by done; by rewrite <- Zle_Qle).
  assert (0 <= inject_Z t)%Q as Ht' by (replace 0%Q with (inject_Z 0) by done; by rewrite <- Zle_Qle).
  assert (inject_Z c + inject_Z t < inject_Z (2 ^ 53))%Q as Hs'.
  { rewrite <- inject_Z_plus, <- Zlt_Qlt. done. }
  assert (0 <= x * random)%Q as Hp0 by nra.
  assert (x * random <= inject_Z t)%Q as Hp1 by nra.
  assert (0 <= Js.mul x random <= inject_Z t)%Q as [Hj0 Hj1].
  { unfold Js.mul.
    destruct (round64_int_bounds (x * random) 0) as [_ Hlo];
      [apply Qabs_case; intros; lra|].
    destruct (round64_int_bounds (x * random) t) as [Hhi _];
      [apply Qabs_case; intros; lra|].
    split; [by apply Hlo | by apply Hhi]. }
  set (j := Js.mul x random) in *.
  assert (inject_Z c <= Js.add (inject_Z c) j <= inject_Z (c + t))%Q as [Hs0 Hs1].
  { unfold Js.add.
    destruct (round64_int_bounds (inject_Z c + j) c) as [_ Hlo];
      [apply Qabs_case; intros; lra|].
    destruct (round64_int_bounds (inject_Z c + j) (c + t)) as [Hhi _];
      [apply Qabs_case; intros; lra|].
    split; [apply Hlo; lra | apply Hhi; rewrite inject_Z_plus; lra]. }
  pose proof (Qfloor_resp_le _ _ Hs0) as Hf0. pose proof (Qfloor_resp_le _ _ Hs1) as Hf1.
  rewrite Qfloor_Z in Hf0, Hf1. done.
Qed.

End Backoff.

(** C7 as stated fails at its upper end.  The sum is taken in doubles: for
    the draw [1 - 2^-52] the jitter amount of the first attempt is
    [100 - 2^-45], the sum [1100 - 2^-45] rounds to [1100], and the delay
    returned is the capped delay plus a full tenth of it.  (For the draw
    [0.3] the delay is [1030].) *)
Lemma backoff_jitter_reaches_a_tenth :
  let random := (1 - 1 / inject_Z (2 ^ 52))%Q in
  (0 <= random)%Q ∧ (random < 1)%Q
  ∧ (Js.round64 random == random)%Q
  ∧ capped 1 = 1000
  ∧ ErrorRecovery.calculateBackoffDelay 1 random = 1100
  ∧ ¬ (inject_Z (ErrorRecovery.calculateBackoffDelay 1 random - capped 1)
       < (1 # 10) * inject_Z (capped 1))%Q
  ∧ ErrorRecovery.calculateBackoffDelay 1 (Js.round64 (3 # 10)) = 1030.
Proof.
  cbv zeta. split; [by vm_compute|]. split; [by vm_compute|].
  split; [by vm_compute|]. split; [reflexivity|].
  split; [by vm_compute|]. split; [|by vm_compute].
  assert (ErrorRecovery.calculateBackoffDelay 1 (1 - 1 / inject_Z (2 ^ 52)) = 1100) as ->
    by (by vm_compute).
  by vm_compute.
Qed.

(** C7, amended.  For an attempt number [n >= 1] and a draw [random] of
    [Math.random()] in [[0, 1)], the non-jittered delay is
    [min(maxDelay, baseDelay * 2^(n-1))] with [baseDelay = 1000] and
    [maxDelay = 30000]; the delay that [calculateBackoffDelay] returns is
    that value plus a whole number of milliseconds between [0] and a tenth
    of it, both ends included.  From one attempt to the next the
    non-jittered delay doubles until the cap applies, so it never
    decreases. *)
Theorem calculateBackoffDelay_bounds (n : Z) (random : Q) :
  1 ≤ n → (0 <= random)%Q → (random < 1)%Q →
  ErrorRecovery.baseDelay = 1000 ∧ ErrorRecovery.maxDelay = 30000
  ∧ (ErrorRecovery.cappedDelay n
     == inject_Z (Z.min ErrorRecovery.maxDelay (ErrorRecovery.baseDelay * 2 ^ (n - 1))))%Q
  ∧ (∃ j : Z,
       ErrorRecovery.calculateBackoffDelay n random = capped n + j
       ∧ 0 ≤ j
       ∧ (inject_Z j <= (1 # 10) * inject_Z (capped n))%Q)
  ∧ capped (n + 1) = Z.min (2 * capped n) ErrorRecovery.maxDelay
  ∧ (ErrorRecovery.baseDelay * 2 ^ n ≤ ErrorRecovery.maxDelay →
     capped (n + 1) = 2 * capped n)
  ∧ capped n ≤ capped (n + 1).
Proof.
  intros Hn Hr0 Hr1.
  pose proof (cappedDelay_capped n Hn) as Hc.
  pose proof (capped_succ n Hn) as Hsucc.
  split; [done|]. split; [done|].
  split; [by rewrite Z.min_comm|].
  split.
  { destruct (cappedDelay_cases n Hn) as (c & Hin & Hcap & Hdelay).
    exists (ErrorRecovery.calculateBackoffDelay n random - capped n).
    split; [lia|].
    assert (c ≤ ErrorRecovery.calculateBackoffDelay n random ≤ c + c / 10) as Hb.
    { unfold ErrorRecovery.calculateBackoffDelay. rewrite Hdelay.
      repeat (apply elem_of_cons in Hin as [->|Hin];
              [apply jittered_bounds; [done | done | done | by vm_compute | done | done]|]).
      by apply elem_of_nil in Hin. }
    rewrite Hcap. split; [lia|].
    assert (10 * (ErrorRecovery.calculateBackoffDelay n random - c) ≤ c) as Hten.
    { pose proof (Z.mul_div_le c 10 eq_refl). lia. }
    rewrite Zle_Qle, inject_Z_mult in Hten.
    change (inject_Z 10) with (10 # 1)%Q in Hten. lra. }
  split; [done|]. split.
  - intros Hle. rewrite Hsucc.
    assert (2 ^ n = 2 * 2 ^ (n - 1)) as Hpow.
    { rewrite <- Z.pow_succ_r by lia. f_equal. lia. }
    unfold capped, ErrorRecovery.baseDelay, ErrorRecovery.maxDelay in *. lia.
  - rewrite Hsucc. unfold capped, ErrorRecovery.baseDelay, ErrorRecovery.maxDelay in *. lia.
Qed.

(** The attempts [1 .. 7] with the defaults: 1 s, 2 s, 4 s, 8 s, 16 s, then
    the cap of 30 s. *)
Example capped_table :
  map capped [1; 2; 3; 4; 5; 6; 7] = [1000; 2000; 4000; 8000; 16000; 30000; 30000].
Proof. reflexivity. Qed.

Lemma calculateBackoffDelay_bounds_witness :
  ErrorRecovery.calculateBackoffDelay 2 (3 # 4) = 2150
  ∧ ∃ j : Z, ErrorRecovery.calculateBackoffDelay 2 (3 # 4) = capped 2 + j
             ∧ 0 ≤ j ∧ (inject_Z j <= (1 # 10) * inject_Z (capped 2))%Q.
Proof.
  split; [by vm_compute|].
  refine (proj1 (proj2 (proj2 (proj2
    (calculateBackoffDelay_bounds 2 (3 # 4) _ _ _))))).
  - lia.
  - unfold Qle. simpl. lia.
  - unfold Qlt. simpl. lia.
Defined.

(** * The retry table *)

Section Retry_table.
Context `{Env}.
Import ErrorRecovery.

Lemma broadcastToUser_retryAttempts u m w :
  retryAttempts (world_of (UploadProgress.broadcastToUser u m w)) = retryAttempts w.
Proof. rewrite run_broadcastToUser. by destruct (clients w !! u). Qed.

Lemma handleUploadError_retryAttempts f e r w :
  completion (UploadProgress.handleUploadError f e r w) = Normal tt
  ∧ retryAttempts (world_of (UploadProgress.handleUploadError f e r w)) = retryAttempts w.
Proof.
  rewrite run_handleUploadError. destruct (uploadSessions w !! f); [|done].
  split; [apply broadcastToUser_normal | by rewrite broadcastToUser_retryAttempts].
Qed.

Lemma updateProgress_retryAttempts f p s w :
  retryAttempts (world_of (UploadProgress.updateProgress f p s w)) = retryAttempts w.
Proof.
  rewrite run_updateProgress. destruct (uploadSessions w !! f); [|done].
  by rewrite broadcastToUser_retryAttempts.
Qed.

Lemma completeUpload_retryAttempts f w :
  retryAttempts (world_of (UploadProgress.completeUpload f w)) = retryAttempts w.
Proof.
  rewrite run_completeUpload. destruct (uploadSessions w !! f); [|done].
  cbv zeta. unfold world_of. simpl.
  match goal with |- context [UploadProgress.broadcastToUser ?u ?m ?w1] =>
    exact (broadcastToUser_retryAttempts u m w1) end.
Qed.

Lemma updateChunkProgress_retryAttempts f i t c w :
  retryAttempts (world_of (UploadProgress.updateChunkProgress f i t c w))
  = retryAttempts w.
Proof.
  rewrite run_updateChunkProgress. destruct (uploadSessions w !! f); [|done].
  cbv zeta. by rewrite updateProgress_retryAttempts.
Qed.

Lemma startUploadSession_retryAttempts f u md w :
  retryAttempts (world_of (UploadProgress.startUploadSession f u md w)) = retryAttempts w.
Proof. rewrite run_startUploadSession. by rewrite broadcastToUser_retryAttempts. Qed.

(** What one call of [handleError] does: the action it returns and the
    retry table it leaves. *)
Lemma handleError_spec f e c random w :
  wp (handleError f e c random) w (λ r w' _,
    let a := attempts_of w f + 1 in
    if (negb (isRetryableError e (categorizeError e))
        || bool_decide (a >= maxRetries))%bool
    then
      r = Normal (Failure a (message e) (RetryInfo.errorHistory (bumped w f e)))
      ∧ retryAttempts w' = delete f (retryAttempts w)
    else
      r = Normal (Retry (calculateBackoffDelay a random) a maxRetries (categorizeError e))
      ∧ retryAttempts w' = <[f := bumped w f e]> (retryAttempts w)).
Proof.
  unfold handleError. apply wp_bind. unfold getRetryInfo. apply wp_get_bind.
  unfold attempts_of, bumped.
  destruct (retryAttempts w !! f) as [info0|] eqn:Hf; simpl.
  - apply wp_ret. apply wp_get_bind, wp_modify_bind.
    destruct (negb _ || _)%bool eqn:Hb.
    + unfold handleFinalFailure, cleanup. apply wp_modify_bind, wp_bind.
      unfold wp at 1.
      match goal with |- context [UploadProgress.handleUploadError f e false ?w1] =>
        destruct (handleUploadError_retryAttempts f e false w1) as [Hc Hu] end.
      rewrite Hc. apply wp_ret. split; [done|]. rewrite Hu. simpl.
      by rewrite delete_insert_eq.
    + apply wp_bind. unfold wp at 1.
      match goal with |- context [UploadProgress.handleUploadError f e ?b ?w1] =>
        destruct (handleUploadError_retryAttempts f e b w1) as [Hc Hu] end.
      rewrite Hc. apply wp_bind, wp_tell, wp_ret. split; [done|]. by rewrite Hu.
  - apply wp_bind, wp_modify, wp_ret. apply wp_get_bind, wp_modify_bind. simpl.
    destruct (negb _ || _)%bool eqn:Hb.
    + unfold handleFinalFailure, cleanup. apply wp_modify_bind, wp_bind.
      unfold wp at 1.
      match goal with |- context [UploadProgress.handleUploadError f e false ?w1] =>
        destruct (handleUploadError_retryAttempts f e false w1) as [Hc Hu] end.
      rewrite Hc. apply wp_ret. split; [done|]. rewrite Hu. simpl.
      by rewrite !delete_insert_eq.
    + apply wp_bind. unfold wp at 1.
      match goal with |- context [UploadProgress.handleUploadError f e ?b ?w1] =>
        destruct (handleUploadError_retryAttempts f e b w1) as [Hc Hu] end.
      rewrite Hc. apply wp_bind, wp_tell, wp_ret. split; [done|]. rewrite Hu. simpl.
      by rewrite insert_insert_eq.
Qed.

Lemma retry_bound_ext (w w' : World) :
  retryAttempts w' = retryAttempts w → retry_bound w → retry_bound w'.
Proof. intros Heq Hw f info. rewrite Heq. apply Hw. Qed.

Lemma attempts_of_bound w f : retry_bound w → 0 ≤ attempts_of w f < maxRetries.
Proof.
  intros Hw. unfold attempts_of.
  destruct (retryAttempts w !! f) as [info|] eqn:Hf; [by apply (Hw f)|].
  unfold maxRetries. lia.
Qed.

Lemma bumped_attempts w f e : RetryInfo.attempts (bumped w f e) = attempts_of w f + 1.
Proof. unfold bumped, attempts_of. by destruct (retryAttempts w !! f). Qed.

Lemma retry_bound_handleError f e c random w :
  retry_bound w → retry_bound (world_of (handleError f e c random w)).
Proof.
  intros Hw. pose proof (handleError_spec f e c random w) as Hspec.
  unfold wp in Hspec. cbv zeta in Hspec.
  pose proof (attempts_of_bound w f Hw) as Ha.
  destruct (negb _ || _)%bool eqn:Hb.
  - destruct Hspec as [_ Hu]. intros f' info. rewrite Hu, lookup_delete.
    destruct (decide (f = f')); [done | apply Hw].
  - destruct Hspec as [_ Hu]. intros f' info. rewrite Hu, lookup_insert.
    destruct (decide (f = f')); [|apply Hw]. intros [= <-]. rewrite bumped_attempts.
    apply orb_false_elim in Hb as [_ Hb]. apply bool_decide_eq_false in Hb. lia.
Qed.

Lemma retry_bound_getRetryInfo f w :
  retry_bound w → retry_bound (world_of (getRetryInfo f w)).
Proof.
  intros Hw. unfold getRetryInfo, world_of. rewrite run_get_bind.
  destruct (retryAttempts w !! f) eqn:Hf; [done|].
  rewrite run_modify_bind. intros f' info. simpl. rewrite lookup_insert.
  case_decide; [|apply Hw]. intros [= <-]. simpl. unfold maxRetries. lia.
Qed.

(** The counters of the retry table stay below [maxRetries], whatever the
    calls made since the process started. *)
Lemma retry_bound_run (cs : list Call) (t0 : Z) : retry_bound (run cs (boot t0)).
Proof.
  apply (invariant_run retry_bound any_step any_effect)
    with (may_connect := λ _ _, True);
    try done; try (apply Forall_forall; intros c _; by destruct c).
  - intros. apply ok_any_step. intros w Hw.
    by apply (retry_bound_ext w); [apply updateProgress_retryAttempts|].
  - intros. apply ok_any_step. intros w Hw.
    by apply (retry_bound_ext w); [apply completeUpload_retryAttempts|].
  - intros. apply ok_any_step. intros w Hw.
    by apply (retry_bound_ext w); [apply handleUploadError_retryAttempts|].
  - apply ok_uploadChunk_frame; try done.
    intros. apply ok_any_step. intros w Hw.
    by apply (retry_bound_ext w); [apply updateChunkProgress_retryAttempts|].
  - by apply ok_resumeUpload_frame.
  - intros. apply ok_any_step. intros. by apply retry_bound_getRetryInfo.
  - intros. apply ok_any_step. intros. by apply retry_bound_handleError.
  - intros. apply keeps_any_effect. intros w Hw.
    by apply (retry_bound_ext w); [apply startUploadSession_retryAttempts|].
  - intros ws u. apply keeps_any_effect. intros w Hw.
    unfold UploadProgress.on_close, world_of, modify. simpl.
    destruct (clients w !! u); [|done]. by case_decide.
Qed.

End Retry_table.

(** * Repeated recovery *)

Section Recovery.
Context `{Env}.
Import ErrorRecovery.

Lemma handleError_retryable f e c random w :
  isRetryableError e (categorizeError e) = true →
  retry_bound w →
  retry_bound (world_of (handleError f e c random w))
  ∧ ((attempts_of w f + 1 < maxRetries
      ∧ completion (handleError f e c random w)
        = Normal (Retry (calculateBackoffDelay (attempts_of w f + 1) random)
                        (attempts_of w f + 1) maxRetries (categorizeError e))
      ∧ attempts_of (world_of (handleError f e c random w)) f = attempts_of w f + 1)
     ∨ (attempts_of w f + 1 = maxRetries
        ∧ completion (handleError f e c random w)
          = Normal (Failure maxRetries (message e)
                            (RetryInfo.errorHistory (bumped w f e)))
        ∧ retryAttempts (world_of (handleError f e c random w)) !! f = None)).
Proof.
  intros He Hw. split; [by apply retry_bound_handleError|].
  pose proof (handleError_spec f e c random w) as Hspec.
  unfold wp in Hspec. cbv zeta in Hspec. rewrite He in Hspec. simpl in Hspec.
  pose proof (attempts_of_bound w f Hw) as Ha.
  destruct (bool_decide (attempts_of w f + 1 >= maxRetries)) eqn:Hb.
  - apply bool_decide_eq_true in Hb. destruct Hspec as [Hr Hu]. right.
    assert (attempts_of w f + 1 = maxRetries) as Heq by lia.
    split; [done|]. rewrite Heq in Hr. split; [done|].
    by rewrite Hu, lookup_delete_eq.
  - apply bool_decide_eq_false in Hb. destruct Hspec as [Hr Hu]. left.
    split; [lia|]. split; [done|].
    unfold attempts_of at 1. rewrite Hu, lookup_insert_eq. apply bumped_attempts.
Qed.

Lemma handle_repeatedly_length f e c randoms w :
  length (handle_repeatedly f e c randoms w).1 = length randoms.
Proof.
  revert w. induction randoms as [|random rest IH]; intros w; simpl; [done|].
  pose proof (handleError_spec f e c random w) as Hspec.
  unfold wp in Hspec. cbv zeta in Hspec.
  destruct (negb _ || _)%bool; destruct Hspec as [-> _]; simpl; by rewrite IH.
Qed.

Lemma handle_repeatedly_bound f e c randoms w :
  isRetryableError e (categorizeError e) = true →
  retry_bound w →
  Z.of_nat (leading_retries (handle_repeatedly f e c randoms w).1)
    ≤ maxRetries - 1 - attempts_of w f
  ∧ Forall (λ a, 1 ≤ reported_attempts a ≤ maxRetries)
           (handle_repeatedly f e c randoms w).1.
Proof.
  intros He. revert w. induction randoms as [|random rest IH]; intros w Hw.
  - simpl. pose proof (attempts_of_bound w f Hw). split; [lia | constructor].
  - simpl. pose proof (attempts_of_bound w f Hw) as Ha.
    destruct (handleError_retryable f e c random w He Hw)
      as [Hw' [(Hlt & -> & Hnext) | (Heq & -> & Hnone)]].
    + destruct (IH _ Hw') as [IH1 IH2]. simpl. split; [lia|].
      constructor; [simpl; lia | done].
    + destruct (IH _ Hw') as [IH1 IH2]. simpl. split; [lia|].
      constructor; [simpl; unfold maxRetries; lia | done].
Qed.

End Recovery.

(** C6 as stated fails in its last part: with the session of ["f1"] in place
    and nothing else happening, the third [handleError] declares the final
    failure and the fourth one returns a retry action again. *)
Lemma retry_after_final_failure :
  let w := run (H := sample_env)
             [InitializeChunkedUpload "f1" "u1" (sample_metadata (3 * MiB))] (boot 0) in
  let e := mkError "Network timeout" in
  map ErrorRecovery.is_retry
      (handle_repeatedly "f1" e {| chunkedUpload := true |} [0; 0; 0; 0]%Q w).1
  = [true; true; false; true]
  ∧ ErrorRecovery.isRetryableError e (ErrorRecovery.categorizeError e) = true.
Proof. vm_compute. split; reflexivity. Qed.

(** C6, amended.  The attempt counter of a file never exceeds [maxRetries]
    (3), in the retry table and in the actions returned; [handleError] called
    repeatedly for a file with a retryable error returns fewer than
    [maxRetries] retry actions before a failure action; and the failure
    action deletes the retry record of the file, so that the next
    [handleError] for it counts from [1] again and, for a retryable error,
    returns a retry action. *)
Theorem handleError_retry_bound `{Env}
    (cs : list Call) (t0 : Z) (f : string) (e : Error) (c : Context)
    (randoms : list Q) :
  ErrorRecovery.isRetryableError e (ErrorRecovery.categorizeError e) = true →
  let w := run cs (boot t0) in
  let actions := (handle_repeatedly f e c randoms w).1 in
  (∀ f' info, retryAttempts w !! f' = Some info →
     0 ≤ RetryInfo.attempts info ≤ ErrorRecovery.maxRetries)
  ∧ Forall (λ a, 1 ≤ reported_attempts a ≤ ErrorRecovery.maxRetries) actions
  ∧ length actions = length randoms
  ∧ (leading_retries actions < Z.to_nat ErrorRecovery.maxRetries)%nat
  ∧ (∀ random a msg history,
       completion (ErrorRecovery.handleError f e c random w)
         = Normal (ErrorRecovery.Failure a msg history) →
       let w' := world_of (ErrorRecovery.handleError f e c random w) in
       retryAttempts w' !! f = None
       ∧ ∀ random',
           completion (ErrorRecovery.handleError f e c random' w')
           = Normal (ErrorRecovery.Retry
                       (ErrorRecovery.calculateBackoffDelay 1 random') 1
                       ErrorRecovery.maxRetries (ErrorRecovery.categorizeError e))).
Proof.
  intros He w actions. pose proof (retry_bound_run cs t0) as Hw. fold w in Hw.
  split.
  { intros f' info Hf. destruct (Hw f' info Hf). lia. }
  destruct (handle_repeatedly_bound f e c randoms w He Hw) as [Hlead Hrep].
  split; [done|]. split; [apply handle_repeatedly_length|].
  split.
  { pose proof (attempts_of_bound w f Hw). fold actions in Hlead.
    unfold ErrorRecovery.maxRetries in *. lia. }
  intros random a msg history Hfail w'.
  destruct (handleError_retryable f e c random w He Hw)
    as [Hw' [(_ & Hr & _) | (_ & _ & Hnone)]].
  { rewrite Hr in Hfail. discriminate. }
  split; [done|]. intros random'.
  assert (attempts_of w' f = 0) as H0 by (unfold attempts_of, w'; by rewrite Hnone).
  destruct (handleError_retryable f e c random' w' He Hw')
    as [_ [(_ & Hr & _) | (Heq & _)]].
  - by rewrite H0 in Hr.
  - rewrite H0 in Heq. discriminate.
Qed.

Lemma handleError_retry_bound_witness :
  let w := run (H := sample_env)
             [InitializeChunkedUpload "f1" "u1" (sample_metadata (3 * MiB))] (boot 0) in
  let e := mkError "Network timeout" in
  (leading_retries
     (handle_repeatedly "f1" e {| chunkedUpload := true |} [0; 0; 0; 0]%Q w).1
   < Z.to_nat ErrorRecovery.maxRetries)%nat.
Proof.
  cbv zeta.
  refine (proj1 (proj2 (proj2 (proj2
    (handleError_retry_bound (H := sample_env)
       [InitializeChunkedUpload "f1" "u1" (sample_metadata (3 * MiB))] 0 "f1"
       (mkError "Network timeout") {| chunkedUpload := true |} [0; 0; 0; 0]%Q _))))).
  vm_compute. reflexivity.
Defined.

(** * Aggregated progress of a pipeline *)

Section Aggregate.
Import ProcessingPipeline.




(** The weights that [buildStageList] assigns are positive. *)
Lemma buildStageList_weights requiredStages :
  Forall (λ s, (0 < Stage.weight s)%Q) (buildStageList requiredStages).
Proof.
  unfold buildStageList. apply Forall_forall. intros s Hs.
  apply list_elem_of_fmap in Hs as (nm & -> & _).
  unfold new_stage, stages_table. simpl.
  repeat (case_decide; [done|]). done.
Qed.

(** What [updateProgress] sends. *)
Lemma updateProgress_sends f p stg w :
  completion (UploadProgress.updateProgress f p stg w) = Normal tt
  ∧ pipelines (world_of (UploadProgress.updateProgress f p stg w)) = pipelines w
  ∧ Forall (λ e, ∃ ws, e = Send ws (upload_progress f (Js.clamp01 p) stg (now w)))
           (effects_of (UploadProgress.updateProgress f p stg w)).
Proof.
  rewrite run_updateProgress. destruct (uploadSessions w !! f) as [s|].
  2: { repeat split. constructor. }
  rewrite run_broadcastToUser. simpl.
  destruct (clients w !! Session.userId s) as [l|]; simpl.
  - repeat split. apply Forall_forall. intros e He.
    apply list_elem_of_fmap in He as (ws & -> & _). by exists ws.
  - repeat split. constructor.
Qed.




End Aggregate.




(** * Fan-out of events *)

Section Fan_out.
Context `{Env}.
Variable principal : nat → string.

Lemma owners_kept_refl w : owners_kept w w.
Proof. intros f s Hs. by exists s. Qed.

Lemma owners_kept_trans a b c : owners_kept a b → owners_kept b c → owners_kept a c.
Proof.
  intros Hab Hbc f s Hs. destruct (Hab f s Hs) as (s1 & Hs1 & Hu1).
  destruct (Hbc f s1 Hs1) as (s2 & Hs2 & Hu2). exists s2. split; [done | congruence].
Qed.

Lemma owners_kept_ext w w' :
  uploadSessions w' = uploadSessions w → owners_kept w w'.
Proof. intros Heq f s Hs. exists s. by rewrite Heq. Qed.

Lemma owners_kept_insert w f s s' :
  uploadSessions w !! f = Some s → Session.userId s' = Session.userId s →
  owners_kept w (set_uploadSessions w (<[f := s']> (uploadSessions w))).
Proof.
  intros Hs Hu f' s0 Hs0. simpl. destruct (decide (f = f')) as [<-|Hne].
  - rewrite lookup_insert_eq. exists s'. split; [done | congruence].
  - rewrite lookup_insert_ne by done. by exists s0.
Qed.

Lemma to_owner_mono w w' e : owners_kept w w' → (to_owner principal) w e → (to_owner principal) w' e.
Proof.
  intros Hk. destruct e as [ws m|]; [|done]. simpl. intros He f Hf.
  destruct (He f Hf) as (s & Hs & Hu). destruct (Hk f s Hs) as (s' & Hs' & Hu').
  exists s'. split; [done | congruence].
Qed.

(** [broadcastToUser] reaches sockets of the user it is called for, and
    nobody else. *)
Lemma broadcastToUser_fan_out u m w :
  (registered_by_principal principal) w →
  (registered_by_principal principal) (world_of (UploadProgress.broadcastToUser u m w))
  ∧ Forall (λ e, ∃ ws, e = Send ws m ∧ principal ws = u)
           (effects_of (UploadProgress.broadcastToUser u m w)).
Proof.
  intros Hw. rewrite run_broadcastToUser.
  destruct (clients w !! u) as [l|] eqn:Hl; simpl.
  - split.
    + intros u' l' ws. simpl. rewrite lookup_insert.
      case_decide as Hu; [|apply Hw]. subst u'. intros [= <-] Hin.
      apply list_elem_of_difference in Hin as [Hin _]. by apply (Hw u l).
    + apply Forall_forall. intros e He.
      apply list_elem_of_fmap in He as (ws & -> & Hin).
      apply list_elem_of_filter in Hin as [_ Hin].
      exists ws. split; [done|]. by apply (Hw u l).
  - split; [done | constructor].
Qed.

(** An event of the bus: the session object of [f] is assigned to, then the
    message goes to the user of the session. *)
Lemma session_event_to_owner f s' m w :
  (registered_by_principal principal) w →
  file_of m = Some f →
  let r := UploadProgress.broadcastToUser (Session.userId s') m
             (set_uploadSessions w (<[f := s']> (uploadSessions w))) in
  (registered_by_principal principal) (world_of r)
  ∧ uploadSessions (world_of r) = <[f := s']> (uploadSessions w)
  ∧ Forall ((to_owner principal) (world_of r)) (effects_of r).
Proof.
  intros Hw Hf r.
  destruct (broadcastToUser_fan_out (Session.userId s') m
    (set_uploadSessions w (<[f := s']> (uploadSessions w)))) as [HI HE]; [done|].
  pose proof (broadcastToUser_sessions (Session.userId s') m
    (set_uploadSessions w (<[f := s']> (uploadSessions w)))) as Hu.
  fold r in HI, HE, Hu. split; [done|]. split; [done|].
  eapply Forall_impl; [exact HE|]. intros e (ws & -> & Hp) f' Hf'.
  rewrite Hf in Hf'. injection Hf' as <-. exists s'.
  rewrite Hu. simpl. by rewrite lookup_insert_eq.
Qed.

Lemma session_event_ok f s s' m w :
  (registered_by_principal principal) w →
  uploadSessions w !! f = Some s →
  Session.userId s' = Session.userId s →
  file_of m = Some f →
  let r := UploadProgress.broadcastToUser (Session.userId s) m
             (set_uploadSessions w (<[f := s']> (uploadSessions w))) in
  (registered_by_principal principal) (world_of r)
  ∧ owners_kept w (world_of r)
  ∧ Forall ((to_owner principal) (world_of r)) (effects_of r).
Proof.
  intros Hw Hs Hu Hf. rewrite <- Hu.
  destruct (session_event_to_owner f s' m w Hw Hf) as (HI & Hsess & HE).
  cbv zeta. split; [done|]. split; [|done].
  eapply owners_kept_trans; [by apply (owners_kept_insert w f s s')|].
  by apply owners_kept_ext.
Qed.

Lemma fan_out_updateProgress f p stg :
  ok (registered_by_principal principal) owners_kept (to_owner principal) (UploadProgress.updateProgress f p stg).
Proof.
  intros w Hw. rewrite run_updateProgress.
  destruct (uploadSessions w !! f) as [s|] eqn:Hs.
  - by apply (session_event_ok f s).
  - split; [done|]. split; [apply owners_kept_refl | constructor].
Qed.

Lemma fan_out_handleUploadError f e r :
  ok (registered_by_principal principal) owners_kept (to_owner principal)
     (UploadProgress.handleUploadError f e r).
Proof.
  intros w Hw. rewrite run_handleUploadError.
  destruct (uploadSessions w !! f) as [s|] eqn:Hs.
  - by apply (session_event_ok f s).
  - split; [done|]. split; [apply owners_kept_refl | constructor].
Qed.

Lemma fan_out_completeUpload f :
  ok (registered_by_principal principal) owners_kept (to_owner principal) (UploadProgress.completeUpload f).
Proof.
  intros w Hw. rewrite run_completeUpload.
  destruct (uploadSessions w !! f) as [s|] eqn:Hs.
  - destruct (session_event_ok f s (Session.set_completed s (now w))
      (upload_completed f (now w - Session.startTime s)) w Hw Hs eq_refl eq_refl)
      as (HI & HR & HE).
    cbv zeta in *. unfold world_of, effects_of in *. simpl.
    split; [done|]. split; [done|]. apply Forall_app. split; [done|].
    by repeat constructor.
  - split; [done|]. split; [apply owners_kept_refl | constructor].
Qed.

Lemma fan_out_startUploadSession f u md :
  keeps (registered_by_principal principal) (to_owner principal) (UploadProgress.startUploadSession f u md).
Proof.
  intros w Hw. rewrite run_startUploadSession.
  match goal with |- context [<[f := ?s0]> _] =>
    destruct (session_event_to_owner f s0 (upload_started f md) w Hw eq_refl)
      as (HI & _ & HE) end.
  done.
Qed.

Lemma fan_out_mutate_session f g :
  keeps_owner g →
  ok (registered_by_principal principal) owners_kept (to_owner principal) (ChunkedUpload.mutate_session f g).
Proof.
  intros Hg. apply ok_modify.
  intros w Hw. split; [done|]. intros f' s Hs. simpl.
  rewrite lookup_alter. case_decide as Hf.
  - subst f'. rewrite Hs. exists (g s). by split.
  - by exists s.
Qed.

Lemma fan_out_updateChunkProgress f i t c :
  ok (registered_by_principal principal) owners_kept (to_owner principal)
     (UploadProgress.updateChunkProgress f i t c).
Proof.
  intros w Hw. rewrite run_updateChunkProgress.
  destruct (uploadSessions w !! f) as [s|] eqn:Hs.
  2: { split; [done|]. split; [apply owners_kept_refl | constructor]. }
  cbv zeta.
  match goal with |- context [<[f := ?s0]> _] => set (s' := s0) end.
  assert (Session.userId s' = Session.userId s) as Hu by (unfold s'; by destruct c).
  destruct (fan_out_updateProgress f
    (Js.div (Session.completedChunks s') t) "uploading"
    (set_uploadSessions w (<[f := s']> (uploadSessions w)))) as (HI & HR & HE); [done|].
  split; [done|]. split; [|done].
  eapply owners_kept_trans; [by apply (owners_kept_insert w f s s')|done].
Qed.

Lemma fan_out_on_close ws u :
  keeps (registered_by_principal principal) (to_owner principal) (UploadProgress.on_close ws u).
Proof.
  intros w Hw. unfold UploadProgress.on_close, world_of, effects_of, modify. simpl.
  split; [|constructor].
  destruct (clients w !! u) as [l|] eqn:Hl; [|done].
  case_decide.
  - intros u' l' ws'. simpl. rewrite lookup_delete.
    case_decide; [done | apply Hw].
  - intros u' l' ws'. simpl. rewrite lookup_insert.
    case_decide as Hu; [|apply Hw]. subst u'. intros [= <-] Hin.
    apply list_elem_of_filter in Hin as [_ Hin]. by apply (Hw u l).
Qed.

Lemma fan_out_handleConnection ws u :
  u = principal ws →
  keeps (registered_by_principal principal) (to_owner principal) (UploadProgress.handleConnection ws u).
Proof.
  intros -> w Hw.
  unfold UploadProgress.handleConnection, world_of, effects_of, modify. simpl.
  split; [|constructor].
  intros u' l' ws'. simpl. rewrite lookup_insert.
  case_decide as Hu; [|apply Hw]. subst u'. intros [= <-].
  destruct (clients w !! principal ws) as [l|] eqn:Hl; simpl.
  - case_decide; [by apply (Hw _ l)|].
    intros [Hin | Hin]%elem_of_app; [by apply (Hw _ l)|].
    apply list_elem_of_singleton in Hin. by subst ws'.
  - intros Hin. apply list_elem_of_singleton in Hin. by subst ws'.
Qed.

Ltac fan_out_side :=
  first
    [ apply owners_kept_refl | apply owners_kept_trans | apply to_owner_mono
    | apply fan_out_mutate_session | apply fan_out_updateChunkProgress
    | apply fan_out_handleUploadError
    | intros; split; [done | by apply owners_kept_ext]
    | done ].

(** From a world where every socket sits with its own principal, every call
    keeps it so and sends messages about a file only to sockets of the owner
    of the file's session. *)
Lemma fan_out_run (cs : list Call) (c : Call) (w : World) :
  Forall (attributed principal) (cs ++ [c]) →
  (registered_by_principal principal) w →
  Forall ((to_owner principal) (after c (run cs w))) (effects_of (exec c (run cs w))).
Proof.
  intros Hattr Hw.
  apply (effects_run (registered_by_principal principal) owners_kept (to_owner principal))
    with (may_connect := λ ws u, u = principal ws); try done.
  - apply owners_kept_refl.
  - apply owners_kept_trans.
  - apply to_owner_mono.
  - intros. split; [done | by apply owners_kept_ext].
  - intros. split; [done | by apply owners_kept_ext].
  - intros. split; [done | by apply owners_kept_ext].
  - intros. split; [done | by apply owners_kept_ext].
  - intros. split; [done | by apply owners_kept_ext].
  - apply fan_out_updateProgress.
  - apply fan_out_completeUpload.
  - apply fan_out_handleUploadError.
  - apply ok_uploadChunk_frame; fan_out_side.
  - apply ok_resumeUpload_frame; fan_out_side.
  - apply ok_getRetryInfo_frame; fan_out_side.
  - apply ok_handleError_frame; fan_out_side.
  - apply fan_out_startUploadSession.
  - apply fan_out_handleConnection.
  - apply fan_out_on_close.
Qed.

End Fan_out.

(** C8.  Take any history of calls from boot in which every ['connection']
    event registers the socket for the user of its own upgrade request.  If
    a call sends a message about a file ([upload_started],
    [upload_progress], [upload_completed] or [upload_error]) to a socket,
    then the session of that file is owned by the principal of the socket:
    a socket of principal A receives no event of a session owned by a
    different principal B. *)
Theorem fan_out_isolation `{Env} (principal : nat → string)
    (cs : list Call) (c : Call) (t0 : Z) (ws : nat) (m : Message) (f : string) :
  Forall (attributed principal) (cs ++ [c]) →
  Send ws m ∈ effects_of (exec c (run cs (boot t0))) →
  file_of m = Some f →
  (∃ s, uploadSessions (after c (run cs (boot t0))) !! f = Some s
        ∧ Session.userId s = principal ws)
  ∧ ∀ s B, uploadSessions (after c (run cs (boot t0))) !! f = Some s →
           Session.userId s = B → B = principal ws.
Proof.
  intros Hattr Hsend Hf.
  assert (registered_by_principal principal (boot t0)) as Hboot.
  { intros u l ws'. simpl. by rewrite lookup_empty. }
  pose proof (fan_out_run principal cs c (boot t0) Hattr Hboot) as Hall.
  rewrite Forall_forall in Hall. specialize (Hall _ Hsend f Hf).
  split; [done|]. intros s B Hs HB. destruct Hall as (s' & Hs' & Hu').
  congruence.
Qed.

Lemma fan_out_isolation_witness :
  ∃ s, uploadSessions
         (after (H := sample_env) (UpdateProgress "f3" (Js.Fin (1 # 2)) "uploading")
            (run (H := sample_env) two_subscribers (boot 0))) !! "f3" = Some s
       ∧ Session.userId s = sample_principal 1.
Proof.
  refine (proj1 (fan_out_isolation (H := sample_env) sample_principal two_subscribers
    (UpdateProgress "f3" (Js.Fin (1 # 2)) "uploading") 0 1
    (upload_progress "f3" (Js.Fin (1 # 2)) "uploading" 0) "f3" _ _ _)).
  - repeat constructor.
  - vm_compute. apply list_elem_of_here.
  - reflexivity.
Defined.

(** The ingestion of ["f3"] seen from the two sockets: socket 1 gets the
    events, socket 2 gets none. *)
Example fan_out_scenario :
  let es := trace (H := sample_env)
              (two_subscribers ++
               [InitializePipeline "f3" "u1" (sample_metadata (3 * MiB)) [];
                StartStage "f3" "upload";
                UpdateStageProgress "f3" "upload" 1;
                CompleteStage "f3" "upload";
                HandleError "f3" (mkError "Network timeout")
                  {| chunkedUpload := true |} 0;
                CompletePipeline "f3"]) (boot 0) in
  received_by 2 es = []
  ∧ file_of <$> received_by 1 es = replicate 7 (Some "f3").
Proof. vm_compute. split; reflexivity. Qed.

(** * More of the code *)

(** * What a call may write *)

Lemma stable_ret {A} I (a : A) : stable I (mret a).
Proof. by intros w Hw. Qed.

Lemma stable_throw {A} I (e : Error) : stable I (@throw A e).
Proof. by intros w Hw. Qed.

Lemma stable_gets {A} I (g : World → A) : stable I (gets g).
Proof. by intros w Hw. Qed.

Lemma stable_tell I (es : list Effect) : stable I (tell es).
Proof. by intros w Hw. Qed.

Lemma stable_modify I (g : World → World) : (∀ w, I w → I (g w)) → stable I (modify g).
Proof. intros Hg w Hw. by apply Hg. Qed.

Lemma stable_bind {A B} I (m : M A) (f : A → M B) :
  stable I m → (∀ a, stable I (f a)) → stable I (m ≫= f).
Proof.
  intros Hm Hf w Hw. specialize (Hm w Hw). unfold world_of in *. rewrite run_bind.
  destruct (m w) as [[[a|e] w1] es1]; simpl in *; [|done]. by apply Hf.
Qed.

Lemma stable_get_bind {B} I (f : World → M B) :
  (∀ w0, stable I (f w0)) → stable I (get ≫= f).
Proof. intros Hf w Hw. unfold world_of. rewrite run_get_bind. by apply Hf. Qed.

Lemma stable_try_catch {A} I (m : M A) (h : Error → M A) :
  stable I m → (∀ e, stable I (h e)) → stable I (try_catch m h).
Proof.
  intros Hm Hh w Hw. specialize (Hm w Hw). unfold world_of in *. rewrite run_try_catch.
  destruct (m w) as [[[a|e] w1] es1]; simpl in *; [done|]. by apply Hh.
Qed.

Lemma stable_for_each {A} I (xs : list A) (body : A → M unit) :
  (∀ x, stable I (body x)) → stable I (for_each xs body).
Proof.
  intros Hb. induction xs as [|x xs IH]; simpl; [apply stable_ret|].
  apply stable_bind; [apply Hb | intros _; apply IH].
Qed.

Lemma stable_ignore {A} I (m : M A) : stable I m → stable I (ignore m).
Proof. intros Hm. apply stable_bind; [done | intros; apply stable_ret]. Qed.

(** One syntax-directed step; an assignment is left to [tac]. *)
Ltac stable_step tac :=
  lazymatch goal with
  | |- stable _ (mret _) => apply stable_ret
  | |- stable _ (throw _) => apply stable_throw
  | |- stable _ (gets _) => apply stable_gets
  | |- stable _ (tell _) => apply stable_tell
  | |- stable _ (modify _) => apply stable_modify; tac
  | |- stable _ (get ≫= _) => apply stable_get_bind; intros ?
  | |- stable _ (_ ≫= _) => apply stable_bind; [ | intros ? ]
  | |- stable _ (try_catch _ _) => apply stable_try_catch; [ | intros ? ]
  | |- stable _ (for_each _ _) => apply stable_for_each; intros ?
  | |- stable _ (ignore _) => apply stable_ignore
  | |- stable _ (match ?x with _ => _ end) => destruct x
  end.

(** An assignment to another field: the projection at hand reduces. *)
Ltac other_field :=
  let w := fresh "w" in let Hw := fresh "Hw" in
  intros w Hw; simpl;
  repeat (first [ case_match | case_decide ]; simpl);
  done.

Ltac unfold_methods :=
  unfold
    ChunkedUpload.initializeChunkedUpload, ChunkedUpload.uploadChunk,
    ChunkedUpload.assembleFile, ChunkedUpload.resumeUpload, ChunkedUpload.cancelUpload,
    ChunkedUpload.validateChunks, ChunkedUpload.cleanupChunks, ChunkedUpload.getSession,
    ChunkedUpload.chunk_path, ChunkedUpload.mutate_session, ChunkedUpload.resume_step,
    ProcessingPipeline.initializePipeline, ProcessingPipeline.startStage,
    ProcessingPipeline.updateStageProgress, ProcessingPipeline.completeStage,
    ProcessingPipeline.handleStageError, ProcessingPipeline.addWarning,
    ProcessingPipeline.completePipeline, ProcessingPipeline.cleanupOldPipelines,
    ProcessingPipeline.deletePipeline, ProcessingPipeline.put_pipeline,
    ProcessingPipeline.getPipelineStatus,
    ErrorRecovery.handleError, ErrorRecovery.handleFinalFailure, ErrorRecovery.cleanup,
    ErrorRecovery.getRetryInfo, ErrorRecovery.executeRetry,
    ErrorRecovery.retryChunkedUpload, ErrorRecovery.retryRegularUpload,
    UploadProgress.startUploadSession, UploadProgress.updateProgress,
    UploadProgress.updateChunkProgress, UploadProgress.completeUpload,
    UploadProgress.handleUploadError, UploadProgress.getSessionStatus,
    UploadProgress.deleteUploadSession, UploadProgress.cleanupOldSessions,
    UploadProgress.handleConnection, UploadProgress.on_close, UploadProgress.on_ping,
    UploadProgress.broadcastToUser,
    Fs.mkdir_recursive, Fs.writeFile, Fs.readFile, Fs.access, Fs.stat_size,
    Fs.readdir, Fs.unlink, Fs.rmdir, Fs.createWriteStream, Fs.stream_write.

Section Footprint.
Context `{Env}.

Lemma stable_resume_loop I f s idx acc :
  (∀ i acc', stable I (ChunkedUpload.resume_step f s acc' i)) →
  stable I (ChunkedUpload.resume_loop f s idx acc).
Proof.
  intros Hstep. revert acc. induction idx as [|i idx IH]; intros acc; simpl.
  - apply stable_ret.
  - apply stable_bind; [apply Hstep | intros; apply IH].
Qed.

Lemma stable_validate_loop I s idx : stable I (ChunkedUpload.validate_loop s idx).
Proof.
  induction idx as [|i idx IH]; simpl; [apply stable_ret|].
  unfold ChunkedUpload.chunk_path, Fs.readFile.
  repeat first [ apply IH | stable_step fail ].
Qed.

(** A body keeps a statement about fields that it does not assign to. *)
Ltac footprint :=
  repeat first
    [ apply stable_validate_loop
    | apply stable_resume_loop; intros
    | stable_step other_field
    | progress unfold_methods ].

Lemma exec_pipelines c v :
  writes_pipelines c = false → stable (λ w, pipelines w = v) (exec c).
Proof. intros Hc. destruct c; try discriminate Hc; simpl exec; footprint. Qed.

Lemma exec_retryAttempts c v :
  writes_retryAttempts c = false → stable (λ w, retryAttempts w = v) (exec c).
Proof. intros Hc. destruct c; try discriminate Hc; simpl exec; footprint. Qed.

Lemma exec_files c v :
  writes_files c = false → stable (λ w, files w = v) (exec c).
Proof. intros Hc. destruct c; try discriminate Hc; simpl exec; footprint. Qed.

Lemma exec_dirs c v :
  writes_dirs c = false → stable (λ w, dirs w = v) (exec c).
Proof. intros Hc. destruct c; try discriminate Hc; simpl exec; footprint. Qed.

Lemma exec_uploadSessions c v :
  writes_uploadSessions c = false → stable (λ w, uploadSessions w = v) (exec c).
Proof. intros Hc. destruct c; try discriminate Hc; simpl exec; footprint. Qed.

Lemma exec_clients c v :
  writes_clients c = false → stable (λ w, clients w = v) (exec c).
Proof. intros Hc. destruct c; try discriminate Hc; simpl exec; footprint. Qed.

Lemma exec_now c v :
  is_ClockAdvance c = false → stable (λ w, now w = v) (exec c).
Proof. intros Hc. destruct c; try discriminate Hc; simpl exec; footprint. Qed.

Lemma exec_sockets c v :
  is_SocketChange c = false → stable (λ w, sockets w = v) (exec c).
Proof. intros Hc. destruct c; try discriminate Hc; simpl exec; footprint. Qed.

End Footprint.

(** * The progress bus *)

Lemma list_difference_dead (w : World) (l : list nat) :
  list_difference l (filter (λ ws, UploadProgress.send_ok w ws = false) l) = live w l.
Proof.
  unfold live.
  assert (∀ l', l' ⊆ l →
    list_difference l' (filter (λ ws, UploadProgress.send_ok w ws = false) l)
    = filter (λ ws, UploadProgress.send_ok w ws = true) l') as Hgen.
  { induction l' as [|x l' IH]; intros Hsub; [done|].
    simpl. rewrite filter_cons.
    assert (x ∈ l) as Hx by (apply Hsub; left).
    assert (l' ⊆ l) as Hl' by (intros y Hy; apply Hsub; by right).
    destruct (decide_rel elem_of x _) as [Hd|Hd];
      destruct (decide (UploadProgress.send_ok w x = true)) as [Hok|Hok].
    - apply list_elem_of_filter in Hd as [Hd _]. congruence.
    - by apply IH.
    - by rewrite IH.
    - exfalso. apply Hd. apply list_elem_of_filter. split; [|done].
      by destruct (UploadProgress.send_ok w x). }
  by apply Hgen.
Qed.

(** X1.  [broadcastToUser] always returns.  It sends the message once to
    every socket of the user's connection set that is open and whose [send]
    does not throw, in the order of the set, and to no other socket; after
    the call the set holds exactly those sockets (the dead ones are
    dropped, and the set stays in [clients] even when it ends up empty).
    The sets of the other users and all sessions are as before, and a user
    without a connection set gets nothing. *)
Theorem broadcastToUser_delivers (u : string) (m : Message) (w : World) :
  let r := UploadProgress.broadcastToUser u m w in
  completion r = Normal tt
  ∧ effects_of r = map (λ ws, Send ws m) (live w (connections w u))
  ∧ clients (world_of r) !! u = live w <$> clients w !! u
  ∧ (∀ u', u' ≠ u → clients (world_of r) !! u' = clients w !! u')
  ∧ uploadSessions (world_of r) = uploadSessions w
  ∧ (clients w !! u = None → world_of r = w).
Proof.
  cbv zeta. rewrite run_broadcastToUser. unfold connections.
  destruct (clients w !! u) as [l|] eqn:Hl; simpl.
  - rewrite list_difference_dead. split; [done|]. split; [done|].
    split; [by rewrite lookup_insert_eq|]. split; [|by split].
    intros u' Hu'. by rewrite lookup_insert_ne.
  - by repeat split.
Qed.




(** ** Progress values *)

Lemma in_unit_clamp01 (p : Js.num) : in_unit (Js.clamp01 p).
Proof.
  destruct p as [q| | |]; simpl; try done; try (split; by compute).
  split.
  - apply Q.min_glb; [by compute | apply Q.le_max_l].
  - apply Q.le_min_l.
Qed.

Section Progress_bounded.
Context `{Env}.

Lemma progress_bounded_ext (w w' : World) :
  uploadSessions w' = uploadSessions w → progress_bounded w → progress_bounded w'.
Proof. intros Heq Hw f s. rewrite Heq. apply Hw. Qed.

Lemma progress_bounded_insert (w : World) (f : string) (s : Session.t) :
  progress_bounded w → in_unit (Session.progress s) →
  progress_bounded (set_uploadSessions w (<[f := s]> (uploadSessions w))).
Proof.
  intros Hw Hs f' s'. simpl. rewrite lookup_insert.
  case_decide; [by intros [= <-] | apply Hw].
Qed.

Lemma bounded_updateProgress f p stg :
  ok bounded_records any_step (λ _, bounded_message) (UploadProgress.updateProgress f p stg).
Proof.
  intros w [Hb Hp]. split; [split|split; [done|]].
  - by apply bus_records_updateProgress.
  - rewrite run_updateProgress. destruct (uploadSessions w !! f) as [s|] eqn:Hs; [|done].
    eapply progress_bounded_ext; [apply broadcastToUser_sessions|].
    apply progress_bounded_insert; [done|]. apply in_unit_clamp01.
  - destruct (updateProgress_sends f p stg w) as (_ & _ & He).
    eapply Forall_impl; [exact He|]. intros e (ws & ->). apply in_unit_clamp01.
Qed.

Lemma broadcast_bounded u m w :
  bounded_message (Send 0%nat m) →
  Forall bounded_message (effects_of (UploadProgress.broadcastToUser u m w)).
Proof.
  intros Hm. rewrite run_broadcastToUser. destruct (clients w !! u); [|constructor].
  apply Forall_forall. intros e (ws & -> & _)%list_elem_of_fmap. exact Hm.
Qed.

Lemma bounded_completeUpload f :
  ok bounded_records any_step (λ _, bounded_message) (UploadProgress.completeUpload f).
Proof.
  intros w [Hb Hp]. split; [split|split; [done|]].
  - by apply bus_records_completeUpload.
  - rewrite run_completeUpload. destruct (uploadSessions w !! f) as [s|] eqn:Hs; [|done].
    cbv zeta. unfold world_of. simpl.
    eapply progress_bounded_ext; [apply broadcastToUser_sessions|].
    apply progress_bounded_insert; [done|]. simpl. split; by compute.
  - rewrite run_completeUpload. destruct (uploadSessions w !! f) as [s|] eqn:Hs;
      [|constructor].
    cbv zeta. unfold effects_of. simpl. apply Forall_app. split; [|by repeat constructor].
    by apply broadcast_bounded.
Qed.

Lemma bounded_handleUploadError f e r :
  ok bounded_records any_step (λ _, bounded_message)
     (UploadProgress.handleUploadError f e r).
Proof.
  intros w [Hb Hp]. split; [split|split; [done|]].
  - by apply bus_records_handleUploadError.
  - rewrite run_handleUploadError. destruct (uploadSessions w !! f) as [s|] eqn:Hs; [|done].
    eapply progress_bounded_ext; [apply broadcastToUser_sessions|].
    apply progress_bounded_insert; [done|]. simpl. by apply (Hp f).
  - rewrite run_handleUploadError. destruct (uploadSessions w !! f) as [s|] eqn:Hs;
      [|constructor].
    by apply broadcast_bounded.
Qed.

Lemma bounded_uploadChunk f i d h :
  ok bounded_records any_step (λ _, bounded_message) (ChunkedUpload.uploadChunk f i d h).
Proof.
  intros w [Hb Hp]. destruct (uploadSessions w !! f) as [s|] eqn:Hs.
  - destruct (Hb f s Hs) as (Ht & _). rewrite (uploadChunk_zero_total w f i d h s) by done.
    split; [by split|]. split; [done | constructor].
  - rewrite uploadChunk_no_session by done. split; [by split|]. split; [done | constructor].
Qed.

Lemma bounded_resumeUpload f :
  ok bounded_records any_step (λ _, bounded_message) (ChunkedUpload.resumeUpload f).
Proof.
  intros w [Hb Hp]. destruct (uploadSessions w !! f) as [s|] eqn:Hs.
  - destruct (Hb f s Hs) as (Ht & _). rewrite (resumeUpload_zero_total w f s) by done.
    split; [by split|]. split; [done | constructor].
  - rewrite resumeUpload_no_session by done. split; [by split|]. split; [done | constructor].
Qed.

Lemma bounded_records_ext (w w' : World) :
  uploadSessions w' = uploadSessions w → bounded_records w → bounded_records w'.
Proof.
  intros Heq [Hb Hp]. split; [by apply (bus_records_ext w) | by apply (progress_bounded_ext w)].
Qed.

Lemma bounded_exec (c : Call) : keeps bounded_records (λ _, bounded_message) (exec c).
Proof.
  apply (keeps_exec bounded_records any_step (λ _, bounded_message))
    with (may_connect := λ _ _, True);
    try done; try by destruct c;
    try (intros w x Hw; split; [by apply (bounded_records_ext w) | done]).
  - apply bounded_updateProgress.
  - apply bounded_completeUpload.
  - apply bounded_handleUploadError.
  - apply bounded_uploadChunk.
  - apply bounded_resumeUpload.
  - by apply ok_getRetryInfo_frame.
  - apply ok_handleError_frame; try done. apply bounded_handleUploadError.
  - intros f u md w [Hb Hp]. split; [split|].
    + by apply bus_records_startUploadSession.
    + rewrite run_startUploadSession.
      eapply progress_bounded_ext; [apply broadcastToUser_sessions|].
      apply progress_bounded_insert; [done|]. simpl. split; by compute.
    + rewrite run_startUploadSession. by apply broadcast_bounded.
  - intros f w [Hb Hp]. split; [|constructor].
    split; intros f' s; simpl; rewrite lookup_delete; case_decide; try done;
      [apply Hb | apply Hp].
  - intros w [Hb Hp]. split; [|constructor].
    split; intros f' s; simpl; rewrite map_lookup_filter_Some; intros [Hs _];
      [by apply (Hb f') | by apply (Hp f')].
  - intros ws u w Hw. split; [|constructor].
    apply (bounded_records_ext w); [|done].
    unfold UploadProgress.on_close, world_of, modify. simpl.
    destruct (clients w !! u); [|done]. by case_decide.
Qed.

Lemma bounded_records_run (cs : list Call) (t0 : Z) : bounded_records (run cs (boot t0)).
Proof.
  induction cs as [|c cs IH] using rev_ind.
  - split; intros f s; simpl; by rewrite lookup_empty.
  - rewrite run_snoc. by apply bounded_exec.
Qed.

End Progress_bounded.

(** X3.  Whatever the calls made since the process started, the [progress]
    of every session object is a number between 0 and 1 (or [NaN], which
    [Math.min(1, Math.max(0, progress))] lets through when a caller passes
    it), and so is the [progress] of every [upload_progress] message that a
    call sends: no progress below 0, above 1 or infinite is stored or
    sent. *)
Theorem progress_within_unit_interval `{Env} (cs : list Call) (c : Call) (t0 : Z) :
  progress_bounded (run cs (boot t0))
  ∧ Forall bounded_message (effects_of (exec c (run cs (boot t0)))).
Proof.
  pose proof (bounded_records_run cs t0) as Hw.
  split; [apply Hw | by apply bounded_exec].
Qed.

(** ** The life of a session *)

Section Session_life.
Context `{Env}.


End Session_life.


Section Sessions_persist.
Context `{Env}.

Lemma is_Some_insert_other {A} (m : gmap string A) (f f' : string) (x : A) :
  is_Some (m !! f) → is_Some (<[f' := x]> m !! f).
Proof. intros Hf. apply lookup_insert_is_Some'. by right. Qed.

Ltac session_kept :=
  first
    [ other_field
    | let w := fresh "w" in let Hw := fresh "Hw" in
      intros w Hw; simpl;
      first [ by apply is_Some_insert_other | by apply lookup_alter_is_Some ] ].

Lemma exec_sessions_stay (c : Call) (f : string) :
  unregisters c = false →
  stable (λ w, is_Some (uploadSessions w !! f)) (exec c).
Proof.
  intros Hc. destruct c; try discriminate Hc; simpl exec;
    repeat first
      [ apply stable_validate_loop
      | apply stable_resume_loop; intros
      | stable_step session_kept
      | progress unfold_methods ].
Qed.

(** X5.  A registered session stays registered through every call except
    the two that delete sessions: the timer callback that [completeUpload]
    sets, and the sweep [cleanupOldSessions].  In particular neither
    [cancelUpload], nor an upload error, nor the final failure of the
    recovery takes a session out of [uploadSessions]. *)
Theorem sessions_persist (c : Call) (w : World) (f : string) :
  unregisters c = false →
  is_Some (uploadSessions w !! f) →
  is_Some (uploadSessions (after c w) !! f).
Proof. intros Hc Hf. by apply (exec_sessions_stay c f Hc w). Qed.

End Sessions_persist.

Lemma sessions_persist_witness :
  let w := run (H := sample_env)
             [InitializeChunkedUpload "f1" "u1" (sample_metadata (3 * MiB))] (boot 0) in
  is_Some (uploadSessions
             (after (H := sample_env)
                (HandleError "f1" (mkError "permission denied")
                   {| chunkedUpload := true |} 0) w) !! "f1").
Proof.
  cbv zeta.
  apply (sessions_persist (H := sample_env)
           (HandleError "f1" (mkError "permission denied") {| chunkedUpload := true |} 0)).
  - reflexivity.
  - eexists. vm_compute. reflexivity.
Defined.

(** ** Footprints *)

(** X6.  What each entry point leaves alone.  The pipeline table is written
    by the methods of the pipeline manager and by its timer only; the retry
    table by [handleError] and by the retry callback only; files by
    [uploadChunk], [assembleFile] and [cancelUpload] only, directories by
    [initializeChunkedUpload], [assembleFile] and [cancelUpload] only.  The
    methods that only read ([validateChunks], the ['ping'] handler) write no
    session and no connection set, [resumeUpload] and the two session
    deletions write no connection set, and no method sets the clock or the
    state of a socket. *)
Theorem call_footprint `{Env} (c : Call) (w : World) :
  (writes_pipelines c = false → pipelines (after c w) = pipelines w)
  ∧ (writes_retryAttempts c = false → retryAttempts (after c w) = retryAttempts w)
  ∧ (writes_files c = false → files (after c w) = files w)
  ∧ (writes_dirs c = false → dirs (after c w) = dirs w)
  ∧ (writes_uploadSessions c = false → uploadSessions (after c w) = uploadSessions w)
  ∧ (writes_clients c = false → clients (after c w) = clients w)
  ∧ (is_ClockAdvance c = false → now (after c w) = now w)
  ∧ (is_SocketChange c = false → sockets (after c w) = sockets w).
Proof.
  repeat split; intros Hc.
  - by apply (exec_pipelines c (pipelines w) Hc w).
  - by apply (exec_retryAttempts c (retryAttempts w) Hc w).
  - by apply (exec_files c (files w) Hc w).
  - by apply (exec_dirs c (dirs w) Hc w).
  - by apply (exec_uploadSessions c (uploadSessions w) Hc w).
  - by apply (exec_clients c (clients w) Hc w).
  - by apply (exec_now c (now w) Hc w).
  - by apply (exec_sockets c (sockets w) Hc w).
Qed.

(** ** The chunk store on the sessions of the bus *)

Section Idle_store.
Context `{Env}.

Lemma assembleFile_no_session w f out :
  uploadSessions w !! f = None →
  ChunkedUpload.assembleFile f out w = (Thrown ChunkedUpload.session_not_found, w, []).
Proof.
  intros Hs. unfold ChunkedUpload.assembleFile, ChunkedUpload.getSession,
    UploadProgress.getSessionStatus.
  rewrite run_bind. simpl. by rewrite Hs.
Qed.

(** Without [tempDir], [cleanupChunks] stops at [fs.readdir(undefined)] and
    swallows the error. *)
Lemma cleanupChunks_no_tempDir s w :
  Session.tempDir s = None → ChunkedUpload.cleanupChunks s w = (Normal tt, w, []).
Proof.
  intros Hd. unfold ChunkedUpload.cleanupChunks. rewrite run_try_catch, Hd. done.
Qed.

Lemma cancelUpload_bus_record w f :
  bus_records w →
  world_of (ChunkedUpload.cancelUpload f w)
  = world_of (UploadProgress.handleUploadError f (mkError "Upload cancelled") false w).
Proof.
  intros Hw. unfold ChunkedUpload.cancelUpload, ChunkedUpload.getSession,
    UploadProgress.getSessionStatus, world_of.
  rewrite run_bind. simpl.
  destruct (uploadSessions w !! f) as [s|] eqn:Hs; simpl.
  - destruct (Hw f s Hs) as (_ & _ & _ & Hd).
    rewrite run_bind, (cleanupChunks_no_tempDir s w Hd). done.
  - by rewrite run_handleUploadError, Hs.
Qed.

(** On bus records the three methods that write files write none. *)
Lemma store_idle (c : Call) (w : World) :
  bus_records w → writes_files c = true →
  files (after c w) = files w ∧ dirs (after c w) = dirs w.
Proof.
  intros Hw Hc. destruct c; try discriminate Hc; unfold after; simpl exec.
  - rewrite world_of_ignore. destruct (uploadSessions w !! fileId) as [s|] eqn:Hs.
    + destruct (Hw _ s Hs) as (Ht & _).
      by rewrite (uploadChunk_zero_total w fileId chunkIndex chunkData chunkHash s).
    + by rewrite uploadChunk_no_session.
  - rewrite world_of_ignore. destruct (uploadSessions w !! fileId) as [s|] eqn:Hs.
    + destruct (Hw _ s Hs) as (_ & Hr & _).
      by rewrite (assembleFile_no_receivedChunks w fileId finalPath s).
    + by rewrite assembleFile_no_session.
  - rewrite cancelUpload_bus_record by done.
    split.
    + by apply (exec_files (HandleUploadError fileId (mkError "Upload cancelled") false)
                  (files w) eq_refl w).
    + by apply (exec_dirs (HandleUploadError fileId (mkError "Upload cancelled") false)
                  (dirs w) eq_refl w).
Qed.

Lemma files_run (cs : list Call) (t0 : Z) : files (run cs (boot t0)) = ∅.
Proof.
  induction cs as [|c cs IH] using rev_ind; [done|].
  rewrite run_snoc. destruct (writes_files c) eqn:Hc.
  - destruct (store_idle c (run cs (boot t0)) (bus_records_run cs t0) Hc) as [-> _]. done.
  - unfold after. by rewrite (exec_files c (files (run cs (boot t0))) Hc (run cs (boot t0))).
Qed.

End Idle_store.

(** X7.  Whatever the calls made since the process started, the chunk
    manager has written no file: no chunk is ever stored and no file is ever
    assembled, and the next call, whichever it is, writes none either. *)
Theorem nothing_is_written `{Env} (cs : list Call) (c : Call) (t0 : Z) :
  files (run cs (boot t0)) = ∅
  ∧ files (after c (run cs (boot t0))) = files (run cs (boot t0)).
Proof.
  split; [apply files_run|].
  rewrite <- run_snoc. by rewrite !files_run.
Qed.

(** * The pipeline table *)

Section Pipeline_table.
Context `{Env}.
Import ProcessingPipeline.

Lemma pipelines_updateProgress f p stg w :
  pipelines (world_of (UploadProgress.updateProgress f p stg w)) = pipelines w.
Proof. by destruct (updateProgress_sends f p stg w) as (_ & Hp & _). Qed.

Lemma pipelines_put_then_progress f pl p stg w :
  pipelines (world_of ((put_pipeline f pl ;; UploadProgress.updateProgress f p stg) w))
  = <[f := pl]> (pipelines w).
Proof.
  unfold put_pipeline, world_of. rewrite run_modify_bind.
  apply (pipelines_updateProgress f p stg).
Qed.

Lemma pipelines_initializePipeline f u md req w :
  pipelines (world_of (initializePipeline f u md req w))
  = <[f := fresh_pipeline f u md req (now w)]> (pipelines w).
Proof.
  unfold initializePipeline, world_of. rewrite run_get_bind.
  apply pipelines_put_then_progress.
Qed.

Lemma pipelines_startStage f n w :
  pipelines (world_of (startStage f n w))
  = match pipelines w !! f with
    | Some pl =>
        match find_stage n (Pipeline.stages pl) with
        | Some _ => <[f := started pl n (now w)]> (pipelines w)
        | None => pipelines w
        end
    | None => pipelines w
    end.
Proof.
  unfold startStage, world_of. rewrite run_get_bind.
  destruct (pipelines w !! f) as [pl|]; [|done].
  destruct (find_stage n (Pipeline.stages pl)); [|done].
  apply pipelines_put_then_progress.
Qed.

Lemma pipelines_updateStageProgress f n q w :
  pipelines (world_of (updateStageProgress f n q w))
  = match pipelines w !! f with
    | Some pl =>
        match find_stage n (Pipeline.stages pl) with
        | Some st =>
            if decide (Stage.status st ≠ "running") then pipelines w
            else <[f := progressed pl n q]> (pipelines w)
        | None => pipelines w
        end
    | None => pipelines w
    end.
Proof.
  unfold updateStageProgress, world_of. rewrite run_get_bind.
  destruct (pipelines w !! f) as [pl|]; [|done].
  destruct (find_stage n (Pipeline.stages pl)); [|done].
  case_decide; [done|]. apply pipelines_put_then_progress.
Qed.

Lemma pipelines_completeStage f n w :
  pipelines (world_of (completeStage f n w))
  = match pipelines w !! f with
    | Some pl =>
        match find_stage n (Pipeline.stages pl) with
        | Some st => <[f := stage_done pl n st (now w)]> (pipelines w)
        | None => pipelines w
        end
    | None => pipelines w
    end.
Proof.
  unfold completeStage, world_of. rewrite run_get_bind.
  destruct (pipelines w !! f) as [pl|]; [|done].
  destruct (find_stage n (Pipeline.stages pl)); [|done].
  apply pipelines_put_then_progress.
Qed.

Lemma pipelines_handleStageError f n e r w :
  pipelines (world_of (handleStageError f n e r w))
  = match pipelines w !! f with
    | Some pl =>
        match find_stage n (Pipeline.stages pl) with
        | Some _ => <[f := stage_failed pl n (message e) r (now w)]> (pipelines w)
        | None => pipelines w
        end
    | None => pipelines w
    end.
Proof.
  unfold handleStageError, world_of. rewrite run_get_bind.
  destruct (pipelines w !! f) as [pl|]; [|done].
  destruct (find_stage n (Pipeline.stages pl)); [|done].
  apply pipelines_put_then_progress.
Qed.

Lemma pipelines_addWarning f n msg w :
  pipelines (world_of (addWarning f n msg w))
  = match pipelines w !! f with
    | Some pl =>
        <[f := with_logs pl (Pipeline.stageHistory pl) (Pipeline.errors pl)
                 (Pipeline.warnings pl ++
                    [{| Pipeline.w_stage := n; Pipeline.w_warning := msg;
                        Pipeline.w_timestamp := now w |}])]> (pipelines w)
    | None => pipelines w
    end.
Proof.
  unfold addWarning, world_of. rewrite run_get_bind.
  by destruct (pipelines w !! f) as [pl|].
Qed.

Lemma pipelines_completeUpload f w :
  pipelines (world_of (UploadProgress.completeUpload f w)) = pipelines w.
Proof.
  by apply (exec_pipelines (CompleteUpload f) (pipelines w) eq_refl w).
Qed.

Lemma pipelines_completePipeline f w :
  pipelines (world_of (completePipeline f w))
  = match pipelines w !! f with
    | Some pl => <[f := with_end pl (now w)]> (pipelines w)
    | None => pipelines w
    end.
Proof.
  unfold completePipeline, world_of. rewrite run_get_bind.
  destruct (pipelines w !! f) as [pl|]; [|done].
  unfold put_pipeline. rewrite run_modify_bind, run_bind.
  pose proof (pipelines_completeUpload f
    (set_pipelines w (<[f := with_end pl (now w)]> (pipelines w)))) as Hp.
  unfold world_of in Hp.
  destruct (UploadProgress.completeUpload f _) as [[[[]|e] w1] es1]; simpl in *; done.
Qed.

End Pipeline_table.

(** ** Pipelines stay well formed *)

Section Pipeline_wf.
Context `{Env}.
Import ProcessingPipeline.

Lemma clamp_unit (q : Q) : (0 <= Qmin 1 (Qmax 0 q) <= 1)%Q.
Proof.
  split; [apply Q.min_glb; [by compute | apply Q.le_max_l] | apply Q.le_min_l].
Qed.

Lemma contribution_bounds s : stage_wf s → (0 <= contribution s <= Stage.weight s)%Q.
Proof.
  intros [Hw [Hp0 Hp1]]. unfold contribution.
  repeat case_decide; try lra; nra.
Qed.

Lemma completedWeight_bounds stages :
  Forall stage_wf stages → (0 <= completedWeight stages <= totalWeight stages)%Q.
Proof.
  induction 1 as [|s rest Hs Hrest IH]; simpl; [lra|].
  pose proof (contribution_bounds s Hs). lra.
Qed.

Lemma aggregate_bounds stages : Forall stage_wf stages → (0 <= aggregate stages <= 1)%Q.
Proof.
  intros Hwf. pose proof (completedWeight_bounds stages Hwf) as [Hc0 Hc1].
  unfold aggregate. destruct (Qlt_le_dec 0 (totalWeight stages)) as [Hpos|_]; [|lra].
  split.
  - apply Qle_shift_div_l; [done | lra].
  - apply Qle_shift_div_r; [done | lra].
Qed.

Lemma update_stage_names n g stages :
  (∀ s, Stage.name (g s) = Stage.name s) →
  map Stage.name (update_stage n g stages) = map Stage.name stages.
Proof.
  intros Hg. induction stages as [|s rest IH]; simpl; [done|].
  case_decide; simpl; [by rewrite Hg | by rewrite IH].
Qed.

Lemma update_stage_wf n g stages :
  (∀ s, stage_wf s → stage_wf (g s)) →
  Forall stage_wf stages → Forall stage_wf (update_stage n g stages).
Proof.
  intros Hg. induction 1 as [|s rest Hs Hrest IH]; simpl; [constructor|].
  case_decide; constructor; auto.
Qed.

Lemma buildStageList_wf req : Forall stage_wf (buildStageList req).
Proof.
  pose proof (buildStageList_weights req) as Hw.
  unfold buildStageList in *. rewrite Forall_forall in Hw. apply Forall_forall.
  intros s Hs. split; [by apply Hw|].
  apply list_elem_of_fmap in Hs as (nm & -> & _). simpl. lra.
Qed.

Lemma buildStageList_names req : map Stage.name (buildStageList req) = stage_names req.
Proof.
  unfold buildStageList, stage_names. rewrite map_map. simpl. f_equal. f_equal. f_equal.
  rewrite map_app. simpl. f_equal. induction req as [|r req IH]; simpl; by f_equal.
Qed.

Lemma fresh_pipeline_wf f u md req t : pipeline_wf f (fresh_pipeline f u md req t).
Proof.
  split; [done|]. split; [exists req; apply buildStageList_names|].
  split; [apply buildStageList_wf|]. simpl. lra.
Qed.

Lemma started_wf f pl n t : pipeline_wf f pl → pipeline_wf f (started pl n t).
Proof.
  intros (Hf & [req Hn] & Hwf & Hsp & Hop).
  assert (Forall stage_wf (update_stage n (stage_running t) (Pipeline.stages pl))) as Hwf'.
  { apply update_stage_wf; [|done]. intros s [Hw Hp]. split; [done|]. simpl. lra. }
  split; [done|]. split; [exists req; simpl; by rewrite update_stage_names|].
  split; [done|]. split; [simpl; lra|]. simpl. by apply aggregate_bounds.
Qed.

Lemma progressed_wf f pl n q : pipeline_wf f pl → pipeline_wf f (progressed pl n q).
Proof.
  intros (Hf & [req Hn] & Hwf & Hsp & Hop).
  assert (Forall stage_wf
            (update_stage n (stage_progress (Qmin 1 (Qmax 0 q))) (Pipeline.stages pl)))
    as Hwf'.
  { apply update_stage_wf; [|done]. intros s [Hw Hp]. split; [done|]. apply clamp_unit. }
  split; [done|]. split; [exists req; simpl; by rewrite update_stage_names|].
  split; [done|]. split; [apply clamp_unit|]. simpl. by apply aggregate_bounds.
Qed.

Lemma stage_done_wf f pl n st t : pipeline_wf f pl → pipeline_wf f (stage_done pl n st t).
Proof.
  intros (Hf & [req Hn] & Hwf & Hsp & Hop).
  assert (Forall stage_wf (update_stage n (stage_completed t) (Pipeline.stages pl)))
    as Hwf'.
  { apply update_stage_wf; [|done]. intros s [Hw Hp]. split; [done|]. simpl. lra. }
  split; [done|]. split; [exists req; simpl; by rewrite update_stage_names|].
  split; [done|]. split; [done|]. simpl. by apply aggregate_bounds.
Qed.

Lemma stage_failed_wf f pl n msg r t :
  pipeline_wf f pl → pipeline_wf f (stage_failed pl n msg r t).
Proof.
  intros (Hf & [req Hn] & Hwf & Hsp & Hop).
  split; [done|]. split; [exists req; simpl; by rewrite update_stage_names|].
  split; [|done]. simpl. apply update_stage_wf; [|done]. by intros s [Hw Hp].
Qed.

Lemma pipelines_wf_insert w f pl :
  pipelines_wf w → pipeline_wf f pl → ∀ f' p, <[f := pl]> (pipelines w) !! f' = Some p →
  pipeline_wf f' p.
Proof.
  intros Hw Hpl f' p. rewrite lookup_insert. case_decide as Hf; [|apply Hw].
  subst f'. by intros [= <-].
Qed.

Lemma pipelines_wf_exec (c : Call) (w : World) : pipelines_wf w → pipelines_wf (after c w).
Proof.
  intros Hw. destruct (writes_pipelines c) eqn:Hc.
  2: { intros f p. unfold after.
       rewrite (exec_pipelines c (pipelines w) Hc w eq_refl). apply Hw. }
  unfold pipelines_wf, after.
  destruct c; try discriminate Hc; simpl exec.
  - rewrite pipelines_initializePipeline.
    apply pipelines_wf_insert; [done | apply fresh_pipeline_wf].
  - rewrite pipelines_startStage.
    destruct (pipelines w !! fileId) as [pl|] eqn:Hpl; [|done].
    destruct (find_stage _ _); [|done].
    apply pipelines_wf_insert; [done|]. apply started_wf. by apply Hw.
  - rewrite pipelines_updateStageProgress.
    destruct (pipelines w !! fileId) as [pl|] eqn:Hpl; [|done].
    destruct (find_stage _ _); [|done]. case_decide; [done|].
    apply pipelines_wf_insert; [done|]. apply progressed_wf. by apply Hw.
  - rewrite pipelines_completeStage.
    destruct (pipelines w !! fileId) as [pl|] eqn:Hpl; [|done].
    destruct (find_stage _ _); [|done].
    apply pipelines_wf_insert; [done|]. apply stage_done_wf. by apply Hw.
  - rewrite pipelines_handleStageError.
    destruct (pipelines w !! fileId) as [pl|] eqn:Hpl; [|done].
    destruct (find_stage _ _); [|done].
    apply pipelines_wf_insert; [done|]. apply stage_failed_wf. by apply Hw.
  - rewrite pipelines_addWarning.
    destruct (pipelines w !! fileId) as [pl|] eqn:Hpl; [|done].
    apply pipelines_wf_insert; [done|]. exact (Hw _ _ Hpl).
  - rewrite pipelines_completePipeline.
    destruct (pipelines w !! fileId) as [pl|] eqn:Hpl; [|done].
    apply pipelines_wf_insert; [done|].
    destruct (Hw _ _ Hpl) as (Hf & Hn & Hwf & Hsp & Hop).
    split; [done|]. split; [done|]. split; [done|]. split; [done|]. simpl. lra.
  - intros f p. simpl. rewrite map_lookup_filter_Some. intros [Hp _]. by apply Hw.
  - intros f p. simpl. rewrite lookup_delete. case_decide; [done | apply Hw].
Qed.

Lemma pipelines_wf_run (cs : list Call) (t0 : Z) : pipelines_wf (run cs (boot t0)).
Proof.
  induction cs as [|c cs IH] using rev_ind.
  - intros f p. simpl. by rewrite lookup_empty.
  - rewrite run_snoc. by apply pipelines_wf_exec.
Qed.

End Pipeline_wf.

(** X8.  Whatever the calls made since the process started, every pipeline
    in the table sits under its own [fileId] and still has the stage list
    it was built with (['upload'], ['validation'], ['processing'], the
    required stages, ['storage'], ['cleanup']: no method adds, removes or
    renames a stage), and every stage has a positive weight, so the sum of
    the weights that [updateOverallProgress] divides by is positive. *)
Theorem pipelines_stay_well_formed `{Env} (cs : list Call) (t0 : Z)
    (f : string) (p : Pipeline.t) :
  pipelines (run cs (boot t0)) !! f = Some p →
  Pipeline.fileId p = f
  ∧ (∃ requiredStages, map Stage.name (Pipeline.stages p) = stage_names requiredStages)
  ∧ Forall (λ s, (0 < Stage.weight s)%Q) (Pipeline.stages p)
  ∧ (0 < ProcessingPipeline.totalWeight (Pipeline.stages p))%Q.
Proof.
  intros Hp. destruct (pipelines_wf_run cs t0 f p Hp) as (Hf & [req Hn] & Hwf & _).
  assert (Forall (λ s, (0 < Stage.weight s)%Q) (Pipeline.stages p)) as Hw.
  { eapply Forall_impl; [exact Hwf|]. by intros s [Hs _]. }
  split; [done|]. split; [by exists req|]. split; [done|].
  destruct (Pipeline.stages p) as [|s rest]; [done|].
  assert (∀ l, Forall (λ s, (0 < Stage.weight s)%Q) l
               → (0 <= ProcessingPipeline.totalWeight l)%Q) as Hnn.
  { induction 1 as [|s' l Hs' Hl IH]; simpl; lra. }
  apply Forall_cons in Hw as [Hs Hrest]. specialize (Hnn _ Hrest). simpl. lra.
Qed.

Lemma pipelines_stay_well_formed_witness :
  ∃ p, pipelines (run (H := sample_env)
                    (pipeline_started ++ [UpdateStageProgress "f1" "upload" (8 # 10)])
                    (boot 0)) !! "f1" = Some p
       ∧ (0 < ProcessingPipeline.totalWeight (Pipeline.stages p))%Q.
Proof.
  eexists. split; [vm_compute; reflexivity|].
  refine (proj2 (proj2 (proj2
    (pipelines_stay_well_formed (H := sample_env)
       (pipeline_started ++ [UpdateStageProgress "f1" "upload" (8 # 10)]) 0 "f1" _ _)))).
  vm_compute. reflexivity.
Defined.

(** ** The end of a stage and of a pipeline *)

Section Pipeline_end.
Context `{Env}.
Import ProcessingPipeline.

Lemma find_stage_update n g stages st :
  find_stage n stages = Some st →
  (∀ s, Stage.name (g s) = Stage.name s) →
  find_stage n (update_stage n g stages) = Some (g st).
Proof.
  intros Hfind Hg. induction stages as [|s rest IH]; simpl in *; [done|].
  case_decide as Hn; simpl.
  - injection Hfind as ->. by rewrite decide_True by (by rewrite Hg).
  - rewrite decide_False by done. by apply IH.
Qed.

(** X9.  [completeStage] does not ask for the stage to be running.  It marks
    the first stage of the name ['completed'] with [progress = 1], appends
    exactly one entry to [stageHistory], and recomputes [overallProgress].
    The duration it records is [endTime - startTime]; for a stage that was
    never started [startTime] is [null], so the recorded duration is the
    timestamp [Date.now()] itself. *)
Theorem completeStage_records_duration (f n : string) (w : World)
    (pl : Pipeline.t) (st : Stage.t) :
  pipelines w !! f = Some pl →
  find_stage n (Pipeline.stages pl) = Some st →
  ∃ pl' st',
    pipelines (world_of (completeStage f n w)) !! f = Some pl'
    ∧ find_stage n (Pipeline.stages pl') = Some st'
    ∧ Stage.status st' = "completed" ∧ Stage.progress st' = 1%Q
    ∧ Stage.endTime st' = Some (now w)
    ∧ Stage.duration st' = Some (now w - default 0 (Stage.startTime st))
    ∧ Pipeline.stageHistory pl'
      = Pipeline.stageHistory pl ++
          [{| Pipeline.h_stage := n; Pipeline.h_startTime := Stage.startTime st;
              Pipeline.h_endTime := now w;
              Pipeline.h_duration := now w - default 0 (Stage.startTime st) |}]
    ∧ Pipeline.overallProgress pl' = aggregate (Pipeline.stages pl')
    ∧ (Stage.startTime st = None → Stage.duration st' = Some (now w)).
Proof.
  intros Hpl Hfind. exists (stage_done pl n st (now w)), (stage_completed (now w) st).
  rewrite pipelines_completeStage, Hpl, Hfind, lookup_insert_eq.
  split; [done|]. split; [by apply find_stage_update|].
  repeat split; try done.
  intros Hst. simpl. unfold elapsed. rewrite Hst. simpl. f_equal. lia.
Qed.

End Pipeline_end.

Lemma completeStage_records_duration_witness :
  let w := run (H := sample_env)
             [InitializePipeline "f1" "u1" (sample_metadata (3 * MiB)) [];
              ClockAdvance 1700000000000] (boot 0) in
  ∃ pl' st',
    pipelines (world_of (ProcessingPipeline.completeStage "f1" "processing" w)) !! "f1"
    = Some pl'
    ∧ ProcessingPipeline.find_stage "processing" (Pipeline.stages pl') = Some st'
    ∧ Stage.duration st' = Some 1700000000000.
Proof.
  cbv zeta.
  destruct (completeStage_records_duration "f1" "processing"
              (run (H := sample_env)
                 [InitializePipeline "f1" "u1" (sample_metadata (3 * MiB)) [];
                  ClockAdvance 1700000000000] (boot 0))
              (fresh_pipeline "f1" "u1" (sample_metadata (3 * MiB)) [] 0)
              (ProcessingPipeline.new_stage "processing"))
    as (pl' & st' & Hpl' & Hst' & _ & _ & _ & _ & _ & _ & Hd).
  - vm_compute. reflexivity.
  - vm_compute. reflexivity.
  - exists pl', st'. split; [exact Hpl'|]. split; [exact Hst'|]. by apply Hd.
Defined.

Section Pipeline_completion.
Context `{Env}.
Import ProcessingPipeline.

Lemma completeUpload_unregistered f w :
  uploadSessions w !! f = None → UploadProgress.completeUpload f w = (Normal tt, w, []).
Proof. intros Hs. by rewrite run_completeUpload, Hs. Qed.

Lemma completeUpload_session f w s :
  uploadSessions w !! f = Some s →
  uploadSessions (world_of (UploadProgress.completeUpload f w)) !! f
  = Some (Session.set_completed s (now w)).
Proof.
  intros Hs. rewrite run_completeUpload, Hs. cbv zeta. unfold world_of. cbn [fst snd].
  pose proof (broadcastToUser_sessions (Session.userId s)
    (upload_completed f (now w - Session.startTime s))
    (set_uploadSessions w (<[f := Session.set_completed s (now w)]> (uploadSessions w))))
    as Hu.
  unfold world_of in Hu. rewrite Hu. simpl. by rewrite lookup_insert_eq.
Qed.

Lemma completeUpload_timers f w :
  completion (UploadProgress.completeUpload f w) = Normal tt
  ∧ filter (λ e, is_timer e = true) (effects_of (UploadProgress.completeUpload f w))
    = match uploadSessions w !! f with
      | Some _ => [SetTimeout (DeleteUploadSession f) 30000]
      | None => []
      end.
Proof.
  rewrite run_completeUpload. destruct (uploadSessions w !! f) as [s|]; [|done].
  cbv zeta. unfold completion, effects_of. simpl. split; [done|].
  rewrite filter_app, run_broadcastToUser.
  destruct (clients _ !! _) as [l|]; simpl; [|done].
  rewrite (filter_cons_True _ (SetTimeout _ _)) by done. rewrite filter_nil.
  assert (∀ l' : list nat, filter (λ e, is_timer e = true)
            (map (λ ws, Send ws (upload_completed f (now w - Session.startTime s))) l')
          = []) as ->; [|done].
  induction l' as [|x l' IH]; [done|]. simpl. by rewrite filter_cons_False.
Qed.

(** X10.  [completePipeline] sets [overallProgress] to 1 whatever the state
    of the stages (the stage list is left as it is), records [endTime] and
    [totalDuration], and completes the upload session of the file; it sets
    the 30-second timer of [completeUpload] (when the file has a session)
    and then its own 60-second timer.  Once both timers have fired neither
    the session nor the pipeline of the file is left. *)
Theorem completePipeline_lifecycle (f : string) (w : World) (pl : Pipeline.t) :
  pipelines w !! f = Some pl →
  let r := completePipeline f w in
  completion r = Normal tt
  ∧ (∃ pl', pipelines (world_of r) !! f = Some pl'
            ∧ Pipeline.overallProgress pl' = 1%Q
            ∧ Pipeline.stages pl' = Pipeline.stages pl
            ∧ Pipeline.endTime pl' = Some (now w)
            ∧ Pipeline.totalDuration pl' = Some (now w - Pipeline.startTime pl))
  ∧ (∀ s, uploadSessions w !! f = Some s →
          uploadSessions (world_of r) !! f = Some (Session.set_completed s (now w)))
  ∧ filter (λ e, is_timer e = true) (effects_of r)
    = match uploadSessions w !! f with
      | Some _ => [SetTimeout (DeleteUploadSession f) 30000]
      | None => []
      end ++ [SetTimeout (DeletePipeline f) 60000]
  ∧ let w' := run [TimerDeleteUploadSession f; TimerDeletePipeline f] (world_of r) in
    uploadSessions w' !! f = None ∧ pipelines w' !! f = None.
Proof.
  intros Hpl r.
  assert (r = let r1 := UploadProgress.completeUpload f
                          (set_pipelines w (<[f := with_end pl (now w)]> (pipelines w))) in
              (Normal tt, r1.1.2, r1.2 ++ [SetTimeout (DeletePipeline f) 60000])) as Hr.
  { unfold r, completePipeline. rewrite run_get_bind, Hpl.
    unfold put_pipeline. rewrite run_modify_bind, run_bind.
    destruct (completeUpload_timers f
      (set_pipelines w (<[f := with_end pl (now w)]> (pipelines w)))) as [Hc _].
    unfold completion in Hc.
    destruct (UploadProgress.completeUpload f _) as [[[[]|e] w1] es1]; simpl in *; done. }
  clearbody r. subst r. cbv zeta.
  set (w1 := set_pipelines w (<[f := with_end pl (now w)]> (pipelines w))).
  unfold completion, world_of, effects_of. cbn [fst snd].
  split; [done|]. split.
  { exists (with_end pl (now w)).
    pose proof (pipelines_completeUpload f w1) as Hp. unfold world_of in Hp.
    rewrite Hp. unfold w1. simpl. by rewrite lookup_insert_eq. }
  split.
  { intros s Hs. exact (completeUpload_session f w1 s Hs). }
  split.
  { rewrite filter_app. destruct (completeUpload_timers f w1) as [_ Ht].
    unfold effects_of in Ht. rewrite Ht. done. }
  unfold run. simpl. unfold after. simpl exec.
  unfold UploadProgress.deleteUploadSession, deletePipeline, world_of, modify. simpl.
  by rewrite !lookup_delete_eq.
Qed.

End Pipeline_completion.

Lemma completePipeline_lifecycle_witness :
  let w := run (H := sample_env) pipeline_started (boot 0) in
  ∃ pl', pipelines (world_of (ProcessingPipeline.completePipeline "f1" w)) !! "f1"
         = Some pl'
         ∧ Pipeline.overallProgress pl' = 1%Q.
Proof.
  cbv zeta.
  destruct (completePipeline_lifecycle (H := sample_env) "f1"
              (run (H := sample_env) pipeline_started (boot 0))
              (started (fresh_pipeline "f1" "u1" (sample_metadata (3 * MiB)) [] 0)
                 "upload" 0))
    as (_ & (pl' & Hpl' & Ho & _) & _).
  - vm_compute. reflexivity.
  - exists pl'. by split.
Defined.

Section Every_stage.
Context `{Env}.
Import ProcessingPipeline.

Lemma find_stage_is_Some n stages :
  n ∈ map Stage.name stages → is_Some (find_stage n stages).
Proof.
  induction stages as [|s rest IH]; simpl; [by intros ?%elem_of_nil|].
  intros Hin. case_decide as Hn; [by eexists|].
  apply IH. apply elem_of_cons in Hin as [Heq|Hin]; [congruence | done].
Qed.

(** With distinct stage names, [update_stage] changes the one stage of the
    name and leaves the others. *)
Lemma elem_of_update_stage n g stages s :
  NoDup (map Stage.name stages) →
  (∀ s0, Stage.name (g s0) = Stage.name s0) →
  s ∈ update_stage n g stages →
  (∃ s0, s0 ∈ stages ∧ Stage.name s0 = n ∧ s = g s0)
  ∨ (s ∈ stages ∧ Stage.name s ≠ n).
Proof.
  intros Hnd Hg. induction stages as [|s1 rest IH]; simpl; [by intros ?%elem_of_nil|].
  simpl in Hnd. apply NoDup_cons in Hnd as [Hnotin Hnd].
  case_decide as Hn.
  - intros [->|Hin]%elem_of_cons.
    + left. exists s1. split; [left|done].
    + right. split; [by right|]. intros Heq. apply Hnotin. rewrite Hn, <- Heq.
      by apply list_elem_of_fmap_2.
  - intros [->|Hin]%elem_of_cons.
    + right. split; [left | done].
    + destruct (IH Hnd Hin) as [(s0 & Hs0 & Hn0 & ->) | [Hs Hne]].
      * left. exists s0. split; [by right | done].
      * right. split; [by right | done].
Qed.

Lemma completedWeight_all stages :
  all_completed stages → (completedWeight stages == totalWeight stages)%Q.
Proof.
  induction 1 as [|s rest Hs Hrest IH]; simpl; [reflexivity|].
  unfold contribution at 1. rewrite decide_True by done. by rewrite IH.
Qed.

Lemma all_completed_aggregate stages :
  all_completed stages → (0 < totalWeight stages)%Q → (aggregate stages == 1)%Q.
Proof.
  intros Hall Hpos. unfold aggregate.
  destruct (Qlt_le_dec 0 (totalWeight stages)) as [_|Hle]; [|lra].
  rewrite (completedWeight_all stages Hall). field. lra.
Qed.

Lemma totalWeight_pos stages :
  Forall stage_wf stages → stages ≠ [] → (0 < totalWeight stages)%Q.
Proof.
  intros Hwf Hne. destruct Hwf as [|s rest [Hs _] Hrest]; [done|]. simpl.
  assert (0 <= totalWeight rest)%Q; [|lra].
  clear Hne. induction Hrest as [|s' rest' [Hs' _] Hrest' IH]; simpl; lra.
Qed.

Lemma complete_stages_run f names w p :
  pipelines w !! f = Some p → pipeline_wf f p →
  NoDup (map Stage.name (Pipeline.stages p)) →
  names ⊆ map Stage.name (Pipeline.stages p) →
  ∃ p', pipelines (run (map (CompleteStage f) names) w) !! f = Some p'
        ∧ pipeline_wf f p'
        ∧ map Stage.name (Pipeline.stages p') = map Stage.name (Pipeline.stages p)
        ∧ (∀ s, s ∈ Pipeline.stages p' → Stage.name s ∈ names →
                Stage.status s = "completed")
        ∧ (names ≠ [] → Pipeline.overallProgress p' = aggregate (Pipeline.stages p')).
Proof.
  intros Hp Hwf Hnd. induction names as [|n names IH] using rev_ind; intros Hsub.
  - exists p. split; [done|]. split; [done|]. split; [done|]. split; [|done].
    intros s _ Hin. by apply elem_of_nil in Hin.
  - destruct IH as (p1 & Hp1 & Hwf1 & Hn1 & Hc1 & _);
      [intros x Hx; apply Hsub, elem_of_app; by left|].
    rewrite map_app. simpl map. rewrite run_snoc. unfold after. simpl exec.
    destruct (find_stage_is_Some n (Pipeline.stages p1)) as [st Hst];
      [rewrite Hn1; apply Hsub, elem_of_app; right; left|].
    exists (stage_done p1 n st (now (run (map (CompleteStage f) names) w))).
    rewrite pipelines_completeStage, Hp1, Hst, lookup_insert_eq.
    split; [done|]. split; [by apply stage_done_wf|].
    split; [simpl; by rewrite update_stage_names|].
    split; [|done].
    intros s Hs Hin. simpl in Hs.
    apply elem_of_update_stage in Hs as [(s0 & _ & _ & ->) | [Hs Hne]];
      [done | | by rewrite Hn1 | done].
    apply Hc1; [done|]. apply elem_of_app in Hin as [Hin | Hin%list_elem_of_singleton];
      [done | congruence].
Qed.

End Every_stage.

(** X11.  When the stage names of a pipeline are distinct, calling
    [completeStage] once for every stage of its list, in the order of the
    list, leaves every stage ['completed'] and brings [overallProgress] to 1:
    the weights are normalised by their sum, whatever stages were required.
    (With a repeated name only the first stage of that name is ever found,
    so the second one stays ['pending'].) *)
Theorem completing_every_stage_reaches_one `{Env} (cs : list Call) (t0 : Z)
    (f : string) (p : Pipeline.t) :
  pipelines (run cs (boot t0)) !! f = Some p →
  NoDup (map Stage.name (Pipeline.stages p)) →
  ∃ p', pipelines
          (run (cs ++ map (CompleteStage f) (map Stage.name (Pipeline.stages p)))
               (boot t0)) !! f = Some p'
        ∧ all_completed (Pipeline.stages p')
        ∧ (Pipeline.overallProgress p' == 1)%Q.
Proof.
  intros Hp Hnd. pose proof (pipelines_wf_run cs t0 f p Hp) as Hwf.
  destruct (complete_stages_run f (map Stage.name (Pipeline.stages p))
              (run cs (boot t0)) p Hp Hwf Hnd) as (p' & Hp' & Hwf' & Hn' & Hc' & Ho');
    [done|].
  exists p'. unfold run in *. rewrite foldl_app. split; [done|].
  assert (all_completed (Pipeline.stages p')) as Hall.
  { apply Forall_forall. intros s Hs. apply Hc'; [done|]. rewrite <- Hn'.
    by apply list_elem_of_fmap_2. }
  split; [done|].
  destruct Hwf' as (_ & [req Hreq] & Hst & _).
  assert (Pipeline.stages p' ≠ []) as Hne.
  { intros Hnil. rewrite Hnil in Hreq. discriminate Hreq. }
  rewrite Ho'.
  - apply all_completed_aggregate; [done|]. by apply totalWeight_pos.
  - rewrite <- Hn'. intros Hnil. apply Hne. by destruct (Pipeline.stages p').
Qed.

Lemma completing_every_stage_reaches_one_witness :
  ∃ p', pipelines
          (run (H := sample_env)
             (pipeline_started ++
              map (CompleteStage "f1")
                ["upload"; "validation"; "processing"; "storage"; "cleanup"])
             (boot 0)) !! "f1" = Some p'
        ∧ (Pipeline.overallProgress p' == 1)%Q.
Proof.
  destruct (completing_every_stage_reaches_one (H := sample_env) pipeline_started 0 "f1"
              (started (fresh_pipeline "f1" "u1" (sample_metadata (3 * MiB)) [] 0)
                 "upload" 0))
    as (p' & Hp' & _ & Ho).
  - vm_compute. reflexivity.
  - apply (bool_decide_unpack _). vm_compute. exact Logic.I.
  - exists p'. split; [exact Hp' | exact Ho].
Defined.

(** * Classification of errors *)

(** X12.  The decision table of the recovery.  An error is retried exactly
    when its lower-cased message contains none of the five phrases of
    [nonRetryableMessages] and is not classified ['format'], ['permission']
    or ['auth'].  The classification takes the first rule that applies, so
    a message that mentions ['network'], ['timeout'], ['size'] or ['limit']
    escapes the three non-retryable categories whatever else it mentions,
    and a message that mentions ['storage'] or ['disk'] is never
    ['auth']. *)
Theorem retryable_decision_table (e : Error) :
  ErrorRecovery.isRetryableError e (ErrorRecovery.categorizeError e)
  = (((mentions e "network" || mentions e "timeout")
      || (mentions e "size" || mentions e "limit")
      || negb ((mentions e "format" || mentions e "type")
               || (mentions e "permission" || mentions e "access")
               || (negb (mentions e "storage" || mentions e "disk")
                   && (mentions e "authentication" || mentions e "auth"))))
     && negb (mentions e "unsupported file type" || mentions e "file too large"
              || mentions e "invalid file format" || mentions e "permission denied"
              || mentions e "authentication failed"))%bool
  ∧ ErrorRecovery.categorizeError e
    ∈ ["network"; "size"; "format"; "permission"; "storage"; "auth"; "unknown"].
Proof.
  unfold ErrorRecovery.isRetryableError, ErrorRecovery.categorizeError, mentions.
  set (m := Js.toLowerCase (message e)).
  assert (existsb (λ nonRetryable, Js.includes nonRetryable m)
            ["unsupported file type"; "file too large"; "invalid file format";
             "permission denied"; "authentication failed"]
          = (Js.includes "unsupported file type" m || Js.includes "file too large" m
             || Js.includes "invalid file format" m || Js.includes "permission denied" m
             || Js.includes "authentication failed" m)%bool) as ->.
  { simpl. by rewrite orb_false_r, !orb_assoc. }
  generalize (Js.includes "unsupported file type" m || Js.includes "file too large" m
              || Js.includes "invalid file format" m || Js.includes "permission denied" m
              || Js.includes "authentication failed" m)%bool.
  intros phrase.
  destruct (Js.includes "network" m || Js.includes "timeout" m)%bool;
    [simpl; split; [reflexivity | set_solver]|].
  destruct (Js.includes "size" m || Js.includes "limit" m)%bool;
    [simpl; split; [reflexivity | set_solver]|].
  destruct (Js.includes "format" m || Js.includes "type" m)%bool;
    [simpl; split; [reflexivity | set_solver]|].
  destruct (Js.includes "permission" m || Js.includes "access" m)%bool;
    [simpl; split; [reflexivity | set_solver]|].
  destruct (Js.includes "storage" m || Js.includes "disk" m)%bool;
    [simpl; split; [reflexivity | set_solver]|].
  destruct (Js.includes "authentication" m || Js.includes "auth" m)%bool;
    simpl; (split; [reflexivity | set_solver]).
Qed.

(** * What a recovery action comes with *)

Section Recovery_outcome.
Import ErrorRecovery.

Lemma timers_sends {A} (g : A → Effect) (l : list A) :
  (∀ x, is_timer (g x) = false) → timers (map g l) = [].
Proof.
  intros Hg. unfold timers. induction l as [|x l IH]; [done|]. simpl.
  rewrite filter_cons_False; [done|]. rewrite Hg. done.
Qed.

(** What [handleUploadError] does to the session and what it sends. *)
Lemma handleUploadError_marks f e r w :
  completion (UploadProgress.handleUploadError f e r w) = Normal tt
  ∧ uploadSessions (world_of (UploadProgress.handleUploadError f e r w))
    = match uploadSessions w !! f with
      | Some s => <[f := Session.set_error s (message e) r]> (uploadSessions w)
      | None => uploadSessions w
      end
  ∧ retryAttempts (world_of (UploadProgress.handleUploadError f e r w)) = retryAttempts w
  ∧ Forall (λ ef, ∃ ws, ef = Send ws (upload_error f (message e) r (now w)))
           (effects_of (UploadProgress.handleUploadError f e r w)).
Proof.
  rewrite run_handleUploadError. destruct (uploadSessions w !! f) as [s|] eqn:Hs.
  - split; [apply broadcastToUser_normal|].
    split; [by rewrite broadcastToUser_sessions|].
    split; [by rewrite broadcastToUser_retryAttempts|].
    rewrite run_broadcastToUser. destruct (clients _ !! _); simpl; [|constructor].
    apply Forall_forall. intros ef (ws & -> & _)%list_elem_of_fmap. by exists ws.
  - repeat split. constructor.
Qed.

Lemma timers_upload_error f msg r t es :
  Forall (λ ef, ∃ ws, ef = Send ws (upload_error f msg r t)) es → timers es = [].
Proof.
  induction 1 as [|ef es (ws & ->) Hes IH]; [done|].
  unfold timers in *. by rewrite filter_cons_False.
Qed.

(** X13.  [handleError] returns either the retry action or the failure
    action, and never throws.  It returns the failure action when the error
    is not retryable or the attempt just counted is the third one.  With the
    retry action it sets exactly one timer, for [executeRetry] with the
    same context and with the very delay that the action reports, and
    stores the counted attempt; with the failure action it sets no timer
    and deletes the retry record.  In both cases the session of the file,
    when there is one, is marked ['error'] with the message of the error,
    and its [retryable] flag, like the flag of the [upload_error] messages
    sent, tells which of the two actions was taken. *)
Theorem handleError_outcome (f : string) (e : Error) (c : Context) (random : Q)
    (w : World) :
  let r := handleError f e c random w in
  let a := attempts_of w f + 1 in
  let failure := (negb (isRetryableError e (categorizeError e))
                  || bool_decide (a >= maxRetries))%bool in
  let delay := calculateBackoffDelay a random in
  completion r
  = Normal (if failure
            then Failure a (message e) (RetryInfo.errorHistory (bumped w f e))
            else Retry delay a maxRetries (categorizeError e))
  ∧ timers (effects_of r)
    = (if failure then [] else [SetTimeout (ExecuteRetry f c) delay])
  ∧ retryAttempts (world_of r)
    = (if failure then delete f (retryAttempts w)
       else <[f := bumped w f e]> (retryAttempts w))
  ∧ uploadSessions (world_of r)
    = match uploadSessions w !! f with
      | Some s => <[f := Session.set_error s (message e) (negb failure)]>
                    (uploadSessions w)
      | None => uploadSessions w
      end
  ∧ Forall (λ ef, is_timer ef = true
                  ∨ ∃ ws, ef = Send ws (upload_error f (message e) (negb failure) (now w)))
           (effects_of r).
Proof.
  cbv zeta.
  change (wp (handleError f e c random) w (λ r w' es,
    r = Normal (if (negb (isRetryableError e (categorizeError e))
                    || bool_decide (attempts_of w f + 1 >= maxRetries))%bool
                then Failure (attempts_of w f + 1) (message e)
                       (RetryInfo.errorHistory (bumped w f e))
                else Retry (calculateBackoffDelay (attempts_of w f + 1) random)
                       (attempts_of w f + 1) maxRetries (categorizeError e))
    ∧ timers es
      = (if (negb (isRetryableError e (categorizeError e))
             || bool_decide (attempts_of w f + 1 >= maxRetries))%bool
         then []
         else [SetTimeout (ExecuteRetry f c)
                 (calculateBackoffDelay (attempts_of w f + 1) random)])
    ∧ retryAttempts w'
      = (if (negb (isRetryableError e (categorizeError e))
             || bool_decide (attempts_of w f + 1 >= maxRetries))%bool
         then delete f (retryAttempts w)
         else <[f := bumped w f e]> (retryAttempts w))
    ∧ uploadSessions w'
      = match uploadSessions w !! f with
        | Some s =>
            <[f := Session.set_error s (message e)
                     (negb (negb (isRetryableError e (categorizeError e))
                            || bool_decide (attempts_of w f + 1 >= maxRetries)))]>
              (uploadSessions w)
        | None => uploadSessions w
        end
    ∧ Forall (λ ef, is_timer ef = true
                    ∨ ∃ ws, ef = Send ws
                        (upload_error f (message e)
                           (negb (negb (isRetryableError e (categorizeError e))
                                  || bool_decide (attempts_of w f + 1 >= maxRetries)))
                           (now w))) es)).
  unfold handleError. apply wp_bind. unfold getRetryInfo. apply wp_get_bind.
  assert (∀ w1, uploadSessions w1 = uploadSessions w → now w1 = now w →
            (retryAttempts w1 = retryAttempts w
             ∨ retryAttempts w1 = <[f := zero_record (now w)]> (retryAttempts w)) →
            wp (w0 ← get;
                modify (λ w2, set_retryAttempts w2
                          (<[f := bumped w f e]> (retryAttempts w2))) ;;
                (if (negb (isRetryableError e (categorizeError e))
                     || bool_decide (RetryInfo.attempts (bumped w f e) >= maxRetries))%bool
                 then handleFinalFailure f e (bumped w f e)
                 else
                   UploadProgress.handleUploadError f e
                     (isRetryableError e (categorizeError e)) ;;
                   tell [SetTimeout (ExecuteRetry f c)
                           (calculateBackoffDelay (RetryInfo.attempts (bumped w f e))
                              random)] ;;
                   mret (Retry (calculateBackoffDelay
                                  (RetryInfo.attempts (bumped w f e)) random)
                               (RetryInfo.attempts (bumped w f e)) maxRetries
                               (categorizeError e)))) w1
              (λ r w' es2,
                 r = Normal (if (negb (isRetryableError e (categorizeError e))
                                 || bool_decide (attempts_of w f + 1 >= maxRetries))%bool
                             then Failure (attempts_of w f + 1) (message e)
                                    (RetryInfo.errorHistory (bumped w f e))
                             else Retry (calculateBackoffDelay (attempts_of w f + 1) random)
                                    (attempts_of w f + 1) maxRetries (categorizeError e))
                 ∧ timers ([] ++ es2)
                   = (if (negb (isRetryableError e (categorizeError e))
                          || bool_decide (attempts_of w f + 1 >= maxRetries))%bool
                      then []
                      else [SetTimeout (ExecuteRetry f c)
                              (calculateBackoffDelay (attempts_of w f + 1) random)])
                 ∧ retryAttempts w'
                   = (if (negb (isRetryableError e (categorizeError e))
                          || bool_decide (attempts_of w f + 1 >= maxRetries))%bool
                      then delete f (retryAttempts w)
                      else <[f := bumped w f e]> (retryAttempts w))
                 ∧ uploadSessions w'
                   = match uploadSessions w !! f with
                     | Some s =>
                         <[f := Session.set_error s (message e)
                                  (negb (negb (isRetryableError e (categorizeError e))
                                         || bool_decide
                                              (attempts_of w f + 1 >= maxRetries)))]>
                           (uploadSessions w)
                     | None => uploadSessions w
                     end
                 ∧ Forall (λ ef, is_timer ef = true
                                 ∨ ∃ ws, ef = Send ws
                                     (upload_error f (message e)
                                        (negb (negb (isRetryableError e (categorizeError e))
                                               || bool_decide
                                                    (attempts_of w f + 1 >= maxRetries)))
                                        (now w))) ([] ++ es2))) as Hrest.
  { intros w1 Hu1 Hn1 Hr1. rewrite bumped_attempts. simpl app.
    apply wp_get_bind, wp_modify_bind.
    assert (<[f := bumped w f e]> (retryAttempts w1) = <[f := bumped w f e]> (retryAttempts w))
      as Hins.
    { destruct Hr1 as [-> | ->]; [done | by rewrite insert_insert_eq]. }
    destruct (negb (isRetryableError e (categorizeError e))
              || bool_decide (attempts_of w f + 1 >= maxRetries))%bool eqn:Hfail.
    - unfold handleFinalFailure, cleanup. apply wp_modify_bind, wp_bind.
      unfold wp at 1.
      match goal with |- context [UploadProgress.handleUploadError f e false ?w3] =>
        destruct (handleUploadError_marks f e false w3) as (Hc & Hu & Hr & He) end.
      rewrite Hc. apply wp_ret. rewrite app_nil_r, ?bumped_attempts.
      split; [done|].
      split; [by apply (timers_upload_error f (message e) false (now w1))|].
      split; [rewrite Hr; simpl; by rewrite Hins, delete_insert_eq|].
      split; [rewrite Hu; simpl; by rewrite Hu1|].
      eapply Forall_impl; [exact He|]. intros ef [ws ->]. right. exists ws.
      simpl. by rewrite Hn1.
    - apply orb_false_iff in Hfail as [Hret _]. apply negb_false_iff in Hret.
      rewrite Hret. apply wp_bind. unfold wp at 1.
      match goal with |- context [UploadProgress.handleUploadError f e true ?w3] =>
        destruct (handleUploadError_marks f e true w3) as (Hc & Hu & Hr & He) end.
      rewrite Hc. apply wp_bind, wp_tell, wp_ret. rewrite app_nil_r, ?bumped_attempts.
      split; [done|].
      split.
      { unfold timers. rewrite filter_app. fold (timers (effects_of
          (UploadProgress.handleUploadError f e true
             (set_retryAttempts w1 (<[f:=bumped w f e]> (retryAttempts w1)))))).
        by rewrite (timers_upload_error f (message e) true (now w1)). }
      split; [rewrite Hr; simpl; by rewrite Hins|].
      split; [rewrite Hu; simpl; by rewrite Hu1|].
      apply Forall_app. split; [|repeat constructor; by left].
      eapply Forall_impl; [exact He|]. intros ef [ws ->]. right. exists ws.
      simpl. by rewrite Hn1. }
  destruct (retryAttempts w !! f) as [info0|] eqn:Hf.
  - apply wp_ret. unfold bumped in Hrest |- *. rewrite Hf in Hrest |- *. simpl in Hrest |- *.
    apply Hrest; auto.
  - apply wp_bind, wp_modify, wp_ret.
    unfold bumped in Hrest |- *. rewrite Hf in Hrest |- *. simpl in Hrest |- *.
    apply Hrest; auto.
Qed.

End Recovery_outcome.

(** * The retry callback *)

Section Retry_callback.
Context `{Env}.
Import ErrorRecovery.

Lemma run_getRetryInfo f w :
  getRetryInfo f w
  = (Normal (default (zero_record (now w)) (retryAttempts w !! f)), with_record f w, []).
Proof.
  unfold getRetryInfo, with_record. rewrite run_get_bind.
  destruct (retryAttempts w !! f); [done|]. by rewrite run_modify_bind.
Qed.

Lemma with_record_fields f w :
  uploadSessions (with_record f w) = uploadSessions w
  ∧ now (with_record f w) = now w
  ∧ files (with_record f w) = files w
  ∧ attempts_of (with_record f w) f = attempts_of w f.
Proof.
  unfold with_record, attempts_of. destruct (retryAttempts w !! f) eqn:Hf.
  - by rewrite Hf.
  - simpl. by rewrite lookup_insert_eq.
Qed.

Lemma updateProgress_registered f p stg w s :
  uploadSessions w !! f = Some s →
  completion (UploadProgress.updateProgress f p stg w) = Normal tt
  ∧ uploadSessions (world_of (UploadProgress.updateProgress f p stg w))
    = <[f := Session.set_progress s (Js.clamp01 p) stg (now w)]> (uploadSessions w)
  ∧ Forall (λ ef, ∃ ws, ef = Send ws (upload_progress f (Js.clamp01 p) stg (now w)))
           (effects_of (UploadProgress.updateProgress f p stg w)).
Proof.
  intros Hs. destruct (updateProgress_sends f p stg w) as (Hc & _ & He).
  split; [done|]. split; [|done].
  rewrite run_updateProgress, Hs. by rewrite broadcastToUser_sessions.
Qed.

Lemma updateProgress_unregistered f p stg w :
  uploadSessions w !! f = None →
  UploadProgress.updateProgress f p stg w = (Normal tt, w, []).
Proof. intros Hs. by rewrite run_updateProgress, Hs. Qed.

Lemma timers_upload_progress f p stg t es :
  Forall (λ ef, ∃ ws, ef = Send ws (upload_progress f p stg t)) es → timers es = [].
Proof.
  induction 1 as [|ef es (ws & ->) Hes IH]; [done|].
  unfold timers in *. by rewrite filter_cons_False.
Qed.

(** X14.  The retry callback on a state that the calls since boot can
    reach.  For a file that has a session it never re-attempts anything: it
    returns normally, sets no timer, and only tells the owner's sockets a
    progress of 0 in stage ['retrying']; the session object keeps the status
    it had (after the error that led here: ['error']), and the attempt
    counter is not touched.  For a file without a session the chunked retry
    fails with ['Upload session not found'] and is handed to [handleError]
    as a new error of the file; the regular retry does nothing. *)
Theorem executeRetry_outcome (cs : list Call) (t0 : Z) (f : string) (c : Context)
    (random : Q) :
  let w := run cs (boot t0) in
  let r := executeRetry f c random w in
  completion r = Normal tt
  ∧ match uploadSessions w !! f with
    | Some s =>
        timers (effects_of r) = []
        ∧ Forall (λ ef, ∃ ws, ef = Send ws
                     (upload_progress f (Js.Fin 0) "retrying" (now w))) (effects_of r)
        ∧ uploadSessions (world_of r)
          = <[f := Session.set_progress s (Js.Fin 0) "retrying" (now w)]>
              (uploadSessions w)
        ∧ attempts_of (world_of r) f = attempts_of w f
    | None =>
        if chunkedUpload c
        then
          let r' := handleError f ChunkedUpload.session_not_found c random
                      (with_record f w) in
          world_of r = world_of r' ∧ effects_of r = effects_of r'
        else world_of r = with_record f w ∧ effects_of r = []
    end.
Proof.
  intros w r.
  pose proof (bus_records_run cs t0) as Hbus. fold w in Hbus.
  destruct (with_record_fields f w) as (Hu1 & Hn1 & _ & Ha1).
  assert (Js.clamp01 (Js.Fin 0) = Js.Fin 0) as Hclamp by reflexivity.
  change (wp (executeRetry f c random) w (λ cr w' es,
    cr = Normal tt
    ∧ match uploadSessions w !! f with
      | Some s =>
          timers es = []
          ∧ Forall (λ ef, ∃ ws, ef = Send ws
                       (upload_progress f (Js.Fin 0) "retrying" (now w))) es
          ∧ uploadSessions w'
            = <[f := Session.set_progress s (Js.Fin 0) "retrying" (now w)]>
                (uploadSessions w)
          ∧ attempts_of w' f = attempts_of w f
      | None =>
          if chunkedUpload c
          then
            w' = world_of (handleError f ChunkedUpload.session_not_found c random
                             (with_record f w))
            ∧ es = effects_of (handleError f ChunkedUpload.session_not_found c random
                                 (with_record f w))
          else w' = with_record f w ∧ es = []
      end)).
  unfold executeRetry. apply wp_try_catch, wp_bind.
  unfold wp at 1. rewrite run_getRetryInfo.
  unfold completion, world_of, effects_of. cbn [fst snd].
  apply wp_bind.
  destruct (uploadSessions w !! f) as [s|] eqn:Hs.
  - assert (uploadSessions (with_record f w) !! f = Some s) as Hs1 by (by rewrite Hu1).
    destruct (updateProgress_registered f (Js.Fin 0) "retrying" _ s Hs1)
      as (Hc2 & Hu2 & He2).
    rewrite Hclamp, Hn1, Hu1 in *.
    unfold wp at 1. rewrite Hc2.
    set (w2 := world_of (UploadProgress.updateProgress f (Js.Fin 0) "retrying"
                           (with_record f w))) in *.
    set (es2 := effects_of (UploadProgress.updateProgress f (Js.Fin 0) "retrying"
                              (with_record f w))) in *.
    assert (retryAttempts w2 = retryAttempts (with_record f w)) as Hr2
      by apply updateProgress_retryAttempts.
    assert (now w2 = now w) as Hn2.
    { rewrite <- Hn1. by apply (exec_now (UpdateProgress f (Js.Fin 0) "retrying")
        (now (with_record f w)) eq_refl (with_record f w)). }
    assert (uploadSessions w2 !! f
            = Some (Session.set_progress s (Js.Fin 0) "retrying" (now w))) as Hs2
      by (by rewrite Hu2, lookup_insert_eq).
    clearbody w2 es2.
    destruct (chunkedUpload c).
    + unfold retryChunkedUpload. apply wp_bind. unfold wp at 1.
      rewrite (resumeUpload_zero_total w2 f _ Hs2) by (apply (Hbus f s Hs)).
      unfold completion, world_of, effects_of. cbn [fst snd ChunkedUpload.r_missingChunks].
      rewrite decide_False by (intros Hne; by apply Hne). apply wp_ret.
      split; [done|]. rewrite !app_nil_l, app_nil_r.
      split; [by apply (timers_upload_progress f (Js.Fin 0) "retrying" (now w))|].
      split; [done|]. split; [done|].
      unfold attempts_of. by rewrite Hr2.
    + unfold retryRegularUpload.
      destruct (updateProgress_registered f (Js.Fin 0) "retrying" w2 _ Hs2)
        as (Hc3 & Hu3 & He3).
      rewrite Hclamp, Hn2 in *.
      unfold wp. rewrite Hc3. split; [done|]. rewrite app_nil_l.
      split.
      { unfold timers. rewrite filter_app.
        fold (timers es2). fold (timers (effects_of
          (UploadProgress.updateProgress f (Js.Fin 0) "retrying" w2))).
        by rewrite !(timers_upload_progress f (Js.Fin 0) "retrying" (now w)). }
      split; [by apply Forall_app|].
      split; [rewrite Hu3, Hu2; by rewrite insert_insert_eq|].
      unfold attempts_of. rewrite updateProgress_retryAttempts, Hr2. done.
  - assert (uploadSessions (with_record f w) !! f = None) as Hs1 by (by rewrite Hu1).
    unfold wp at 1. rewrite (updateProgress_unregistered f _ _ _ Hs1).
    unfold completion, world_of, effects_of. cbn [fst snd].
    destruct (chunkedUpload c) eqn:Hc.
    + unfold retryChunkedUpload. apply wp_bind. unfold wp at 1.
      rewrite (resumeUpload_no_session _ f Hs1).
      unfold completion, world_of, effects_of. cbn [fst snd].
      apply wp_bind. unfold wp at 1.
      pose proof (handleError_spec f ChunkedUpload.session_not_found c random
                    (with_record f w)) as Hspec.
      unfold wp in Hspec. cbv zeta in Hspec.
      destruct (negb _ || _)%bool; destruct Hspec as [-> _]; apply wp_ret;
        rewrite !app_nil_l, app_nil_r; done.
    + unfold retryRegularUpload. unfold wp.
      rewrite (updateProgress_unregistered f _ _ _ Hs1). done.
Qed.

End Retry_callback.

(** * Statistics of the recovery *)

Section Stats.
Context `{Env}.
Import RecoveryStats.

Lemma count_fold (t : Z) (infos : list (string * RetryInfo.t)) (st : Stats) (k : Z) :
  Forall (λ entry, 0 ≤ RetryInfo.attempts entry.2 ≤ k) infos →
  let st' := foldl (λ stats entry, count t stats entry.2) st infos in
  activeRetries st' = activeRetries st
  ∧ totalAttempts st ≤ totalAttempts st'
      ≤ totalAttempts st + k * Z.of_nat (length infos)
  ∧ successfulRetries st ≤ successfulRetries st'
  ∧ failedRetries st ≤ failedRetries st'
  ∧ (successfulRetries st' - successfulRetries st) + (failedRetries st' - failedRetries st)
    = Z.of_nat (length (filter (λ entry, RetryInfo.attempts entry.2 > 0) infos)).
Proof.
  intros Hall. revert st. induction Hall as [|entry infos [Hlo Hhi] Hrest IH]; intros st.
  - simpl. lia.
  - simpl foldl. specialize (IH (count t st entry.2)). cbv zeta in IH.
    destruct IH as (Ha & Ht & Hs & Hf & Hsum).
    rewrite filter_cons. unfold count in *.
    destruct (decide (RetryInfo.attempts entry.2 > 0));
      [destruct (decide (t - default 0 (RetryInfo.lastErrorTime entry.2) > 60000))|];
      simpl in *; rewrite ?length_cons; repeat split; try lia.
Qed.

(** X15.  [getStats] reads the retry table and changes nothing.  Whatever
    the calls made since the process started: [activeRetries] is the number
    of files with a retry record; every record counts at most
    [maxRetries - 1 = 2] attempts, so [totalAttempts] is between 0 and
    twice [activeRetries]; and the records with at least one attempt are
    split between [successfulRetries] (last error more than 60 seconds
    ago) and [failedRetries], so the two together never exceed
    [activeRetries]. *)
Theorem getStats_bounds (cs : list Call) (t0 : Z) :
  let w := run cs (boot t0) in
  ∃ stats,
    getStats w = (Normal stats, w, [])
    ∧ activeRetries stats = Z.of_nat (size (retryAttempts w))
    ∧ 0 ≤ totalAttempts stats ≤ (ErrorRecovery.maxRetries - 1) * activeRetries stats
    ∧ 0 ≤ successfulRetries stats ∧ 0 ≤ failedRetries stats
    ∧ successfulRetries stats + failedRetries stats
      = Z.of_nat (length (filter (λ entry, RetryInfo.attempts entry.2 > 0)
                            (map_to_list (retryAttempts w))))
    ∧ successfulRetries stats + failedRetries stats ≤ activeRetries stats.
Proof.
  intros w.
  pose proof (retry_bound_run cs t0) as Hb. fold w in Hb.
  destruct (count_fold (now w) (map_to_list (retryAttempts w))
    {| activeRetries := Z.of_nat (size (retryAttempts w)); totalAttempts := 0;
       successfulRetries := 0; failedRetries := 0 |} (ErrorRecovery.maxRetries - 1))
    as (Ha & Ht & Hs & Hf & Hsum).
  { apply Forall_forall. intros [f info] Hin. apply elem_of_map_to_list in Hin.
    specialize (Hb f info Hin). simpl. lia. }
  cbn [activeRetries totalAttempts successfulRetries failedRetries] in *.
  unfold getStats, gets.
  set (stats := foldl _ _ _) in *. clearbody stats.
  rewrite <- length_map_to_list in *.
  pose proof (length_filter (λ entry : string * RetryInfo.t, RetryInfo.attempts entry.2 > 0)
                (map_to_list (retryAttempts w))) as Hlen.
  unfold ErrorRecovery.maxRetries in *.
  exists stats. split; [done|]. repeat split; try lia.
Qed.

End Stats.

(** * The authentication of a socket *)

Section Authentication.
Context `{Auth.Jwt}.
Import Auth.

Lemma run_authenticateWebSocket (token : option string) (w : World) :
  authenticateWebSocket token w
  = (match ChunkedUpload.truthy token with
     | Some t =>
         match jwt_verify t with
         | Normal decoded =>
             match ChunkedUpload.truthy (id decoded) with
             | Some decoded_id =>
                 Normal {| user_id := decoded_id; user_username := username decoded;
                           user_email := email decoded; user_role := role decoded |}
             | None => Thrown authentication_failed
             end
         | Thrown _ => Thrown authentication_failed
         end
     | None => Thrown authentication_failed
     end, w, []).
Proof.
  unfold authenticateWebSocket. rewrite run_try_catch.
  destruct (ChunkedUpload.truthy token) as [t|]; [|done].
  destruct (jwt_verify t) as [decoded|error]; [|done].
  by destruct (ChunkedUpload.truthy (id decoded)).
Qed.

Lemma truthy_Some (s : option string) (t : string) :
  ChunkedUpload.truthy s = Some t ↔ s = Some t ∧ t ≠ EmptyString.
Proof.
  unfold ChunkedUpload.truthy. destruct s as [[|c s']|].
  - split; [done | by intros [[= <-] Hne]].
  - split; [by intros [= <-] | by intros [Heq _]].
  - split; [done | by intros [Heq _]].
Qed.

(** X16.  [authenticateWebSocket] reads nothing but the token and changes
    nothing.  It returns a user exactly when the token is a non-empty
    string that [jwt.verify] accepts and whose payload has a non-empty
    [id]; the user it returns carries that [id] and the [username], [email]
    and [role] of the payload.  In every other case (no token, a token that
    does not verify, a payload without [id]) it throws the one error
    ['Authentication failed']: the cause never reaches the caller. *)
Theorem authenticateWebSocket_outcome (token : option string) (w : World) :
  let r := authenticateWebSocket token w in
  world_of r = w ∧ effects_of r = []
  ∧ (∀ e, completion r = Thrown e → e = authentication_failed)
  ∧ (∀ u, completion r = Normal u ↔
       ∃ t decoded,
         token = Some t ∧ t ≠ EmptyString ∧ jwt_verify t = Normal decoded
         ∧ id decoded = Some (user_id u) ∧ user_id u ≠ EmptyString
         ∧ user_username u = username decoded
         ∧ user_email u = email decoded
         ∧ user_role u = role decoded).
Proof.
  cbv zeta. rewrite run_authenticateWebSocket.
  unfold world_of, effects_of, completion. cbn [fst snd].
  split; [done|]. split; [done|]. split.
  - intros e. destruct (ChunkedUpload.truthy token) as [t|]; [|by intros [= <-]].
    destruct (jwt_verify t) as [decoded|error]; [|by intros [= <-]].
    destruct (ChunkedUpload.truthy (id decoded)); [done | by intros [= <-]].
  - intros u. split.
    + destruct (ChunkedUpload.truthy token) as [t|] eqn:Ht; [|done].
      apply truthy_Some in Ht as [-> Hne].
      destruct (jwt_verify t) as [decoded|error] eqn:Hv; [|done].
      destruct (ChunkedUpload.truthy (id decoded)) as [i|] eqn:Hi; [|done].
      apply truthy_Some in Hi as [Hi Hine]. intros [= <-].
      exists t, decoded. by repeat split.
    + intros (t & decoded & -> & Hne & Hv & Hi & Hine & Hun & Hem & Hro).
      assert (ChunkedUpload.truthy (Some t) = Some t) as -> by (by apply truthy_Some).
      rewrite Hv.
      assert (ChunkedUpload.truthy (id decoded) = Some (user_id u)) as ->
        by (by apply truthy_Some).
      destruct u; simpl in *. by subst.
Qed.

Lemma string_app_empty_r (s : string) : s +:+ EmptyString = s.
Proof. induction s as [|c s IH]; [done|]. unfold String.append; fold String.append. by rewrite IH. Qed.

Lemma string_app_assoc (a b c : string) : (a +:+ b) +:+ c = a +:+ (b +:+ c).
Proof. induction a as [|x a IH]; [done|]. unfold String.append; fold String.append. by rewrite IH. Qed.

(** A string without the separator is one piece. *)
Lemma split_go_no_match (sep s cur : string) :
  Js.includes sep s = false → JsString.split_go sep s cur 0 = [cur +:+ s].
Proof.
  revert cur. induction s as [|c s IH]; intros cur Hinc.
  - simpl. by rewrite string_app_empty_r.
  - cbn [Js.includes] in Hinc. apply orb_false_iff in Hinc as [Hpre Hrest].
    cbn [JsString.split_go]. rewrite Hpre.
    rewrite (IH _ Hrest). by rewrite string_app_assoc.
Qed.

(** X17.  The promise that [verifyClient] returns is never rejected, and
    the method changes nothing but [req.user].  The token it hands to
    [authenticateWebSocket] is the second piece of the URL split at
    ['token=']; the promise resolves to [true] exactly when that piece
    authenticates, and by then [req.user] is the user that
    [authenticateWebSocket] returned; otherwise it resolves to [false] and
    [req.user] stays unset.  For a URL [/ws/upload-progress?token=...] the
    piece is the token itself.  (This is about the value that the promise
    resolves to, not about what the socket server makes of the promise.) *)
Theorem verifyClient_outcome (url : string) (w : World) :
  let r := verifyClient url w in
  world_of r = w ∧ effects_of r = []
  ∧ (∃ accepted user,
       completion r = Normal (accepted, user)
       ∧ (accepted = true ↔ is_Some user)
       ∧ ∀ u, user = Some u ↔
           completion (authenticateWebSocket (JsString.split "token=" url !! 1%nat) w)
           = Normal u)
  ∧ (∀ token, Js.includes "token=" token = false →
       JsString.split "token=" ("/ws/upload-progress?token=" +:+ token) !! 1%nat
       = Some token).
Proof.
  cbv zeta. split; [|split; [|split]].
  4: { intros token Hinc. unfold JsString.split. cbv [String.append]. cbn.
       assert (String.prefix EmptyString token = true) as -> by (by destruct token).
       cbn. by rewrite (split_go_no_match _ _ _ Hinc). }
  all: unfold verifyClient; rewrite run_try_catch;
    destruct (ChunkedUpload.truthy (JsString.split "token=" url !! 1%nat)) as [t|] eqn:Ht.
  all: try (apply truthy_Some in Ht as [Ht Hne]).
  all: try rewrite run_bind, run_authenticateWebSocket.
  all: try (assert (ChunkedUpload.truthy (Some t) = Some t) as Htt
              by (by apply truthy_Some); rewrite Htt).
  - destruct (jwt_verify t) as [decoded|error]; [|done].
    by destruct (ChunkedUpload.truthy (id decoded)).
  - done.
  - destruct (jwt_verify t) as [decoded|error]; [|done].
    by destruct (ChunkedUpload.truthy (id decoded)).
  - done.
  - rewrite Ht, run_authenticateWebSocket, Htt.
    unfold completion. cbn [fst snd].
    destruct (jwt_verify t) as [decoded|error].
    + destruct (ChunkedUpload.truthy (id decoded)) as [i|]; cbn.
      * eexists _, _. split; [done|]. split; [by split; [eexists|]|].
        intros u. split; [by intros [= <-] | by intros [= <-]].
      * eexists _, _. split; [done|]. split; [split; [done | by intros [? ?]]|].
        intros u. split; done.
    + cbn. eexists _, _. split; [done|]. split; [split; [done | by intros [? ?]]|].
      intros u. split; done.
  - exists false, None. split; [done|]. split; [split; [done | by intros [? ?]]|].
    intros u. rewrite run_authenticateWebSocket, Ht. unfold completion. cbn.
    split; done.
Qed.

End Authentication.

(** * The routes *)

Section Route_answers.
Context `{Env}.
Import ErrorRecovery Routes.

Lemma startStage_normal (f stageName : string) (w : World) :
  completion (ProcessingPipeline.startStage f stageName w) = Normal tt.
Proof.
  unfold ProcessingPipeline.startStage. rewrite run_get_bind.
  destruct (pipelines w !! f) as [pl|]; [|done].
  destruct (ProcessingPipeline.find_stage stageName (Pipeline.stages pl)); [|done].
  unfold ProcessingPipeline.put_pipeline. rewrite run_modify_bind.
  apply updateProgress_sends.
Qed.

(** On the sessions of the bus, [uploadChunk] and [assembleFile] throw and
    leave the world as it is. *)
Lemma uploadChunk_bus_record w f i d h :
  bus_records w →
  ChunkedUpload.uploadChunk f i d h w
  = (Thrown (match uploadSessions w !! f with
             | Some _ => ChunkedUpload.invalid_chunk_index
             | None => ChunkedUpload.session_not_found
             end), w, []).
Proof.
  intros Hw. destruct (uploadSessions w !! f) as [s|] eqn:Hs.
  - destruct (Hw _ s Hs) as (Ht & _). by apply (uploadChunk_zero_total w f i d h s).
  - by apply uploadChunk_no_session.
Qed.

Lemma assembleFile_bus_record w f out :
  bus_records w →
  ∃ e, ChunkedUpload.assembleFile f out w = (Thrown e, w, []).
Proof.
  intros Hw. destruct (uploadSessions w !! f) as [s|] eqn:Hs.
  - destruct (Hw _ s Hs) as (_ & Hr & _). eexists.
    by apply (assembleFile_no_receivedChunks w f out s).
  - eexists. by apply assembleFile_no_session.
Qed.

Lemma handleError_unknown (f : string) (e : Error) (c : Context) (random : Q)
    (w : World) :
  isRetryableError e (categorizeError e) = true →
  completion (handleError f e c random w)
  = Normal (if bool_decide (attempts_of w f + 1 >= maxRetries)
            then Failure (attempts_of w f + 1) (message e)
                   (RetryInfo.errorHistory (bumped w f e))
            else Retry (calculateBackoffDelay (attempts_of w f + 1) random)
                   (attempts_of w f + 1) maxRetries (categorizeError e)).
Proof.
  intros He. pose proof (handleError_spec f e c random w) as Hspec.
  unfold wp in Hspec. cbv zeta in Hspec. rewrite He in Hspec. simpl in Hspec.
  destruct (bool_decide (attempts_of w f + 1 >= maxRetries)); by destruct Hspec.
Qed.

End Route_answers.

(** X18.  In every state that the calls reach, [POST
    /upload/:fileId/:chunkIndex] stores nothing and never answers 200.
    Without a chunk, or with an index that [parseInt] reads as [NaN] or as
    a negative number, it answers 400 and changes nothing.  Otherwise
    [uploadChunk] throws ['Invalid chunk index'] when the file has a
    session and ['Upload session not found'] when it has none; the handler
    passes the error to [handleError] and answers 500 with its message and
    with the recovery action, which tells the client to retry until the
    third attempt. *)
Theorem post_upload_never_stores `{Env} (cs : list Call) (t0 : Z)
    (fileId chunkIndex : string) (chunkHash : option string)
    (chunk : option (list Byte.byte)) (random : Q) :
  let w := run cs (boot t0) in
  let r := Routes.post_upload fileId chunkIndex chunkHash chunk random w in
  let bad_request msg :=
    r = (Normal (Routes.status_json 400 (Routes.error_body msg None None)), w, []) in
  files (world_of r) = ∅
  ∧ match chunk, JsString.parseInt chunkIndex with
    | None, _ => bad_request "No chunk data provided"
    | Some _, None => bad_request "Invalid chunk index"
    | Some _, Some i =>
        if decide (i < 0) then bad_request "Invalid chunk index"
        else
          let error := match uploadSessions w !! fileId with
                       | Some _ => ChunkedUpload.invalid_chunk_index
                       | None => ChunkedUpload.session_not_found
                       end in
          let a := attempts_of w fileId + 1 in
          completion r
          = Normal (Routes.status_json 500
              (Routes.error_body "Chunk upload failed" (Some (message error))
                 (Some (if bool_decide (a >= ErrorRecovery.maxRetries)
                        then ErrorRecovery.Failure a (message error)
                               (RetryInfo.errorHistory (bumped w fileId error))
                        else ErrorRecovery.Retry
                               (ErrorRecovery.calculateBackoffDelay a random) a
                               ErrorRecovery.maxRetries "unknown"))))
          ∧ world_of r
            = after (HandleError fileId error {| chunkedUpload := true |} random) w
    end.
Proof.
  cbv zeta. set (w := run cs (boot t0)).
  assert (bus_records w) as Hw by apply bus_records_run.
  assert (files w = ∅) as Hf by apply files_run.
  unfold Routes.post_upload. rewrite run_try_catch.
  destruct chunk as [chunkData|]; [|done].
  destruct (JsString.parseInt chunkIndex) as [i|]; [|done].
  case_decide; [done|].
  rewrite run_bind, uploadChunk_bus_record by done.
  set (error := match uploadSessions w !! fileId with
                | Some _ => _ | None => _ end).
  assert (ErrorRecovery.isRetryableError error (ErrorRecovery.categorizeError error)
          = true
          ∧ ErrorRecovery.categorizeError error = "unknown") as [Hre Hcat].
  { unfold error. destruct (uploadSessions w !! fileId); by vm_compute. }
  pose proof (handleError_unknown fileId error {| chunkedUpload := true |} random w Hre)
    as Hc.
  rewrite Hcat in Hc.
  assert (world_of (ErrorRecovery.handleError fileId error {| chunkedUpload := true |}
                      random w)
          = after (HandleError fileId error {| chunkedUpload := true |} random) w)
    as Hafter.
  { unfold after. simpl exec. by rewrite world_of_ignore. }
  assert (files (after (HandleError fileId error {| chunkedUpload := true |} random) w)
          = ∅) as Hf'.
  { unfold w. rewrite <- run_snoc. apply files_run. }
  cbv zeta. rewrite run_bind.
  unfold completion, world_of in *.
  destruct (ErrorRecovery.handleError fileId error _ random w) as [[c w1] es1].
  simpl in *. subst c. simpl. rewrite Hafter. done.
Qed.

(** X19.  In every state that the calls reach, [POST /complete/:fileId]
    with a final path sends no response: [assembleFile] throws, and the
    [catch] block of the handler throws a [ReferenceError] for [fileId]
    before it calls [handleError].  So no retry is counted and no file is
    written; all that has happened is that the ['processing'] stage of the
    pipeline was started.  Without a final path the handler answers 400 and
    changes nothing. *)
Theorem post_complete_never_answers `{Env} (cs : list Call) (t0 : Z)
    (fileId : string) (finalPath toolResource : option string) :
  let w := run cs (boot t0) in
  let r := Routes.post_complete fileId finalPath toolResource w in
  match ChunkedUpload.truthy finalPath with
  | None =>
      r = (Normal (Routes.status_json 400
                     (Routes.error_body "Final path required" None None)), w, [])
  | Some _ =>
      completion r = Thrown (Routes.reference_error "fileId")
      ∧ world_of r = after (StartStage fileId "processing") w
      ∧ effects_of r = effects_of (exec (StartStage fileId "processing") w)
      ∧ retryAttempts (world_of r) = retryAttempts w
      ∧ files (world_of r) = ∅
  end.
Proof.
  cbv zeta. set (w := run cs (boot t0)).
  unfold Routes.post_complete. rewrite run_try_catch.
  destruct (ChunkedUpload.truthy finalPath) as [out|]; [|done].
  rewrite run_bind.
  pose proof (startStage_normal fileId "processing" w) as Hn.
  assert (bus_records (after (StartStage fileId "processing") w)) as Hw.
  { unfold w. rewrite <- run_snoc. apply bus_records_run. }
  assert (files (after (StartStage fileId "processing") w) = ∅) as Hf.
  { unfold w. rewrite <- run_snoc. apply files_run. }
  assert (retryAttempts (after (StartStage fileId "processing") w) = retryAttempts w)
    as Hr.
  { unfold after.
    by apply (exec_retryAttempts (StartStage fileId "processing") (retryAttempts w)
                eq_refl w). }
  unfold after in *. simpl exec in *. unfold completion, world_of, effects_of in *.
  destruct (ProcessingPipeline.startStage fileId "processing" w) as [[c w1] es1].
  simpl in *. subst c. cbv zeta.
  rewrite run_bind.
  destruct (assembleFile_bus_record w1 fileId out Hw) as [e ->]. simpl.
  by rewrite !app_nil_r.
Qed.

(** X20.  [DELETE /:fileId] answers 200 ['Upload cancelled'] in every
    state, also for a file that has no session, and then it has changed
    nothing and sent nothing.  What it does otherwise is what
    [cancelUpload] does; the session is still registered afterwards. *)
Theorem delete_upload_always_succeeds `{Env} (fileId : string) (w : World) :
  let r := Routes.delete_upload fileId w in
  completion r = Normal (Routes.json Routes.cancelled_body)
  ∧ world_of r = after (CancelUpload fileId) w
  ∧ effects_of r = effects_of (exec (CancelUpload fileId) w)
  ∧ match uploadSessions w !! fileId with
    | Some _ => is_Some (uploadSessions (world_of r) !! fileId)
    | None => world_of r = w ∧ effects_of r = []
    end.
Proof.
  cbv zeta. unfold Routes.delete_upload, after. simpl exec.
  rewrite run_try_catch, run_bind.
  assert (completion (ChunkedUpload.cancelUpload fileId w) = Normal tt) as Hn.
  { unfold ChunkedUpload.cancelUpload, ChunkedUpload.getSession,
      UploadProgress.getSessionStatus. rewrite run_bind. simpl.
    destruct (uploadSessions w !! fileId) as [s|]; [|done].
    rewrite run_bind. pose proof (cleanupChunks_normal s w) as Hc.
    unfold completion in *.
    destruct (ChunkedUpload.cleanupChunks s w) as [[c w1] es1]. simpl in *. subst c.
    cbv zeta. simpl. apply handleUploadError_retryAttempts. }
  assert (match uploadSessions w !! fileId with
          | Some _ => is_Some (uploadSessions (world_of (ChunkedUpload.cancelUpload fileId w))
                                 !! fileId)
          | None => world_of (ChunkedUpload.cancelUpload fileId w) = w
                    ∧ effects_of (ChunkedUpload.cancelUpload fileId w) = []
          end) as Hs.
  { destruct (uploadSessions w !! fileId) as [s|] eqn:Hs.
    - apply (exec_sessions_stay (CancelUpload fileId) fileId eq_refl w). by rewrite Hs.
    - unfold ChunkedUpload.cancelUpload, ChunkedUpload.getSession,
        UploadProgress.getSessionStatus. rewrite run_bind. simpl. by rewrite Hs. }
  unfold completion, world_of, effects_of in *.
  destruct (ChunkedUpload.cancelUpload fileId w) as [[c w1] es1].
  simpl in *. subst c. simpl. rewrite app_nil_r. done.
Qed.

(** ** The routes that only read *)

Section Read_routes.
Context `{Env}.

Lemma validateChunks_no_session w f :
  uploadSessions w !! f = None →
  ChunkedUpload.validateChunks f w = (Normal false, w, []).
Proof.
  intros Hs. unfold ChunkedUpload.validateChunks, ChunkedUpload.getSession,
    UploadProgress.getSessionStatus.
  rewrite run_bind. simpl. by rewrite Hs.
Qed.

End Read_routes.

(** X21.  The three routes that only read.  In every state that the calls
    reach they change nothing and send nothing, and: [GET /resume/:fileId]
    answers 500 ['Upload session not found'] for a file without session and
    otherwise reports no chunk at all, with a progress of [0 / 0];
    [POST /validate/:fileId] answers [valid: true] exactly for the files
    that have a session, although no chunk of theirs is stored; and
    [GET /status/:fileId] answers 404 exactly when the file has neither a
    session nor a pipeline, and otherwise returns both as they are. *)
Theorem read_routes `{Env} (cs : list Call) (t0 : Z) (fileId : string) :
  let w := run cs (boot t0) in
  Routes.get_resume fileId w
  = (Normal (match uploadSessions w !! fileId with
             | Some _ =>
                 Routes.json (Routes.resume_body
                   {| ChunkedUpload.r_fileId := fileId;
                      ChunkedUpload.r_totalChunks := 0;
                      ChunkedUpload.r_receivedChunks := [];
                      ChunkedUpload.r_missingChunks := [];
                      ChunkedUpload.r_progress := Js.NaN |})
             | None =>
                 Routes.status_json 500
                   (Routes.error_body "Failed to resume upload"
                      (Some "Upload session not found") None)
             end), w, [])
  ∧ Routes.post_validate fileId w
    = (Normal (Routes.json (Routes.valid_body
                 (bool_decide (is_Some (uploadSessions w !! fileId))))), w, [])
  ∧ Routes.get_status fileId w
    = (Normal (match uploadSessions w !! fileId, pipelines w !! fileId with
               | None, None =>
                   Routes.status_json 404
                     (Routes.error_body "Upload session not found" None None)
               | session, pipeline =>
                   Routes.json (Routes.status_body session pipeline)
               end), w, []).
Proof.
  cbv zeta. set (w := run cs (boot t0)).
  assert (bus_records w) as Hw by apply bus_records_run.
  split; [|split].
  - unfold Routes.get_resume. rewrite run_try_catch, run_bind.
    destruct (uploadSessions w !! fileId) as [s|] eqn:Hs.
    + destruct (Hw _ s Hs) as (Ht & _).
      by rewrite (resumeUpload_zero_total w fileId s Hs Ht).
    + by rewrite (resumeUpload_no_session w fileId Hs).
  - unfold Routes.post_validate. rewrite run_try_catch, run_bind.
    destruct (uploadSessions w !! fileId) as [s|] eqn:Hs.
    + destruct (Hw _ s Hs) as (Ht & _).
      by rewrite (validateChunks_zero_total w fileId s Hs Ht).
    + by rewrite (validateChunks_no_session w fileId Hs).
  - unfold Routes.get_status, ChunkedUpload.getSession,
      UploadProgress.getSessionStatus, ProcessingPipeline.getPipelineStatus.
    rewrite run_try_catch, run_bind. simpl. rewrite run_bind. simpl.
    by destruct (uploadSessions w !! fileId), (pipelines w !! fileId).
Qed.

(** * Calls about a file that is not there *)

Section Unknown_file.
Context `{Env}.

Lemma run_ignore_thrown {A} (m : M A) (e : Error) (w : World) :
  m w = (Thrown e, w, []) → ignore m w = (Thrown e, w, []).
Proof. intros Hm. unfold ignore. by rewrite run_bind, Hm. Qed.

Lemma set_pipelines_id (w : World) : set_pipelines w (pipelines w) = w.
Proof. by destruct w. Qed.

Lemma set_uploadSessions_id (w : World) : set_uploadSessions w (uploadSessions w) = w.
Proof. by destruct w. Qed.

End Unknown_file.

(** X23.  A call about a file that is not in the table the call looks it
    up in changes nothing and sends nothing: the methods of the pipeline
    manager and the timer of [completePipeline] when the file has no
    pipeline; [updateProgress], [completeUpload], [handleUploadError], the
    timer of [completeUpload] and the methods of the chunk manager that take
    a file when the file has no session.  Only [uploadChunk], [assembleFile]
    and [resumeUpload] report the missing file, with the error ['Upload
    session not found']; all the others return normally. *)
Theorem unknown_file_is_ignored `{Env} (c : Call) (w : World) :
  file_unknown w c →
  world_of (exec c w) = w ∧ effects_of (exec c w) = []
  ∧ completion (exec c w)
    = match c with
      | UploadChunk _ _ _ _ | AssembleFile _ _ | ResumeUpload _ =>
          Thrown ChunkedUpload.session_not_found
      | _ => Normal tt
      end.
Proof.
  intros Hc. destruct c; try (by destruct Hc); simpl in Hc; simpl exec.
  - by rewrite (run_ignore_thrown _ _ _ (uploadChunk_no_session w _ _ _ _ Hc)).
  - by rewrite (run_ignore_thrown _ _ _ (assembleFile_no_session w _ _ Hc)).
  - by rewrite (run_ignore_thrown _ _ _ (resumeUpload_no_session w _ Hc)).
  - unfold ChunkedUpload.cancelUpload, ChunkedUpload.getSession,
      UploadProgress.getSessionStatus. rewrite run_bind. simpl. by rewrite Hc.
  - unfold ignore. by rewrite run_bind, (validateChunks_no_session w _ Hc).
  - unfold ProcessingPipeline.startStage. by rewrite run_get_bind, Hc.
  - unfold ProcessingPipeline.updateStageProgress. by rewrite run_get_bind, Hc.
  - unfold ProcessingPipeline.completeStage. by rewrite run_get_bind, Hc.
  - unfold ProcessingPipeline.handleStageError. by rewrite run_get_bind, Hc.
  - unfold ProcessingPipeline.addWarning. by rewrite run_get_bind, Hc.
  - unfold ProcessingPipeline.completePipeline. by rewrite run_get_bind, Hc.
  - by rewrite run_updateProgress, Hc.
  - by rewrite run_completeUpload, Hc.
  - by rewrite run_handleUploadError, Hc.
  - unfold UploadProgress.deleteUploadSession, modify, world_of, effects_of, completion.
    simpl. rewrite delete_id by done. by rewrite set_uploadSessions_id.
  - unfold ProcessingPipeline.deletePipeline, modify, world_of, effects_of, completion.
    simpl. rewrite delete_id by done. by rewrite set_pipelines_id.
Qed.

Lemma unknown_file_is_ignored_witness :
  let w := run (H := sample_env) pipeline_started (boot 0) in
  world_of (exec (H := sample_env) (CompleteStage "f2" "upload") w) = w.
Proof.
  cbv zeta.
  refine (proj1 (unknown_file_is_ignored (H := sample_env) (CompleteStage "f2" "upload")
                   (run (H := sample_env) pipeline_started (boot 0)) _)).
  vm_compute. reflexivity.
Defined.

(** * The life of a pipeline object *)

Section Pipeline_life.
Context `{Env}.
Import ProcessingPipeline.

Lemma update_stage_weights n g stages :
  (∀ s, Stage.weight (g s) = Stage.weight s) →
  map Stage.weight (update_stage n g stages) = map Stage.weight stages.
Proof.
  intros Hg. induction stages as [|s rest IH]; simpl; [done|].
  case_decide; simpl; [by rewrite Hg | by rewrite IH].
Qed.

Lemma continues_refl p : continues p p.
Proof. by repeat split. Qed.

Lemma continues_trans p1 p2 p3 : continues p1 p2 → continues p2 p3 → continues p1 p3.
Proof.
  intros (Hu & Hm & Ht & Hn & Hw & Hh & He & Hwa) (Hu' & Hm' & Ht' & Hn' & Hw' & Hh' & He' & Hwa').
  split; [congruence|]. split; [congruence|]. split; [congruence|].
  split; [congruence|]. split; [congruence|].
  split; [by etrans|]. split; by etrans.
Qed.

Lemma continues_insert w f g pl p :
  pipelines w !! g = Some pl → (f = g → continues pl p) →
  ∀ p0, pipelines w !! f = Some p0 →
  ∃ p', <[g := p]> (pipelines w) !! f = Some p' ∧ continues p0 p'.
Proof.
  intros Hg Hc p0 Hf. rewrite lookup_insert. case_decide as Hfg.
  - subst g. rewrite Hf in Hg. injection Hg as ->. exists p. split; [done | by apply Hc].
  - exists p0. split; [done | apply continues_refl].
Qed.

Lemma continues_exec (c : Call) (w : World) (f : string) (p : Pipeline.t) :
  replaces_pipeline c = false →
  pipelines w !! f = Some p →
  ∃ p', pipelines (after c w) !! f = Some p' ∧ continues p p'.
Proof.
  intros Hr Hp. destruct (writes_pipelines c) eqn:Hc.
  2: { unfold after. rewrite (exec_pipelines c (pipelines w) Hc w eq_refl).
       exists p. split; [done | apply continues_refl]. }
  unfold after.
  destruct c; try discriminate Hc; try discriminate Hr; simpl exec.
  - rewrite pipelines_startStage.
    destruct (pipelines w !! fileId) as [pl|] eqn:Hpl;
      [|exists p; split; [done | apply continues_refl]].
    destruct (find_stage _ _); [|exists p; split; [done | apply continues_refl]].
    apply (continues_insert w f fileId pl); [done | | done]. intros _.
    repeat split; simpl; try done.
    + by apply update_stage_names.
    + by apply update_stage_weights.
  - rewrite pipelines_updateStageProgress.
    destruct (pipelines w !! fileId) as [pl|] eqn:Hpl;
      [|exists p; split; [done | apply continues_refl]].
    destruct (find_stage _ _); [|exists p; split; [done | apply continues_refl]].
    case_decide; [exists p; split; [done | apply continues_refl]|].
    apply (continues_insert w f fileId pl); [done | | done]. intros _.
    repeat split; simpl; try done.
    + by apply update_stage_names.
    + by apply update_stage_weights.
  - rewrite pipelines_completeStage.
    destruct (pipelines w !! fileId) as [pl|] eqn:Hpl;
      [|exists p; split; [done | apply continues_refl]].
    destruct (find_stage _ _); [|exists p; split; [done | apply continues_refl]].
    apply (continues_insert w f fileId pl); [done | | done]. intros _.
    repeat split; simpl; try done.
    + by apply update_stage_names.
    + by apply update_stage_weights.
    + by apply prefix_app_r.
  - rewrite pipelines_handleStageError.
    destruct (pipelines w !! fileId) as [pl|] eqn:Hpl;
      [|exists p; split; [done | apply continues_refl]].
    destruct (find_stage _ _); [|exists p; split; [done | apply continues_refl]].
    apply (continues_insert w f fileId pl); [done | | done]. intros _.
    repeat split; simpl; try done.
    + by apply update_stage_names.
    + by apply update_stage_weights.
    + by apply prefix_app_r.
  - rewrite pipelines_addWarning.
    destruct (pipelines w !! fileId) as [pl|] eqn:Hpl;
      [|exists p; split; [done | apply continues_refl]].
    apply (continues_insert w f fileId pl); [done | | done]. intros _.
    repeat split; simpl; try done. by apply prefix_app_r.
  - rewrite pipelines_completePipeline.
    destruct (pipelines w !! fileId) as [pl|] eqn:Hpl;
      [|exists p; split; [done | apply continues_refl]].
    apply (continues_insert w f fileId pl); [done | | done]. intros _.
    by repeat split.
Qed.

Lemma continues_run (cs : list Call) (w : World) (f : string) (p : Pipeline.t) :
  Forall (λ c, replaces_pipeline c = false) cs →
  pipelines w !! f = Some p →
  ∃ p', pipelines (run cs w) !! f = Some p' ∧ continues p p'.
Proof.
  induction cs as [|c cs IH] using rev_ind; intros Hcs Hp.
  - exists p. split; [done | apply continues_refl].
  - apply Forall_app in Hcs as [Hcs Hc]. rewrite Forall_singleton in Hc.
    destruct (IH Hcs Hp) as (p1 & Hp1 & Hc1).
    rewrite run_snoc.
    destruct (continues_exec c (run cs w) f p1 Hc Hp1) as (p2 & Hp2 & Hc2).
    exists p2. split; [done | by apply (continues_trans p p1 p2)].
Qed.

End Pipeline_life.

(** X24.  Between [initializePipeline] and the removal by a timer or by
    [cleanupOldPipelines], the pipeline of a file stays in the table
    whatever else is called, also after [completePipeline] and after a stage
    error.  Its user, metadata and start time do not change, its stages
    keep their names and weights in the same order, and its three logs
    ([stageHistory], [errors], [warnings]) only grow at the end. *)
Theorem pipeline_continues `{Env} (cs : list Call) (w : World) (f : string)
    (p : Pipeline.t) :
  Forall (λ c, replaces_pipeline c = false) cs →
  pipelines w !! f = Some p →
  ∃ p', pipelines (run cs w) !! f = Some p'
    ∧ Pipeline.userId p' = Pipeline.userId p
    ∧ Pipeline.metadata p' = Pipeline.metadata p
    ∧ Pipeline.startTime p' = Pipeline.startTime p
    ∧ map Stage.name (Pipeline.stages p') = map Stage.name (Pipeline.stages p)
    ∧ map Stage.weight (Pipeline.stages p') = map Stage.weight (Pipeline.stages p)
    ∧ Pipeline.stageHistory p `prefix_of` Pipeline.stageHistory p'
    ∧ Pipeline.errors p `prefix_of` Pipeline.errors p'
    ∧ Pipeline.warnings p `prefix_of` Pipeline.warnings p'.
Proof. apply continues_run. Qed.

Lemma pipeline_continues_witness :
  ∃ p p',
    pipelines (run (H := sample_env) pipeline_started (boot 0)) !! "f1" = Some p
    ∧ pipelines (run (H := sample_env)
                   [HandleStageError "f1" "upload" (mkError "disk full") false;
                    AddWarning "f1" "upload" "slow";
                    CompletePipeline "f1"]
                   (run (H := sample_env) pipeline_started (boot 0))) !! "f1" = Some p'
    ∧ Pipeline.errors p `prefix_of` Pipeline.errors p'.
Proof.
  eexists.
  destruct (pipeline_continues (H := sample_env)
    [HandleStageError "f1" "upload" (mkError "disk full") false;
     AddWarning "f1" "upload" "slow"; CompletePipeline "f1"]
    (run (H := sample_env) pipeline_started (boot 0)) "f1" _
    ltac:(repeat constructor) ltac:(vm_compute; reflexivity))
    as (p' & Hp' & _ & _ & _ & _ & _ & _ & He & _).
  exists p'. split; [vm_compute; reflexivity|]. split; [exact Hp' | exact He].
Defined.

(** * The session object of the chunk manager *)

Section Chunk_count.
Context `{Env}.



End Chunk_count.

